(** * Intrusive doubly-linked list: a shallow embedding of
      src/intrusive_list.h and src/unnamed/part_000.

    Both files declare the same three types ([list_element], [list_iterator],
    [list]); they differ in [unlink], in the iterator steps, in how an empty
    list stores [first], and in how the push/pop/move operations are written.

    Memory is an explicit store.  A [list_element] object lives at an address
    and holds two nullable pointers.  A [list] object is named by the address
    of its [after_last] member (the sentinel), whose [list_element] cell lives
    in the same store as every other link; the [first] member of the list is
    kept in a second map under that same name.  Dereferencing a null pointer
    or an address that holds no object is undefined behaviour, modelled by
    [None]. *)

From stdpp Require Import gmap list fin_maps.

Set Warnings "-clear-no-such-hyp".

Abbreviation loc := nat (only parsing).

(** A nullable [list_element*]; [None] is [nullptr]. *)
Abbreviation ptr := (option nat) (only parsing).

(** [struct list_element { list_element *prev; list_element *next; }]. *)
Record list_element := mk_element { prev : ptr; next : ptr }.

Global Instance list_element_eq_dec : EqDecision list_element.
Proof. solve_decision. Defined.

(** The store: every [list_element] object, and every list's [first]. *)
Record state := mk_state {
  links : gmap nat list_element;
  firsts : gmap nat ptr
}.

(** ** Computations that may hit undefined behaviour *)

Definition M (A : Type) : Type := state → option (A * state).

Global Instance M_ret : MRet M := λ A a σ, Some (a, σ).
Global Instance M_bind : MBind M := λ A B k m σ,
  match m σ with
  | Some (a, σ') => k a σ'
  | None => None
  end.

Definition ub {A} : M A := λ _, None.

(** [q->prev], [q->next] as rvalues. *)
Definition rd_prev (q : ptr) : M ptr := λ σ,
  match q with
  | Some x => match links σ !! x with
              | Some e => Some (prev e, σ)
              | None => None
              end
  | None => None
  end.

Definition rd_next (q : ptr) : M ptr := λ σ,
  match q with
  | Some x => match links σ !! x with
              | Some e => Some (next e, σ)
              | None => None
              end
  | None => None
  end.

(** [q->prev = v], [q->next = v]. *)
Definition wr_prev (q : ptr) (v : ptr) : M unit := λ σ,
  match q with
  | Some x => match links σ !! x with
              | Some e => Some (tt, mk_state (<[x := mk_element v (next e)]> (links σ)) (firsts σ))
              | None => None
              end
  | None => None
  end.

Definition wr_next (q : ptr) (v : ptr) : M unit := λ σ,
  match q with
  | Some x => match links σ !! x with
              | Some e => Some (tt, mk_state (<[x := mk_element (prev e) v]> (links σ)) (firsts σ))
              | None => None
              end
  | None => None
  end.

(** The [first] member of the list named [l]. *)
Definition rd_first (l : loc) : M ptr := λ σ,
  match firsts σ !! l with
  | Some f => Some (f, σ)
  | None => None
  end.

Definition wr_first (l : loc) (v : ptr) : M unit := λ σ,
  match firsts σ !! l with
  | Some _ => Some (tt, mk_state (links σ) (<[l := v]> (firsts σ)))
  | None => None
  end.

(** [list_element(p, n)]: an object is constructed at a fresh address [x]. *)
Definition new_element (x : loc) (p n : ptr) : M unit := λ σ,
  Some (tt, mk_state (<[x := mk_element p n]> (links σ)) (firsts σ)).

(** The storage of the object at [x] is released. *)
Definition release (x : loc) : M unit := λ σ,
  match links σ !! x with
  | Some _ => Some (tt, mk_state (delete x (links σ)) (firsts σ))
  | None => None
  end.

(** ** Parts that are the same text in both files *)

(** [list_iterator]: the only data member is [current]. *)
Abbreviation iterator := (option nat) (only parsing).

(** [operator*]: [static_cast<T &>( *current)]; the element is named by its
    address. *)
Definition deref (it : iterator) : M loc :=
  match it with
  | Some x => mret x
  | None => ub
  end.

(** [operator==]: the two [current] pointers are compared. *)
Definition iter_eq (a b : iterator) : bool := bool_decide (a = b).

(** [end()]: [iterator(&after_last)]. *)
Definition end_ (l : loc) : iterator := Some l.

(** [back()]: [static_cast<T &>( *after_last.prev)]. *)
Definition back (l : loc) : M loc :=
  p ← rd_prev (Some l); deref p.

(** [front()]: [static_cast<T &>( *first)]. *)
Definition front (l : loc) : M loc :=
  f ← rd_first l; deref f.

(** [insert(pos, elem)], intrusive_list.h 255-267 and part_000 212-224. *)
Definition insert (l : loc) (pos : iterator) (elem : loc) : M iterator :=
  let new_el := Some elem in
  let p := pos in
  pp ← rd_prev p;
  (if pp is Some _ then wr_next pp new_el else wr_first l new_el);;
  pp ← rd_prev p;
  wr_prev new_el pp;;
  wr_prev p new_el;;
  wr_next new_el p;;
  mret new_el.

(** [erase(pos)], intrusive_list.h 269-281 and part_000 226-238. *)
Definition erase (l : loc) (pos : iterator) : M iterator :=
  if negb (iter_eq pos (end_ l)) then
    let p := pos in
    pn ← rd_next p;
    pp ← rd_prev p;
    wr_prev pn pp;;
    pp ← rd_prev p;
    (if pp is Some _ then
       pn ← rd_next p; wr_next pp pn
     else
       pn ← rd_next p; wr_first l pn);;
    rd_next p
  else mret (end_ l).

Section splice.
(** What [donor.first] becomes when the moved range starts at the donor's
    first member and ends at [donor.end()]: [nullptr] in intrusive_list.h
    (line 297), [&donor.after_last] in part_000 (line 254). *)
Variable donor_emptied : loc → ptr.

(** [splice(it0, donor, it1, it2)], intrusive_list.h 283-311 and
    part_000 240-268. *)
Definition splice_with (l : loc) (it0 : iterator) (donor : loc)
    (it1 it2 : iterator) : M unit :=
  if iter_eq it1 it2 then mret tt
  else
    let after_incision := it0 in
    let from := it1 in
    let to := it2 in
    fp ← rd_prev from;
    (if fp is Some _ then wr_next fp to
     else if negb (iter_eq it2 (end_ donor)) then wr_first donor to
     else wr_first donor (donor_emptied donor));;
    ap ← rd_prev after_incision;
    (if ap is Some _ then wr_next ap from else wr_first l from);;
    before_incision ← rd_prev after_incision;
    tp ← rd_prev to;
    wr_prev after_incision tp;;
    tp ← rd_prev to;
    wr_next tp after_incision;;
    fp ← rd_prev from;
    wr_prev to fp;;
    wr_prev from before_incision.
End splice.

(** ** src/intrusive_list.h *)
Module intrusive_list_h.

(** [unlink()], lines 28-35. *)
Definition unlink (this : loc) : M unit :=
  p ← rd_prev (Some this);
  (if p is Some _ then n ← rd_next (Some this); wr_next p n else mret tt);;
  n ← rd_next (Some this);
  (if n is Some _ then p ← rd_prev (Some this); wr_prev n p else mret tt).

(** [~list_element()], lines 23-25; afterwards the object is gone. *)
Definition destroy (this : loc) : M unit :=
  unlink this;; release this.

(** [operator++], lines 82-87, and [operator--], lines 89-94. *)
Definition incr (it : iterator) : M iterator :=
  if it is Some _ then rd_next it else mret it.

Definition decr (it : iterator) : M iterator :=
  if it is Some _ then rd_prev it else mret it.

(** [list()], line 134, with the member initialisers of lines 160-161. *)
Definition new_list (l : loc) : M unit := λ σ,
  Some (tt, mk_state (<[l := mk_element None None]> (links σ))
                     (<[l := None]> (firsts σ))).

(** [clear()], lines 156-158. *)
Definition clear (l : loc) : M unit :=
  wr_prev (Some l) None;; wr_first l None.

(** [operator=(list &&)], lines 146-154. *)
Definition move_assign (l other : loc) : M unit :=
  f ← rd_first other;
  wr_first l f;;
  op ← rd_prev (Some other);
  wr_prev (Some l) op;;
  lp ← rd_prev (Some l);
  (if lp is Some _ then wr_next lp (Some l) else mret tt);;
  wr_first other None;;
  wr_prev (Some other) None.

(** [list(list &&)], lines 138-140. *)
Definition move_construct (l other : loc) : M unit :=
  new_list l;; move_assign l other.

(** [push_back(elem)], lines 168-180. *)
Definition push_back (l : loc) (elem : loc) : M unit :=
  let p := Some elem in
  lp ← rd_prev (Some l);
  (if lp is Some _ then
     wr_next lp p;;
     lp ← rd_prev (Some l);
     wr_prev p lp
   else mret tt);;
  wr_prev (Some l) p;;
  wr_next p (Some l);;
  f ← rd_first l;
  (if f is None then lp ← rd_prev (Some l); wr_first l lp else mret tt).

(** [pop_back()], lines 182-189. *)
Definition pop_back (l : loc) : M unit :=
  lp ← rd_prev (Some l);
  lpp ← (if lp is Some _ then rd_prev lp else mret None);
  if lpp is Some _ then
    lp ← rd_prev (Some l);
    lpp ← rd_prev lp;
    wr_next lpp (Some l);;
    lp ← rd_prev (Some l);
    lpp ← rd_prev lp;
    wr_prev (Some l) lpp
  else clear l.

(** [push_front(elem)], lines 199-210. *)
Definition push_front (l : loc) (elem : loc) : M unit :=
  let p := Some elem in
  wr_prev p None;;
  f ← rd_first l;
  (if f is Some _ then
     wr_prev f p;;
     f ← rd_first l;
     wr_next p f
   else mret tt);;
  wr_first l p;;
  lp ← rd_prev (Some l);
  (if lp is None then f ← rd_first l; wr_prev (Some l) f else mret tt).

(** [pop_front()], lines 212-219. *)
Definition pop_front (l : loc) : M unit :=
  f ← rd_first l;
  fn ← (if f is Some _ then rd_next f else mret None);
  if fn is Some _ then
    f ← rd_first l;
    fn ← rd_next f;
    wr_prev fn None;;
    f ← rd_first l;
    fn ← rd_next f;
    wr_first l fn
  else clear l.

(** [empty()], lines 229-231. *)
Definition empty (l : loc) : M bool :=
  f ← rd_first l; mret (bool_decide (f = None)).

(** [begin()], lines 233-238. *)
Definition begin (l : loc) : M iterator :=
  f ← rd_first l;
  if f is None then mret (end_ l) else mret f.

(** [splice], lines 283-311. *)
Definition splice : loc → iterator → loc → iterator → iterator → M unit :=
  splice_with (λ _, None).

End intrusive_list_h.

(** ** src/unnamed/part_000 *)
Module part_000.

(** [unlink()], lines 25-34. *)
Definition unlink (this : loc) : M unit :=
  p ← rd_prev (Some this);
  (if p is Some _ then
     n ← rd_next (Some this); wr_next p n;; wr_next (Some this) None
   else mret tt);;
  n ← rd_next (Some this);
  (if n is Some _ then
     p ← rd_prev (Some this); wr_prev n p;; wr_prev (Some this) None
   else mret tt).

(** [~list_element()], lines 20-22; afterwards the object is gone. *)
Definition destroy (this : loc) : M unit :=
  unlink this;; release this.

(** [operator++], lines 81-84, and [operator--], lines 86-89. *)
Definition incr (it : iterator) : M iterator := rd_next it.

Definition decr (it : iterator) : M iterator := rd_prev it.

(** [list()], line 129, with the member initialisers of lines 152-153. *)
Definition new_list (l : loc) : M unit := λ σ,
  Some (tt, mk_state (<[l := mk_element None None]> (links σ))
                     (<[l := Some l]> (firsts σ))).

(** [clear()], lines 147-150. *)
Definition clear (l : loc) : M unit :=
  wr_first l (Some l);; wr_prev (Some l) None.

(** [begin()], lines 196-198. *)
Definition begin (l : loc) : M iterator := rd_first l.

(** [empty()], lines 192-194. *)
Definition empty (l : loc) : M bool :=
  f ← rd_first l; mret (bool_decide (f = Some l)).

(** [splice], lines 240-268. *)
Definition splice : loc → iterator → loc → iterator → iterator → M unit :=
  splice_with (λ donor, Some donor).

(** [operator=(list &&)], lines 141-145. *)
Definition move_assign (l other : loc) : M unit :=
  clear l;;
  b ← begin l;
  ob ← begin other;
  splice l b other ob (end_ other).

(** [list(list &&)], lines 133-135. *)
Definition move_construct (l other : loc) : M unit :=
  new_list l;;
  b ← begin l;
  ob ← begin other;
  splice l b other ob (end_ other).

(** [push_back], lines 160-162; [pop_back], 164-166; [push_front],
    176-178; [pop_front], 180-182. *)
Definition push_back (l : loc) (elem : loc) : M unit :=
  insert l (end_ l) elem;; mret tt.

Definition pop_back (l : loc) : M unit :=
  lp ← rd_prev (Some l); erase l lp;; mret tt.

Definition push_front (l : loc) (elem : loc) : M unit :=
  b ← begin l; insert l b elem;; mret tt.

Definition pop_front (l : loc) : M unit :=
  b ← begin l; erase l b;; mret tt.

End part_000.

(** ** The client's traversal loop

    [for (it = begin(); it != end(); ++it) visit( *it)], with the step
    function of the file in use.  The loop is cut after [fuel] rounds. *)
Fixpoint traverse (incr : iterator → M iterator) (fuel : nat)
    (last it : iterator) : M (list nat) :=
  match fuel with
  | O => ub
  | S fuel' =>
      if iter_eq it last then mret []
      else
        x ← deref it;
        it' ← incr it;
        xs ← traverse incr fuel' last it';
        mret (x :: xs)
  end.

Definition to_list_h (fuel : nat) (l : loc) : M (list nat) :=
  b ← intrusive_list_h.begin l; traverse intrusive_list_h.incr fuel (end_ l) b.

Definition to_list_p (fuel : nat) (l : loc) : M (list nat) :=
  b ← part_000.begin l; traverse part_000.incr fuel (end_ l) b.

(** ** Well-formed chains

    [seg h p xs e]: in the link store [h] the nodes [xs] are linked to one
    another in order, both ways; the first node's [prev] is [p] and the last
    node's [next] is [e]. *)
Definition head_or (xs : list nat) (e : ptr) : ptr :=
  match head xs with Some y => Some y | None => e end.

Definition last_or (p : ptr) (xs : list nat) : ptr :=
  match last xs with Some y => Some y | None => p end.

Fixpoint seg (h : gmap nat list_element) (p : ptr) (xs : list nat) (e : ptr) : Prop :=
  match xs with
  | [] => True
  | x :: xs' => h !! x = Some (mk_element p (head_or xs' e)) ∧ seg h (Some x) xs' e
  end.

(** The links of a list whose members are [xs], in order: the first member's
    [prev] is null, the last member's [next] is the sentinel [l], the
    sentinel's [prev] is the last member (null when there is none) and its
    [next] is null.  No address occurs twice. *)
Definition linked (h : gmap nat list_element) (l : loc) (xs : list nat) : Prop :=
  NoDup (xs ++ [l]) ∧ seg h None (xs ++ [l]) None.

(** A well-formed list: its links, and [first] pointing at the first member;
    [nil l] is what [first] holds in an empty list. *)
Definition chain_with (nil : loc → ptr) (σ : state) (l : loc) (xs : list nat) : Prop :=
  linked (links σ) l xs ∧
  firsts σ !! l = Some (match xs with [] => nil l | x :: _ => Some x end).

(** intrusive_list.h: [first] is null in an empty list (line 160). *)
Definition chain_h : state → loc → list nat → Prop := chain_with (λ _, None).

(** part_000: [first] is [&after_last] in an empty list (line 153). *)
Definition chain_p : state → loc → list nat → Prop := chain_with (λ l, Some l).

(** Several disjoint runs of nodes, each with its two boundary pointers. *)
Definition pieces (h : gmap nat list_element) (ps : list (ptr * list nat * ptr)) : Prop :=
  NoDup (mjoin ((λ q, q.1.2) <$> ps)) ∧
  Forall (λ q, seg h q.1.1 q.1.2 q.2) ps.

(** The pieces [ps] describe the link store [h], and [h] agrees with [h0]
    at every address outside the pieces. *)
Definition tracked (h0 h : gmap nat list_element) (ps : list (ptr * list nat * ptr)) : Prop :=
  pieces h ps ∧ ∀ y, y ∉ mjoin ((λ q, q.1.2) <$> ps) → h !! y = h0 !! y.

Global Instance seg_dec h p xs e : Decision (seg h p xs e).
Proof. revert p. induction xs as [|x xs IH]; intros p; simpl; apply _. Defined.

Global Instance linked_dec h l xs : Decision (linked h l xs).
Proof. unfold linked. apply _. Defined.

Global Instance chain_with_dec nil σ l xs : Decision (chain_with nil σ l xs).
Proof. unfold chain_with. apply _. Defined.

Global Instance chain_h_dec σ l xs : Decision (chain_h σ l xs).
Proof. unfold chain_h. apply _. Defined.

Global Instance chain_p_dec σ l xs : Decision (chain_p σ l xs).
Proof. unfold chain_p. apply _. Defined.

(** The computation [m], started in [σ], runs to the end without undefined
    behaviour, and its result and final store satisfy [Q]. *)
Definition wp {A} (m : M A) (σ : state) (Q : A → state → Prop) : Prop :=
  ∃ a σ', m σ = Some (a, σ') ∧ Q a σ'.

(** A list object lives at [l]: it has a [first] member and an [after_last]
    member whose [next] is null (nothing in either file ever writes it). *)
Definition list_object (σ : state) (l : loc) : Prop :=
  next <$> links σ !! l = Some None ∧ is_Some (firsts σ !! l).

Global Instance list_object_dec σ l : Decision (list_object σ l).
Proof. unfold list_object. apply _. Defined.

(** A link with both references absent. *)
Definition detached (h : gmap nat list_element) (x : loc) : Prop :=
  h !! x = Some (mk_element None None).

Global Instance detached_dec h x : Decision (detached h x).
Proof. unfold detached. apply _. Defined.

(** ** Contracts of the chain operations

    [chain] is the well-formedness predicate of the file in use; [frame] says
    which addresses and which lists an operation may have written. *)
Definition frame (σ σ' : state) (nodes lists : list nat) : Prop :=
  (∀ y, y ∉ nodes → links σ' !! y = links σ !! y) ∧
  (∀ l', l' ∉ lists → firsts σ' !! l' = firsts σ !! l').

Section contracts.
Variable chain : state → loc → list nat → Prop.
(** A side condition on the chain an operation starts from or leaves. *)
Variable ok : list nat → Prop.

Definition keeps_push_back (push_back : loc → loc → M unit) : Prop :=
  ∀ σ l xs x, chain σ l xs → x ∉ xs ++ [l] → detached (links σ) x →
    ∃ σ', push_back l x σ = Some (tt, σ') ∧
          chain σ' l (xs ++ [x]) ∧ frame σ σ' (x :: xs ++ [l]) [l].

Definition keeps_push_front (push_front : loc → loc → M unit) : Prop :=
  ∀ σ l xs x, chain σ l xs → ok xs → x ∉ xs ++ [l] → detached (links σ) x →
    ∃ σ', push_front l x σ = Some (tt, σ') ∧
          chain σ' l (x :: xs) ∧ frame σ σ' (x :: xs ++ [l]) [l].


(** The removed element [z] is no longer a member; its own link is not
    written. *)
Definition keeps_pop_back (pop_back : loc → M unit) : Prop :=
  ∀ σ l xs z, chain σ l (xs ++ [z]) →
    ∃ σ', pop_back l σ = Some (tt, σ') ∧
          chain σ' l xs ∧ links σ' !! z = links σ !! z ∧
          frame σ σ' (xs ++ [l]) [l].

Definition keeps_pop_front (pop_front : loc → M unit) : Prop :=
  ∀ σ l x xs, chain σ l (x :: xs) → ok xs →
    ∃ σ', pop_front l σ = Some (tt, σ') ∧
          chain σ' l xs ∧ links σ' !! x = links σ !! x ∧
          frame σ σ' (xs ++ [l]) [l].

Definition keeps_erase (erase : loc → iterator → M iterator) : Prop :=
  ∀ σ l xs1 x xs2, chain σ l (xs1 ++ x :: xs2) → ok (xs1 ++ xs2) →
    ∃ σ', erase l (Some x) σ = Some (head_or xs2 (Some l), σ') ∧
          chain σ' l (xs1 ++ xs2) ∧ links σ' !! x = links σ !! x ∧
          frame σ σ' (xs1 ++ xs2 ++ [l]) [l].



(** [splice] within one chain, to a position behind the end [to] of the
    range. *)
Definition keeps_splice_forward
    (splice : loc → iterator → loc → iterator → iterator → M unit) : Prop :=
  ∀ σ l a mid b c from to,
    chain σ l (a ++ mid ++ b ++ c) → head mid = Some from → head b = Some to →
    ∃ σ', splice l (head_or c (Some l)) l (Some from) (Some to) σ = Some (tt, σ') ∧
          chain σ' l (a ++ b ++ mid ++ c) ∧
          frame σ σ' (a ++ mid ++ b ++ c ++ [l]) [l].

Definition keeps_move_assign (move_assign : loc → loc → M unit) : Prop :=
  ∀ σ l other xs, chain σ other xs → l ∉ xs ++ [other] → list_object σ l →
    ∃ σ', move_assign l other σ = Some (tt, σ') ∧
          chain σ' l xs ∧ chain σ' other [] ∧
          frame σ σ' (l :: xs ++ [other]) [l; other].

Definition keeps_move_construct (move_construct : loc → loc → M unit) : Prop :=
  ∀ σ l other xs, chain σ other xs → l ∉ xs ++ [other] →
    ∃ σ', move_construct l other σ = Some (tt, σ') ∧
          chain σ' l xs ∧ chain σ' other [] ∧
          frame σ σ' (l :: xs ++ [other]) [l; other].

End contracts.

Definition any_chain (xs : list nat) : Prop := True.
Definition non_empty (xs : list nat) : Prop := xs ≠ [].

(** ** Test scenarios

    Elements are constructed detached, the element that carries the value
    [v] at address [v]; the list under test lives at address 100. *)
Definition σ0 : state := mk_state ∅ ∅.

Definition after {A} (m : M A) (σ : state) : state :=
  match m σ with
  | Some (_, σ') => σ'
  | None => σ
  end.

Definition make_elements (xs : list nat) : M unit :=
  foldr (λ x k, new_element x None None;; k) (mret tt) xs.

Definition each (f : loc → M unit) (xs : list nat) : M unit :=
  foldr (λ x k, f x;; k) (mret tt) xs.

(** A fresh list at [l], filled by [push_back] of [xs] in order. *)
Definition fill_h (l : loc) (xs : list nat) : M unit :=
  intrusive_list_h.new_list l;; make_elements xs;;
  each (intrusive_list_h.push_back l) xs.

Definition fill_p (l : loc) (xs : list nat) : M unit :=
  part_000.new_list l;; make_elements xs;;
  each (part_000.push_back l) xs.

(** The cursor reached from [it] by [k] increments. *)
Fixpoint advance (incr : iterator → M iterator) (k : nat) (it : iterator) : M iterator :=
  match k with
  | O => mret it
  | S k' => it' ← incr it; advance incr k' it'
  end.

(** Chain [1,2,3,4,5]; [splice(pos_of_5, A, pos_of_2, pos_of_4)]; traverse. *)
Definition self_splice_h : M (list nat) :=
  fill_h 100 [1; 2; 3; 4; 5];;
  b ← intrusive_list_h.begin 100;
  p2 ← advance intrusive_list_h.incr 1 b;
  p4 ← advance intrusive_list_h.incr 3 b;
  p5 ← advance intrusive_list_h.incr 4 b;
  intrusive_list_h.splice 100 p5 100 p2 p4;;
  to_list_h 6 100.

Definition self_splice_p : M (list nat) :=
  fill_p 100 [1; 2; 3; 4; 5];;
  b ← part_000.begin 100;
  p2 ← advance part_000.incr 1 b;
  p4 ← advance part_000.incr 3 b;
  p5 ← advance part_000.incr 4 b;
  part_000.splice 100 p5 100 p2 p4;;
  to_list_p 6 100.

(** [push_back] of 10, 20, 30; [*begin()]; [erase(++begin())]; traverse. *)
Definition erase_second_h : M (loc * iterator * list nat) :=
  fill_h 100 [10; 20; 30];;
  b ← intrusive_list_h.begin 100;
  d ← deref b;
  it ← intrusive_list_h.incr b;
  r ← erase 100 it;
  xs ← to_list_h 4 100;
  mret (d, r, xs).

Definition erase_second_p : M (loc * iterator * list nat) :=
  fill_p 100 [10; 20; 30];;
  b ← part_000.begin 100;
  d ← deref b;
  it ← part_000.incr b;
  r ← erase 100 it;
  xs ← to_list_p 4 100;
  mret (d, r, xs).

(** ** Programs over the public operations, run against either file *)
Inductive op :=
  | PushBack (x : loc) | PushFront (x : loc) | PopBack | PopFront
  | Empty | Front | Back | Iterate.

Inductive obs :=
  | Done | Flag (b : bool) | Elem (x : loc) | Seq (xs : list nat).

Definition exec_h (l : loc) (o : op) : M obs :=
  match o with
  | PushBack x => intrusive_list_h.push_back l x;; mret Done
  | PushFront x => intrusive_list_h.push_front l x;; mret Done
  | PopBack => intrusive_list_h.pop_back l;; mret Done
  | PopFront => intrusive_list_h.pop_front l;; mret Done
  | Empty => b ← intrusive_list_h.empty l; mret (Flag b)
  | Front => x ← front l; mret (Elem x)
  | Back => x ← back l; mret (Elem x)
  | Iterate => xs ← to_list_h 16 l; mret (Seq xs)
  end.

Definition exec_p (l : loc) (o : op) : M obs :=
  match o with
  | PushBack x => part_000.push_back l x;; mret Done
  | PushFront x => part_000.push_front l x;; mret Done
  | PopBack => part_000.pop_back l;; mret Done
  | PopFront => part_000.pop_front l;; mret Done
  | Empty => b ← part_000.empty l; mret (Flag b)
  | Front => x ← front l; mret (Elem x)
  | Back => x ← back l; mret (Elem x)
  | Iterate => xs ← to_list_p 16 l; mret (Seq xs)
  end.

Fixpoint run (exec : op → M obs) (prog : list op) : M (list obs) :=
  match prog with
  | [] => mret []
  | o :: prog' => r ← exec o; rs ← run exec prog'; mret (r :: rs)
  end.

(** A fresh list at 100 and detached elements 1, 2, 3, then the program. *)
Definition run_h (prog : list op) : option (list obs) :=
  fst <$> (intrusive_list_h.new_list 100;; make_elements [1; 2; 3];;
           run (exec_h 100) prog) σ0.

Definition run_p (prog : list op) : option (list obs) :=
  fst <$> (part_000.new_list 100;; make_elements [1; 2; 3];;
           run (exec_p 100) prog) σ0.

(** ** The list the two files are meant to realize

    The abstract state is the member sequence and the pool of detached
    elements that may still be put in.  A step is defined where the
    operation's precondition holds; [push_front] on an empty chain and
    [pop_front] of the only member are left out. *)
Definition abs_step (st : list nat * list nat) (o : op)
    : option (obs * (list nat * list nat)) :=
  let '(xs, pool) := st in
  match o with
  | PushBack x =>
      if decide (x ∈ pool) then Some (Done, (xs ++ [x], filter (λ y, y ≠ x) pool))
      else None
  | PushFront x =>
      if decide (x ∈ pool ∧ xs ≠ []) then Some (Done, (x :: xs, filter (λ y, y ≠ x) pool))
      else None
  | PopBack =>
      match last xs with
      | Some _ => Some (Done, (removelast xs, pool))
      | None => None
      end
  | PopFront =>
      match xs with
      | _ :: y :: xs' => Some (Done, (y :: xs', pool))
      | _ => None
      end
  | Empty => Some (Flag (bool_decide (xs = [])), st)
  | Front =>
      match xs with
      | x :: _ => Some (Elem x, st)
      | [] => None
      end
  | Back =>
      match last xs with
      | Some z => Some (Elem z, st)
      | None => None
      end
  | Iterate => if decide (length xs < 16) then Some (Seq xs, st) else None
  end.

Fixpoint abs_run (st : list nat * list nat) (prog : list op)
    : option (list obs * (list nat * list nat)) :=
  match prog with
  | [] => Some ([], st)
  | o :: prog' =>
      match abs_step st o with
      | Some (r, st') =>
          match abs_run st' prog' with
          | Some (rs, st'') => Some (r :: rs, st'')
          | None => None
          end
      | None => None
      end
  end.

(** The store [σ] holds the abstract state [st] as a chain at [l]. *)
Definition holds (chain : state → loc → list nat → Prop) (σ : state) (l : loc)
    (st : list nat * list nat) : Prop :=
  chain σ l st.1 ∧
  ∀ x, x ∈ st.2 → detached (links σ) x ∧ x ∉ st.1 ++ [l].

(** ** The remaining iterator operators

    [operator++(int)] and [operator--(int)]: [auto tmp = *this; ++*this;
    return tmp;].  The result is the pair of the returned copy and of the
    cursor as the call leaves it.  The step is the prefix operator of the
    file in use (intrusive_list.h 96-106, part_000 91-101). *)
Definition post_step (step : iterator → M iterator) (it : iterator)
    : M (iterator * iterator) :=
  let tmp := it in
  it' ← step it;
  mret (tmp, it').

(** [operator!=]: intrusive_list.h 112-114, part_000 107-109. *)
Definition iter_ne (a b : iterator) : bool := negb (bool_decide (a = b)).

(** ** More client loops *)

(** [for (it = end(); it != begin(); ) { --it; visit( *it); }] *)
Fixpoint traverse_back (decr : iterator → M iterator) (fuel : nat)
    (first it : iterator) : M (list nat) :=
  match fuel with
  | O => ub
  | S fuel' =>
      if iter_ne it first then
        it' ← decr it;
        x ← deref it';
        xs ← traverse_back decr fuel' first it';
        mret (x :: xs)
      else mret []
  end.

Definition to_list_back_h (fuel : nat) (l : loc) : M (list nat) :=
  b ← intrusive_list_h.begin l;
  traverse_back intrusive_list_h.decr fuel b (end_ l).

Definition to_list_back_p (fuel : nat) (l : loc) : M (list nat) :=
  b ← part_000.begin l;
  traverse_back part_000.decr fuel b (end_ l).

(** [for (it = begin(); it != end(); ) it = erase(it);] from the cursor
    [it] on. *)
Fixpoint erase_all (fuel : nat) (l : loc) (it : iterator) : M unit :=
  match fuel with
  | O => ub
  | S fuel' =>
      if iter_ne it (end_ l) then
        it' ← erase l it;
        erase_all fuel' l it'
      else mret tt
  end.

(** The two stores hold the same objects: no link and no list was created
    or released between them. *)
Definition same_objects (σ σ' : state) : Prop :=
  dom (links σ') = dom (links σ) ∧ dom (firsts σ') = dom (firsts σ).

(** A computation that neither creates nor releases an object, whatever
    store it starts from. *)
Definition keeps_objects {A} (m : M A) : Prop :=
  ∀ σ a σ', m σ = Some (a, σ') → same_objects σ σ'.

(** ** Destruction of a list

    [~list() {}] (intrusive_list.h 142, part_000 137) has an empty body;
    after it the members of the object are destroyed.  [first] is a plain
    pointer, whose destruction does nothing; [after_last] is a
    [list_element], whose destructor calls [unlink()] on the sentinel.
    Afterwards the storage of both members is gone. *)
Definition release_first (l : loc) : M unit := λ σ,
  match firsts σ !! l with
  | Some _ => Some (tt, mk_state (links σ) (delete l (firsts σ)))
  | None => None
  end.

Definition destroy_list_h (l : loc) : M unit :=
  intrusive_list_h.destroy l;; release_first l.

Definition destroy_list_p (l : loc) : M unit :=
  part_000.destroy l;; release_first l.
(** * Lemmas *)

(** ** Stepping through a computation *)

Lemma bind_eq {A B} (m : M A) (k : A → M B) σ :
  (m ≫= k) σ = match m σ with Some (a, σ') => k a σ' | None => None end.
Proof. reflexivity. Qed.

Lemma rd_prev_run x c h f :
  h !! x = Some c → rd_prev (Some x) (mk_state h f) = Some (prev c, mk_state h f).
Proof. intros H. unfold rd_prev. simpl. by rewrite H. Qed.

Lemma rd_next_run x c h f :
  h !! x = Some c → rd_next (Some x) (mk_state h f) = Some (next c, mk_state h f).
Proof. intros H. unfold rd_next. simpl. by rewrite H. Qed.

Lemma wr_prev_run x c v h f :
  h !! x = Some c →
  wr_prev (Some x) v (mk_state h f) =
    Some (tt, mk_state (<[x := mk_element v (next c)]> h) f).
Proof. intros H. unfold wr_prev. simpl. by rewrite H. Qed.

Lemma wr_next_run x c v h f :
  h !! x = Some c →
  wr_next (Some x) v (mk_state h f) =
    Some (tt, mk_state (<[x := mk_element (prev c) v]> h) f).
Proof. intros H. unfold wr_next. simpl. by rewrite H. Qed.

Lemma rd_first_run l v h (f : gmap nat (option nat)) :
  f !! l = Some v → rd_first l (mk_state h f) = Some (v, mk_state h f).
Proof. intros H. unfold rd_first. simpl. by rewrite H. Qed.

Lemma wr_first_run l v w h (f : gmap nat (option nat)) :
  f !! l = Some w →
  wr_first l v (mk_state h f) = Some (tt, mk_state h (<[l := v]> f)).
Proof. intros H. unfold wr_first. simpl. by rewrite H. Qed.

Lemma wp_bind {A B} (m : M A) (k : A → M B) σ Q :
  wp m σ (λ a σ', wp (k a) σ' Q) → wp (m ≫= k) σ Q.
Proof.
  intros (a & σ' & Hm & b & σ'' & Hk & HQ). exists b, σ''. split; [|done].
  by rewrite bind_eq, Hm.
Qed.

Lemma wp_ret {A} (a : A) σ (Q : A → state → Prop) : Q a σ → wp (mret a) σ Q.
Proof. intros HQ. by exists a, σ. Qed.

Lemma wp_mono {A} (m : M A) σ (Q Q' : A → state → Prop) :
  wp m σ Q → (∀ a σ', Q a σ' → Q' a σ') → wp m σ Q'.
Proof. intros (a & σ' & Hm & HQ) HQQ. exists a, σ'. eauto. Qed.

Lemma wp_rd_prev x c h f Q :
  h !! x = Some c → Q (prev c) (mk_state h f) → wp (rd_prev (Some x)) (mk_state h f) Q.
Proof. intros Hc HQ. eexists _, _. split; [by apply rd_prev_run|done]. Qed.

Lemma wp_rd_next x c h f Q :
  h !! x = Some c → Q (next c) (mk_state h f) → wp (rd_next (Some x)) (mk_state h f) Q.
Proof. intros Hc HQ. eexists _, _. split; [by apply rd_next_run|done]. Qed.

Lemma wp_wr_prev x c v h f Q :
  h !! x = Some c → Q tt (mk_state (<[x := mk_element v (next c)]> h) f) →
  wp (wr_prev (Some x) v) (mk_state h f) Q.
Proof. intros Hc HQ. eexists _, _. split; [by apply wr_prev_run|done]. Qed.

Lemma wp_wr_next x c v h f Q :
  h !! x = Some c → Q tt (mk_state (<[x := mk_element (prev c) v]> h) f) →
  wp (wr_next (Some x) v) (mk_state h f) Q.
Proof. intros Hc HQ. eexists _, _. split; [by apply wr_next_run|done]. Qed.

Lemma wp_rd_first l v h (f : gmap nat (option nat)) Q :
  f !! l = Some v → Q v (mk_state h f) → wp (rd_first l) (mk_state h f) Q.
Proof. intros Hc HQ. eexists _, _. split; [by apply rd_first_run|done]. Qed.

Lemma wp_wr_first l v w h (f : gmap nat (option nat)) Q :
  f !! l = Some w → Q tt (mk_state h (<[l := v]> f)) →
  wp (wr_first l v) (mk_state h f) Q.
Proof. intros Hc HQ. eexists _, _. split; [by eapply wr_first_run|done]. Qed.

(** ** Segments *)

Lemma head_or_app xs ys e : head_or (xs ++ ys) e = head_or xs (head_or ys e).
Proof. by destruct xs. Qed.

Lemma last_or_cons p x xs : last_or p (x :: xs) = last_or (Some x) xs.
Proof. unfold last_or. rewrite last_cons. by destruct (last xs). Qed.

Lemma head_or_Some xs x e : head xs = Some x → head_or xs e = Some x.
Proof. unfold head_or. by intros ->. Qed.

Lemma last_or_Some xs x p : last xs = Some x → last_or p xs = Some x.
Proof. unfold last_or. by intros ->. Qed.

Lemma seg_app h p xs ys e :
  seg h p (xs ++ ys) e ↔ seg h p xs (head_or ys e) ∧ seg h (last_or p xs) ys e.
Proof.
  revert p. induction xs as [|x xs IH]; intros p; simpl.
  - unfold last_or. simpl. tauto.
  - rewrite IH, head_or_app, last_or_cons. tauto.
Qed.

Lemma seg_frame h x c p xs e :
  x ∉ xs → seg h p xs e → seg (<[x := c]> h) p xs e.
Proof.
  revert p. induction xs as [|y xs IH]; intros p Hx; simpl; [done|].
  apply not_elem_of_cons in Hx as [Hxy Hx]. intros [Hy Hs]. split.
  - by rewrite lookup_insert_ne.
  - by apply IH.
Qed.

Lemma seg_ext h h' p xs e :
  (∀ x, x ∈ xs → h' !! x = h !! x) → seg h p xs e → seg h' p xs e.
Proof.
  revert p. induction xs as [|y xs IH]; intros p Hx; simpl; [done|].
  intros [Hy Hs]. split.
  - rewrite Hx; [done | left].
  - apply IH; [|done]. intros x Hin. apply Hx. by right.
Qed.

Lemma seg_head h p xs e x :
  seg h p xs e → head xs = Some x → ∃ c, h !! x = Some c ∧ prev c = p.
Proof.
  destruct xs as [|y xs]; simpl; [done|]. intros [Hy _] [= ->]. eauto.
Qed.

Lemma seg_last h p xs e z :
  seg h p xs e → last xs = Some z → ∃ c, h !! z = Some c ∧ next c = e.
Proof.
  revert p. induction xs as [|y xs IH]; intros p; simpl; [done|].
  intros [Hy Hs]. rewrite last_cons. destruct (last xs) as [w|] eqn:Hl.
  - intros [= ->]. by eapply IH.
  - intros [= ->]. apply last_None in Hl as ->. eauto.
Qed.

Lemma seg_lookup h p xs e x :
  seg h p xs e → x ∈ xs → is_Some (h !! x).
Proof.
  revert p. induction xs as [|y xs IH]; intros p; simpl.
  - intros _ Hx. by apply elem_of_nil in Hx.
  - intros [Hy Hs] [->|Hx]%elem_of_cons; eauto.
Qed.

Lemma seg_set_prev h p xs e x c v :
  seg h p xs e → NoDup xs → head xs = Some x → h !! x = Some c →
  seg (<[x := mk_element v (next c)]> h) v xs e.
Proof.
  destruct xs as [|y xs]; simpl; [done|].
  intros [Hy Hs] [Hn _]%NoDup_cons [= ->] Hc. split.
  - rewrite lookup_insert_eq. rewrite Hy in Hc. by injection Hc as <-.
  - by apply seg_frame.
Qed.

Lemma seg_set_next h p xs e z c v :
  seg h p xs e → NoDup xs → last xs = Some z → h !! z = Some c →
  seg (<[z := mk_element (prev c) v]> h) p xs v.
Proof.
  revert p. induction xs as [|y xs IH]; intros p; simpl; [done|].
  intros [Hy Hs] [Hn Hnd]%NoDup_cons. rewrite last_cons.
  destruct (last xs) as [w|] eqn:Hl.
  - intros [= ->] Hc. split.
    + assert (y ≠ z) by (intros ->; apply Hn, last_Some_elem_of, Hl).
      rewrite lookup_insert_ne by done. rewrite Hy. f_equal. f_equal.
      unfold head_or. destruct xs; [done|done].
    + by apply IH.
  - intros [= ->] Hc. apply last_None in Hl as ->. split; [|done].
    rewrite lookup_insert_eq. rewrite Hy in Hc. by injection Hc as <-.
Qed.

(** ** Disjoint pieces *)

Lemma nodes_insert (ps : list (ptr * list nat * ptr)) i p xs e p' e' :
  ps !! i = Some (p, xs, e) →
  (λ q, q.1.2) <$> <[i := (p', xs, e')]> ps = (λ q : ptr * list nat * ptr, q.1.2) <$> ps.
Proof.
  intros Hi. rewrite list_fmap_insert. simpl. apply list_insert_id.
  by rewrite list_lookup_fmap, Hi.
Qed.

Lemma concat_disjoint (ls : list (list nat)) i j xs ys x :
  NoDup (mjoin ls) → ls !! i = Some xs → ls !! j = Some ys → i ≠ j →
  x ∈ xs → x ∉ ys.
Proof.
  revert i j. induction ls as [|zs ls IH]; intros i j; simpl; [done|].
  intros (Hz & Hd & Hn)%NoDup_app Hi Hj Hij Hx Hy.
  destruct i as [|i], j as [|j]; simpl in *; simplify_eq.
  - eapply Hd; [done|]. apply list_elem_of_join. exists ys. split; [done|].
    by eapply list_elem_of_lookup_2.
  - eapply Hd; [done|]. apply list_elem_of_join. exists xs. split; [done|].
    by eapply list_elem_of_lookup_2.
  - eapply (IH i j); eauto.
Qed.

Lemma concat_NoDup_at (ls : list (list nat)) i xs :
  NoDup (mjoin ls) → ls !! i = Some xs → NoDup xs.
Proof.
  revert i. induction ls as [|zs ls IH]; intros i; simpl; [done|].
  intros (Hz & Hd & Hn)%NoDup_app Hi. destruct i; simpl in *; simplify_eq; eauto.
Qed.

Lemma pieces_seg h ps i p xs e :
  pieces h ps → ps !! i = Some (p, xs, e) → seg h p xs e ∧ NoDup xs.
Proof.
  intros [Hn Hf] Hi. split.
  - rewrite Forall_lookup in Hf. apply (Hf _ _ Hi).
  - eapply (concat_NoDup_at _ i); [done|]. by rewrite list_lookup_fmap, Hi.
Qed.

Lemma pieces_head h ps i p xs e x :
  pieces h ps → ps !! i = Some (p, xs, e) → head xs = Some x →
  ∃ c, h !! x = Some c ∧ prev c = p.
Proof. intros Hp Hi Hx. eapply seg_head; [|done]. by eapply pieces_seg. Qed.

Lemma pieces_last h ps i p xs e z :
  pieces h ps → ps !! i = Some (p, xs, e) → last xs = Some z →
  ∃ c, h !! z = Some c ∧ next c = e.
Proof. intros Hp Hi Hx. eapply seg_last; [|done]. by eapply pieces_seg. Qed.

Lemma pieces_update h ps i p xs e x c p' e' :
  pieces h ps → ps !! i = Some (p, xs, e) → x ∈ xs →
  seg (<[x := c]> h) p' xs e' →
  pieces (<[x := c]> h) (<[i := (p', xs, e')]> ps).
Proof.
  intros [Hn Hf] Hi Hx Hs. split.
  - by erewrite nodes_insert.
  - rewrite Forall_lookup in Hf. apply Forall_lookup. intros j [[q ys] f] Hj.
    destruct (decide (i = j)) as [->|Hij].
    + rewrite list_lookup_insert_eq in Hj by (by eapply lookup_lt_Some).
      by simplify_eq.
    + rewrite list_lookup_insert_ne in Hj by done.
      simpl. apply seg_frame; [|apply (Hf _ _ Hj)].
      eapply (concat_disjoint _ i j); [done| | |done|done].
      * by rewrite list_lookup_fmap, Hi.
      * by rewrite list_lookup_fmap, Hj.
Qed.

Lemma pieces_set_prev h ps i p xs e x c v :
  pieces h ps → ps !! i = Some (p, xs, e) → head xs = Some x → h !! x = Some c →
  pieces (<[x := mk_element v (next c)]> h) (<[i := (v, xs, e)]> ps).
Proof.
  intros Hp Hi Hx Hc. destruct (pieces_seg _ _ _ _ _ _ Hp Hi) as [Hs Hnd].
  eapply pieces_update; [done|done| |].
  - by apply head_Some_elem_of.
  - by eapply seg_set_prev.
Qed.

Lemma pieces_set_next h ps i p xs e z c v :
  pieces h ps → ps !! i = Some (p, xs, e) → last xs = Some z → h !! z = Some c →
  pieces (<[z := mk_element (prev c) v]> h) (<[i := (p, xs, v)]> ps).
Proof.
  intros Hp Hi Hx Hc. destruct (pieces_seg _ _ _ _ _ _ Hp Hi) as [Hs Hnd].
  eapply pieces_update; [done|done| |].
  - by apply last_Some_elem_of.
  - by eapply seg_set_next.
Qed.

Lemma pieces_nil h ps i p e p' e' :
  pieces h ps → ps !! i = Some (p, [], e) → pieces h (<[i := (p', [], e')]> ps).
Proof.
  intros [Hn Hf] Hi. split.
  - by erewrite nodes_insert.
  - rewrite Forall_lookup in Hf. apply Forall_lookup. intros j [[q ys] f] Hj.
    destruct (decide (i = j)) as [->|Hij].
    + rewrite list_lookup_insert_eq in Hj by (by eapply lookup_lt_Some).
      by simplify_eq.
    + rewrite list_lookup_insert_ne in Hj by done. apply (Hf _ _ Hj).
Qed.

Lemma elem_of_pieces (ps : list (ptr * list nat * ptr)) i p xs e x :
  ps !! i = Some (p, xs, e) → x ∈ xs → x ∈ mjoin ((λ q, q.1.2) <$> ps).
Proof.
  intros Hi Hx. apply list_elem_of_join. exists xs. split; [done|].
  eapply (list_elem_of_lookup_2 _ i). by rewrite list_lookup_fmap, Hi.
Qed.

Lemma tracked_start h ps : pieces h ps → tracked h h ps.
Proof. by split. Qed.

Lemma tracked_head h0 h ps i p xs e x :
  tracked h0 h ps → ps !! i = Some (p, xs, e) → head xs = Some x →
  ∃ c, h !! x = Some c ∧ prev c = p.
Proof. intros [Hp _]. by eapply pieces_head. Qed.

Lemma tracked_last h0 h ps i p xs e z :
  tracked h0 h ps → ps !! i = Some (p, xs, e) → last xs = Some z →
  ∃ c, h !! z = Some c ∧ next c = e.
Proof. intros [Hp _]. by eapply pieces_last. Qed.

Lemma tracked_set_prev h0 h ps i p xs e x c v :
  tracked h0 h ps → ps !! i = Some (p, xs, e) → head xs = Some x → h !! x = Some c →
  tracked h0 (<[x := mk_element v (next c)]> h) (<[i := (v, xs, e)]> ps).
Proof.
  intros [Hp Ho] Hi Hx Hc. split; [by eapply pieces_set_prev|].
  intros y Hy. erewrite nodes_insert in Hy by done.
  rewrite lookup_insert_ne; [by apply Ho|].
  intros ->. apply Hy. eapply elem_of_pieces; [done|]. by apply head_Some_elem_of.
Qed.

Lemma tracked_set_next h0 h ps i p xs e z c v :
  tracked h0 h ps → ps !! i = Some (p, xs, e) → last xs = Some z → h !! z = Some c →
  tracked h0 (<[z := mk_element (prev c) v]> h) (<[i := (p, xs, v)]> ps).
Proof.
  intros [Hp Ho] Hi Hx Hc. split; [by eapply pieces_set_next|].
  intros y Hy. erewrite nodes_insert in Hy by done.
  rewrite lookup_insert_ne; [by apply Ho|].
  intros ->. apply Hy. eapply elem_of_pieces; [done|]. by apply last_Some_elem_of.
Qed.

Lemma tracked_nil h0 h ps i p e p' e' :
  tracked h0 h ps → ps !! i = Some (p, [], e) →
  tracked h0 h (<[i := (p', [], e')]> ps).
Proof.
  intros [Hp Ho] Hi. split; [by eapply pieces_nil|].
  intros y Hy. erewrite nodes_insert in Hy by done. by apply Ho.
Qed.

(** ** Running the operations over tracked pieces *)

Ltac head_fact := first [reflexivity | eassumption].

Ltac under_bind := repeat apply wp_bind.

(** Read [x->prev], [x] being the first node of piece [i]. *)
Ltac rd_prev_at k :=
  under_bind;
  lazymatch goal with
  | Ht : tracked _ ?h _ |- wp (rd_prev (Some ?xx)) (mk_state ?h _) _ =>
    let c := fresh "c" in let Hc := fresh "Hc" in let Hp := fresh "Hp" in
    edestruct tracked_head with (i := k) (x := xx) as (c & Hc & Hp);
      [exact Ht|reflexivity|head_fact|];
    apply (wp_rd_prev _ _ _ _ _ Hc); rewrite Hp; clear c Hc Hp; cbv beta iota
  end.

(** Read [z->next], [z] being the last node of piece [i]. *)
Ltac rd_next_at k :=
  under_bind;
  lazymatch goal with
  | Ht : tracked _ ?h _ |- wp (rd_next (Some ?zz)) (mk_state ?h _) _ =>
    let c := fresh "c" in let Hc := fresh "Hc" in let Hp := fresh "Hp" in
    edestruct tracked_last with (i := k) (z := zz) as (c & Hc & Hp);
      [exact Ht|reflexivity|head_fact|];
    apply (wp_rd_next _ _ _ _ _ Hc); rewrite Hp; clear c Hc Hp; cbv beta iota
  end.

(** Write [x->prev], [x] being the first node of piece [i]. *)
Ltac wr_prev_at k :=
  under_bind;
  lazymatch goal with
  | Ht : tracked ?hh0 ?h _ |- wp (wr_prev (Some ?xx) ?vv) (mk_state ?h _) _ =>
    let c := fresh "c" in let Hc := fresh "Hc" in let Hp := fresh "Hp" in
    let Ht' := fresh "Ht" in let h' := fresh "h" in
    edestruct tracked_head with (i := k) (x := xx) as (c & Hc & Hp);
      [exact Ht|reflexivity|head_fact|];
    apply (wp_wr_prev _ _ _ _ _ _ Hc);
    eassert (tracked hh0 _ _) as Ht';
    [eapply tracked_set_prev with (i := k) (x := xx) (v := vv);
       [exact Ht|reflexivity|head_fact|exact Hc]|];
    simpl in Ht';
    clear Ht Hc Hp;
    generalize dependent (<[xx := mk_element vv (next c)]> h); clear c;
    intros h' Ht; cbv beta iota
  end.

(** Write [z->next], [z] being the last node of piece [i]. *)
Ltac wr_next_at k :=
  under_bind;
  lazymatch goal with
  | Ht : tracked ?hh0 ?h _ |- wp (wr_next (Some ?zz) ?vv) (mk_state ?h _) _ =>
    let c := fresh "c" in let Hc := fresh "Hc" in let Hp := fresh "Hp" in
    let Ht' := fresh "Ht" in let h' := fresh "h" in
    edestruct tracked_last with (i := k) (z := zz) as (c & Hc & Hp);
      [exact Ht|reflexivity|head_fact|];
    apply (wp_wr_next _ _ _ _ _ _ Hc);
    eassert (tracked hh0 _ _) as Ht';
    [eapply tracked_set_next with (i := k) (z := zz) (v := vv);
       [exact Ht|reflexivity|head_fact|exact Hc]|];
    simpl in Ht';
    clear Ht Hc Hp;
    generalize dependent (<[zz := mk_element (prev c) vv]> h); clear c;
    intros h' Ht; cbv beta iota
  end.

Ltac rd_first_go :=
  under_bind;
  lazymatch goal with
  | |- wp (rd_first ?l) (mk_state _ ?f) _ =>
    eapply wp_rd_first; [by simplify_map_eq|]; cbv beta iota
  end.

Ltac wr_first_go :=
  under_bind;
  lazymatch goal with
  | |- wp (wr_first ?l ?v) (mk_state _ ?f) _ =>
    eapply wp_wr_first; [by simplify_map_eq|]; cbv beta iota
  end.


(** A [Forall] over an explicit list of pieces, one goal per piece. *)
Ltac forall_pieces :=
  repeat lazymatch goal with
  | |- Forall _ (_ :: _) => apply List.Forall_cons
  | |- Forall _ [] => apply List.Forall_nil
  end; simpl.

(** Open a [tracked] fact into its segments. *)
Ltac open_forall Hfa :=
  lazymatch type of Hfa with
  | Forall _ (_ :: _) =>
    let Hs := fresh "Hs" in let Hfa' := fresh "Hfa" in
    pose proof (Forall_inv Hfa) as Hs;
    pose proof (Forall_inv_tail Hfa) as Hfa';
    clear Hfa; simpl in Hs; open_forall Hfa'
  | _ => clear Hfa
  end.

Ltac open_tracked Ht :=
  let Hnd := fresh "Hnd" in let Hfa := fresh "Hfa" in let Ho := fresh "Ho" in
  destruct Ht as [[Hnd Hfa] Ho]; simpl in Hnd, Ho; open_forall Hfa.

Ltac nodup_from Hnd :=
  first
  [ exact Hnd
  | lazymatch goal with
    | |- NoDup ?a =>
      lazymatch type of Hnd with
      | NoDup ?b =>
        let H := fresh in
        assert (a ≡ₚ b) as H by solve_Permutation; rewrite H; exact Hnd
      end
    end ].

(** Replace [head_or]/[last_or] by what the known heads and lasts say. *)
Ltac norm_ends :=
  unfold head_or, last_or in *; simpl in *;
  rewrite ?last_app, ?last_cons; simpl;
  repeat match goal with
  | H : head ?xs = Some _ |- context [head ?xs] => rewrite H
  | H : last ?xs = Some _ |- context [last ?xs] => rewrite H
  | H : head ?xs = Some _, H' : context [head ?xs] |- _ => rewrite H in H'
  | H : last ?xs = Some _, H' : context [last ?xs] |- _ => rewrite H in H'
  end; simpl in *.
Lemma head_app_sentinel (xs : list nat) l : head (xs ++ [l]) = Some (default l (head xs)).
Proof. by destruct xs. Qed.

Lemma head_or_sentinel (xs : list nat) l : head_or xs (Some l) = Some (default l (head xs)).
Proof. by destruct xs. Qed.

Lemma last_is_Some (xs : list nat) x : head xs = Some x → ∃ z, last xs = Some z.
Proof.
  destruct xs as [|y xs]; [done|]. intros _.
  destruct (last (y :: xs)) eqn:E; [eauto|]. by apply last_None in E.
Qed.


(** ** [insert] *)

Lemma insert_spec nil σ l xs1 xs2 elem :
  chain_with nil σ l (xs1 ++ xs2) →
  elem ∉ xs1 ++ xs2 ++ [l] →
  is_Some (links σ !! elem) →
  wp (insert l (head_or xs2 (Some l)) elem) σ (λ r σ',
    r = Some elem ∧
    chain_with nil σ' l (xs1 ++ elem :: xs2) ∧
    (∀ y, y ∉ elem :: xs1 ++ xs2 ++ [l] → links σ' !! y = links σ !! y) ∧
    (∀ l', l' ≠ l → firsts σ' !! l' = firsts σ !! l')).
Proof.
  intros [[Hnd Hs] Hf] Hel [ce Hce]. destruct σ as [h f]. simpl in *.
  rewrite <-(assoc_L (++)) in Hnd, Hs. apply seg_app in Hs as [Hs1 Hs2].
  assert (head (xs2 ++ [l]) = Some (default l (head xs2))) as Hpos by (by destruct xs2).
  assert (head_or xs2 (Some l) = Some (default l (head xs2))) as -> by (by destruct xs2).
  unfold head_or in Hs1. rewrite Hpos in Hs1.
  set (pos := default l (head xs2)) in *. clearbody pos.
  assert (tracked h h [(None, xs1, Some pos);
                       (last_or None xs1, xs2 ++ [l], None);
                       (prev ce, [elem], next ce)]) as Ht.
  { apply tracked_start. split.
    - simpl. rewrite !(assoc_L (++)).
      apply NoDup_app. split; [by rewrite <-(assoc_L (++))|].
      split; [|apply NoDup_singleton].
      intros y Hy ->%list_elem_of_singleton. apply Hel.
      by rewrite <-!(assoc_L (++)) in Hy.
    - repeat constructor; simpl; [done|done|]. by destruct ce. }
  clear Hce. unfold insert. unfold last_or in Ht.
  destruct (last xs1) as [b|] eqn:Hb.
  - rd_prev_at 1. wr_next_at 0. rd_prev_at 1. wr_prev_at 2. wr_prev_at 1.
    wr_next_at 2. apply wp_ret. open_tracked Ht.
    split; [done|]. split; [split; [split|]|split].
    + nodup_from Hnd0.
    + rewrite <-(assoc_L (++)). simpl. rewrite (seg_app _ _ xs1). simpl.
      norm_ends. naive_solver.
    + simpl. rewrite Hf. by destruct xs1.
    + simpl. intros y Hy. apply Ho. set_solver.
    + done.
  - apply last_None in Hb as ->.
    rd_prev_at 1. wr_first_go. rd_prev_at 1. wr_prev_at 2. wr_prev_at 1.
    wr_next_at 2. apply wp_ret. open_tracked Ht.
    split; [done|]. split; [split; [split|]|split].
    + nodup_from Hnd0.
    + simpl. split; [|done]. rewrite (head_or_Some _ pos) by done.
      simpl in Hs1. tauto.
    + simpl. by rewrite lookup_insert_eq.
    + simpl. intros y Hy. apply Ho. set_solver.
    + simpl. intros l' Hl. by rewrite lookup_insert_ne.
Qed.

(** ** [erase] *)

Lemma erase_spec nil σ l xs1 x xs2 :
  chain_with nil σ l (xs1 ++ x :: xs2) →
  wp (erase l (Some x)) σ (λ r σ',
    r = Some (default l (head xs2)) ∧
    linked (links σ') l (xs1 ++ xs2) ∧
    firsts σ' !! l = Some (Some (default l (head (xs1 ++ xs2)))) ∧
    links σ' !! x = links σ !! x ∧
    (∀ y, y ∉ xs1 ++ xs2 ++ [l] → links σ' !! y = links σ !! y) ∧
    (∀ l', l' ≠ l → firsts σ' !! l' = firsts σ !! l')).
Proof.
  intros [[Hnd Hs] Hf]. destruct σ as [h f]. simpl in *.
  rewrite <-(assoc_L (++)) in Hnd, Hs. simpl in Hnd, Hs.
  apply seg_app in Hs as [Hs1 Hs2]. simpl in Hs1, Hs2. destruct Hs2 as [Hx Hs2].
  assert (head (xs2 ++ [l]) = Some (default l (head xs2))) as Hn by (by destruct xs2).
  assert (x ≠ l) as Hxl.
  { intros ->. apply NoDup_app in Hnd as (_ & _ & Hnd).
    apply NoDup_cons in Hnd as [Hnd _]. apply Hnd. set_solver. }
  set (n := default l (head xs2)) in *.
  assert (tracked h h [(None, xs1, Some x);
                       (last_or None xs1, [x], Some n);
                       (Some x, xs2 ++ [l], None)]) as Ht.
  { apply tracked_start. split.
    - simpl. by rewrite app_nil_r.
    - repeat constructor; simpl; [done| |done].
      rewrite Hx. unfold head_or. by rewrite Hn. }
  assert (h !! x = Some (mk_element (last_or None xs1) (Some n))) as Hx'.
  { rewrite Hx. unfold head_or. by rewrite Hn. }
  clear Hs1 Hs2 Hx. unfold erase, iter_eq, end_.
  rewrite bool_decide_eq_false_2 by congruence. simpl negb. cbv iota.
  unfold last_or in Ht, Hx'.
  destruct (last xs1) as [b|] eqn:Hb.
  - rd_next_at 1. rd_prev_at 1. wr_prev_at 2.  rd_prev_at 1. rd_next_at 1.
    wr_next_at 0. rd_next_at 1.
    open_tracked Ht. destruct Hs0 as [Hs0 _].
    split; [done|]. split; [split|split; [|split; [|split]]].
    + apply NoDup_app in Hnd as (? & ? & [? ?]%NoDup_cons).
      rewrite <-(assoc_L (++)). apply NoDup_app. set_solver.
    + rewrite <-(assoc_L (++)), seg_app. norm_ends. naive_solver.
    + simpl. rewrite Hf. by destruct xs1.
    + simpl. by rewrite Hs0, Hx'.
    + simpl. intros y Hy. destruct (decide (y = x)) as [->|]; [by rewrite Hs0, Hx'|].
      apply Ho. set_solver.
    + done.
  - apply last_None in Hb as ->.
    rd_next_at 1. rd_prev_at 1. wr_prev_at 2. rd_prev_at 1. rd_next_at 1.
    wr_first_go. rd_next_at 1.
    open_tracked Ht. destruct Hs0 as [Hs0 _].
    split; [done|]. split; [split|split; [|split; [|split]]].
    + simpl in *. by apply NoDup_cons in Hnd as [? ?].
    + done.
    + simpl. rewrite lookup_insert_eq. by destruct xs2.
    + simpl. by rewrite Hs0, Hx'.
    + simpl. intros y Hy. destruct (decide (y = x)) as [->|]; [by rewrite Hs0, Hx'|].
      apply Ho. set_solver.
    + simpl. intros l' Hl. by rewrite lookup_insert_ne.
Qed.
(** ** [splice] *)

Lemma splice_other nil σ l donor r1 r2 d1 mid d2 from :
  chain_with nil σ l (r1 ++ r2) →
  chain_with nil σ donor (d1 ++ mid ++ d2) →
  NoDup ((r1 ++ r2 ++ [l]) ++ d1 ++ mid ++ d2 ++ [donor]) →
  head mid = Some from →
  wp (splice_with nil l (head_or r2 (Some l)) donor (Some from)
        (head_or d2 (Some donor))) σ (λ _ σ',
    chain_with nil σ' l (r1 ++ mid ++ r2) ∧
    chain_with nil σ' donor (d1 ++ d2) ∧
    (∀ y, y ∉ (r1 ++ r2 ++ [l]) ++ d1 ++ mid ++ d2 ++ [donor] →
          links σ' !! y = links σ !! y) ∧
    (∀ l', l' ≠ l → l' ≠ donor → firsts σ' !! l' = firsts σ !! l')).
Proof.
  intros [[_ Hsl] Hfl] [[_ Hsd] Hfd] Hnd Hfrom. destruct σ as [h f]. simpl in *.
  rewrite <-(assoc_L (++)) in Hsl. apply seg_app in Hsl as [Hs0 Hs1].
  rewrite <-!(assoc_L (++)) in Hsd.
  apply seg_app in Hsd as [Hs2 Hsd]. apply seg_app in Hsd as [Hs3 Hs4].
  destruct (last mid) as [lm|] eqn:Hlm;
    [|apply last_None in Hlm; by subst mid].
  rewrite (last_or_Some mid lm) in Hs4 by done.
  rewrite !head_or_sentinel.
  pose proof (head_app_sentinel r2 l) as Hpos.
  pose proof (head_app_sentinel d2 donor) as Hto.
  set (pos := default l (head r2)) in *. set (to := default donor (head d2)) in *.
  assert (from ≠ to) as Hft. 
  { apply head_Some_elem_of in Hfrom, Hto. intros E. rewrite <-E in Hto. clear E.
    revert Hnd Hfrom Hto. rewrite !NoDup_app. set_solver. }
  assert (l ≠ donor) as Hld.
  { intros ->. revert Hnd. rewrite !NoDup_app. set_solver. }
  assert (tracked h h [(None, r1, Some pos); (last_or None r1, r2 ++ [l], None);
                       (None, d1, Some from); (last_or None d1, mid, Some to);
                       (Some lm, d2 ++ [donor], None)]) as Ht.
  { apply tracked_start. split.
    - simpl. rewrite app_nil_r. nodup_from Hnd.
    - rewrite head_or_app in Hs2.
      rewrite (head_or_Some _ pos) in Hs0 by done.
      rewrite (head_or_Some _ from) in Hs2 by done.
      rewrite (head_or_Some _ to) in Hs3 by done.
      by repeat constructor. }
  clear Hs0 Hs1 Hs2 Hs3 Hs4.
  unfold splice_with, iter_eq, end_.
  rewrite (bool_decide_eq_false_2 (Some from = Some to)) by congruence. cbv iota.
  assert (∀ h', tracked h h' [(None, r1, Some from); (Some lm, r2 ++ [l], None);
              (None, d1, Some to); (last_or None r1, mid, Some pos);
              (last_or None d1, d2 ++ [donor], None)] →
     linked h' l (r1 ++ mid ++ r2) ∧ linked h' donor (d1 ++ d2) ∧
     (∀ y, y ∉ (r1 ++ r2 ++ [l]) ++ d1 ++ mid ++ d2 ++ [donor] → h' !! y = h !! y))
    as Hfin.
  { intros h' Ht'. open_tracked Ht'. split; [split|split; [split|]].
    - revert Hnd. rewrite <-!(assoc_L (++)), !NoDup_app. set_solver.
    - rewrite <-!(assoc_L (++)), (seg_app _ _ r1), (seg_app _ _ mid), head_or_app.
      rewrite (head_or_Some mid from), (head_or_Some (r2 ++ [l]) pos),
        (last_or_Some mid lm) by done. done.
    - revert Hnd. rewrite <-!(assoc_L (++)), !NoDup_app. set_solver.
    - rewrite <-!(assoc_L (++)), (seg_app _ _ d1).
      by rewrite (head_or_Some (d2 ++ [donor]) to) by done.
    - intros y Hy. apply Ho. set_solver. }
  unfold last_or in Ht, Hfin.
  destruct (last d1) as [a|] eqn:Ha; destruct (last r1) as [b|] eqn:Hb.
  - rd_prev_at 3. wr_next_at 2. rd_prev_at 1. wr_next_at 0.
    rd_prev_at 1. rd_prev_at 4. wr_prev_at 1. rd_prev_at 4. wr_next_at 3.
    rd_prev_at 3. wr_prev_at 4. wr_prev_at 3.
    destruct (Hfin _ Ht) as (Hl1 & Hl2 & Hfr).
    split; [split; [done|]|split; [split; [done|]|split; [done|]]]; simpl.
    + rewrite Hfl. by destruct r1.
    + rewrite Hfd. by destruct d1.
    + done.
  - apply last_None in Hb as ->.
    rd_prev_at 3. wr_next_at 2. rd_prev_at 1. wr_first_go.
    rd_prev_at 1. rd_prev_at 4. wr_prev_at 1. rd_prev_at 4. wr_next_at 3.
    rd_prev_at 3. wr_prev_at 4. wr_prev_at 3.
    eapply (tracked_nil _ _ _ 0 _ _ None (Some from)) in Ht; [|reflexivity].
    destruct (Hfin _ Ht) as (Hl1 & Hl2 & Hfr).
    split; [split; [done|]|split; [split; [done|]|split; [done|]]]; simpl.
    + rewrite lookup_insert_eq. by destruct mid; simplify_eq/=.
    + rewrite lookup_insert_ne by done. rewrite Hfd. by destruct d1.
    + intros l' ??. by rewrite lookup_insert_ne.
  - apply last_None in Ha as ->.
    rd_prev_at 3.
    assert (wp (if negb (bool_decide (Some to = Some donor))
                then wr_first donor (Some to) else wr_first donor (nil donor))
              (mk_state h f)
              (λ _ σ', links σ' = h ∧
                 firsts σ' = <[donor := match d2 with [] => nil donor | x :: _ => Some x end]> f)) as Hw.
    { destruct d2 as [|t d2]; simpl in *.
      - rewrite bool_decide_eq_true_2 by done. simpl. by wr_first_go.
      - rewrite bool_decide_eq_false_2; [simpl; by wr_first_go|].
        intros [= ->]. revert Hnd. rewrite !NoDup_app, !NoDup_cons. set_solver. }
    apply wp_bind. eapply wp_mono; [exact Hw|]. clear Hw.
    intros [] [h' f'] [Hh Hf]. simpl in Hh, Hf. subst h' f'.
    rd_prev_at 1. wr_next_at 0.
    rd_prev_at 1. rd_prev_at 4. wr_prev_at 1. rd_prev_at 4. wr_next_at 3.
    rd_prev_at 3. wr_prev_at 4. wr_prev_at 3.
    eapply (tracked_nil _ _ _ 2 _ _ None (Some to)) in Ht; [|reflexivity].
    destruct (Hfin _ Ht) as (Hl1 & Hl2 & Hfr).
    split; [split; [done|]|split; [split; [done|]|split; [done|]]]; simpl.
    + rewrite lookup_insert_ne by done. rewrite Hfl. by destruct r1.
    + by rewrite lookup_insert_eq.
    + intros l' ??. by rewrite lookup_insert_ne.
  - apply last_None in Ha as ->. apply last_None in Hb as ->.
    rd_prev_at 3.
    assert (wp (if negb (bool_decide (Some to = Some donor))
                then wr_first donor (Some to) else wr_first donor (nil donor))
              (mk_state h f)
              (λ _ σ', links σ' = h ∧
                 firsts σ' = <[donor := match d2 with [] => nil donor | x :: _ => Some x end]> f)) as Hw.
    { destruct d2 as [|t d2]; simpl in *.
      - rewrite bool_decide_eq_true_2 by done. simpl. by wr_first_go.
      - rewrite bool_decide_eq_false_2; [simpl; by wr_first_go|].
        intros [= ->]. revert Hnd. rewrite !NoDup_app, !NoDup_cons. set_solver. }
    apply wp_bind. eapply wp_mono; [exact Hw|]. clear Hw.
    intros [] [h' f'] [Hh Hf]. simpl in Hh, Hf. subst h' f'.
    rd_prev_at 1. wr_first_go.
    rd_prev_at 1. rd_prev_at 4. wr_prev_at 1. rd_prev_at 4. wr_next_at 3.
    rd_prev_at 3. wr_prev_at 4. wr_prev_at 3.
    eapply (tracked_nil _ _ _ 2 _ _ None (Some to)) in Ht; [|reflexivity].
    eapply (tracked_nil _ _ _ 0 _ _ None (Some from)) in Ht; [|reflexivity].
    destruct (Hfin _ Ht) as (Hl1 & Hl2 & Hfr).
    split; [split; [done|]|split; [split; [done|]|split; [done|]]]; simpl.
    + rewrite lookup_insert_eq. by destruct mid; simplify_eq/=.
    + rewrite lookup_insert_ne by done. by rewrite lookup_insert_eq.
    + intros l' ??. by rewrite !lookup_insert_ne.
Qed.


Lemma splice_self_fwd nil σ l a mid b c from to :
  chain_with nil σ l (a ++ mid ++ b ++ c) →
  head mid = Some from → head b = Some to →
  wp (splice_with nil l (head_or c (Some l)) l (Some from) (Some to)) σ (λ _ σ',
    chain_with nil σ' l (a ++ b ++ mid ++ c) ∧
    (∀ y, y ∉ a ++ mid ++ b ++ c ++ [l] → links σ' !! y = links σ !! y) ∧
    (∀ l', l' ≠ l → firsts σ' !! l' = firsts σ !! l')).
Proof.
  intros [[Hnd Hs] Hf] Hfrom Hto. destruct σ as [h f]. simpl in *.
  rewrite <-!(assoc_L (++)) in Hs, Hnd.
  apply seg_app in Hs as [Hs0 Hs]. apply seg_app in Hs as [Hs1 Hs].
  apply seg_app in Hs as [Hs2 Hs3].
  destruct (last_is_Some _ _ Hto) as [lb Hlb].
  destruct (last_is_Some _ _ Hfrom) as [lm Hlm].
  rewrite head_or_sentinel.
  pose proof (head_app_sentinel c l) as Hpos.
  set (pos := default l (head c)) in *.
  rewrite head_or_app, (head_or_Some mid from) in Hs0 by done.
  rewrite head_or_app, (head_or_Some b to) in Hs1 by done.
  rewrite (head_or_Some (c ++ [l]) pos) in Hs2 by done.
  rewrite (last_or_Some mid lm) in Hs2, Hs3 by done.
  rewrite (last_or_Some b lb) in Hs3 by done.
  assert (from ≠ to) as Hft.
  { apply head_Some_elem_of in Hfrom, Hto. intros E. rewrite <-E in Hto. clear E.
    revert Hnd Hfrom Hto. rewrite !NoDup_app. set_solver. }
  assert (to ≠ l) as Htl.
  { apply head_Some_elem_of in Hto. intros E. rewrite E in Hto. clear E.
    revert Hnd Hto. rewrite !NoDup_app. set_solver. }
  assert (tracked h h [(None, a, Some from); (last_or None a, mid, Some to);
                       (Some lm, b, Some pos); (Some lb, c ++ [l], None)]) as Ht.
  { apply tracked_start. split.
    - simpl. rewrite ?app_nil_r. nodup_from Hnd.
    - by repeat constructor. }
  clear Hs0 Hs1 Hs2 Hs3.
  assert (∀ h', tracked h h' [(None, a, Some to); (Some lb, mid, Some pos);
              (last_or None a, b, Some from); (Some lm, c ++ [l], None)] →
     linked h' l (a ++ b ++ mid ++ c) ∧
     (∀ y, y ∉ a ++ mid ++ b ++ c ++ [l] → h' !! y = h !! y))
    as Hfin.
  { intros h' Ht'. open_tracked Ht'. split; [split|].
    - revert Hnd. rewrite <-!(assoc_L (++)), !NoDup_app. set_solver.
    - rewrite <-!(assoc_L (++)), (seg_app _ _ a), (seg_app _ _ b), (seg_app _ _ mid),
        (head_or_app mid), (head_or_app b).
      rewrite (head_or_Some mid from), (head_or_Some b to),
        (head_or_Some (c ++ [l]) pos), (last_or_Some mid lm), (last_or_Some b lb) by done.
      done.
    - intros y Hy. apply Ho. set_solver. }
  unfold splice_with, iter_eq, end_.
  rewrite (bool_decide_eq_false_2 (Some from = Some to)) by congruence. cbv iota.
  unfold last_or in Ht, Hfin.
  destruct (last a) as [la|] eqn:Ha.
  - rd_prev_at 1. wr_next_at 0. rd_prev_at 3. wr_next_at 2.
    rd_prev_at 3. rd_prev_at 2. wr_prev_at 3. rd_prev_at 2. wr_next_at 1.
    rd_prev_at 1. wr_prev_at 2. wr_prev_at 1.
    destruct (Hfin _ Ht) as (Hl1 & Hfr).
    split; [split; [done|]|split; [done|]]; simpl.
    + rewrite Hf. by destruct a.
    + done.
  - apply last_None in Ha as ->.
    rd_prev_at 1.
    rewrite (bool_decide_eq_false_2 (Some to = Some l)) by congruence. simpl negb. cbv iota.
    wr_first_go. rd_prev_at 3. wr_next_at 2.
    rd_prev_at 3. rd_prev_at 2. wr_prev_at 3. rd_prev_at 2. wr_next_at 1.
    rd_prev_at 1. wr_prev_at 2. wr_prev_at 1.
    eapply (tracked_nil _ _ _ 0 _ _ None (Some to)) in Ht; [|reflexivity].
    destruct (Hfin _ Ht) as (Hl1 & Hfr).
    split; [split; [done|]|split; [done|]]; simpl.
    + rewrite lookup_insert_eq. by destruct b; simplify_eq/=.
    + intros l' ?. by rewrite lookup_insert_ne.
Qed.

(** ** What a client observes on a well-formed chain *)

Lemma head_or_None (xs : list nat) : head_or xs None = head xs.
Proof. unfold head_or. by destruct (head xs). Qed.

Lemma traverse_seg incr h f p xs l fuel :
  (∀ x, incr (Some x) = rd_next (Some x)) →
  NoDup (xs ++ [l]) → seg h p (xs ++ [l]) None → length xs < fuel →
  traverse incr fuel (Some l) (head (xs ++ [l])) (mk_state h f) =
    Some (xs, mk_state h f).
Proof.
  intros Hincr. revert p fuel. induction xs as [|x xs IH]; intros p fuel Hnd Hs Hlt.
  - destruct fuel as [|fuel]; [simpl in Hlt; lia|]. simpl.
    unfold iter_eq. by rewrite bool_decide_eq_true_2.
  - destruct fuel as [|fuel]; [simpl in Hlt; lia|]. simpl in *.
    destruct Hs as [Hx Hs]. apply NoDup_cons in Hnd as [Hxn Hnd].
    rewrite head_or_None in Hx.
    unfold iter_eq. rewrite bool_decide_eq_false_2; [|intros [= ->]; set_solver].
    rewrite Hincr. unfold mbind, M_bind, mret, M_ret.
    rewrite (rd_next_run _ _ _ _ Hx). simpl.
    rewrite (IH (Some x) fuel) by (done || lia). done.
Qed.

Lemma linked_lookup_sentinel h l xs :
  linked h l xs → h !! l = Some (mk_element (last xs) None).
Proof.
  intros [_ Hs]. apply seg_app in Hs as [_ Hs]. simpl in Hs. destruct Hs as [Hs _].
  rewrite Hs. unfold last_or, head_or. simpl. by destruct (last xs).
Qed.

Lemma linked_lookup_head h l x xs :
  linked h l (x :: xs) → h !! x = Some (mk_element None (Some (default l (head xs)))).
Proof.
  intros [_ [Hs _]]. rewrite Hs, head_or_None. by destruct xs.
Qed.

(** intrusive_list.h *)

Lemma begin_h_run h f l (v : option nat) :
  f !! l = Some v →
  intrusive_list_h.begin l (mk_state h f) =
    Some (match v with None => Some l | Some _ => v end, mk_state h f).
Proof.
  intros Hf. unfold intrusive_list_h.begin.
  rewrite bind_eq, (rd_first_run _ _ _ _ Hf). by destruct v.
Qed.

Lemma chain_h_begin σ l xs :
  chain_h σ l xs → intrusive_list_h.begin l σ = Some (head (xs ++ [l]), σ).
Proof.
  intros [_ Hf]. destruct σ as [h f]. simpl in *.
  rewrite (begin_h_run _ _ _ _ Hf). by destruct xs.
Qed.

Lemma to_list_h_linked σ l xs fuel :
  linked (links σ) l xs →
  firsts σ !! l = Some (Some (default l (head xs))) →
  length xs < fuel →
  to_list_h fuel l σ = Some (xs, σ).
Proof.
  intros [Hnd Hs] Hf Hlt. destruct σ as [h f]. simpl in *. unfold to_list_h.
  rewrite bind_eq, (begin_h_run _ _ _ _ Hf).
  replace (Some (default l (head xs))) with (head (xs ++ [l])) by (by destruct xs).
  by eapply traverse_seg.
Qed.

Lemma chain_h_to_list σ l xs fuel :
  chain_h σ l xs → length xs < fuel → to_list_h fuel l σ = Some (xs, σ).
Proof.
  intros [[Hnd Hs] Hf] Hlt. destruct σ as [h f]. simpl in *. unfold to_list_h.
  rewrite bind_eq, (begin_h_run _ _ _ _ Hf).
  replace (match match xs with [] => None | x :: _ => Some x end with
           | Some _ => match xs with [] => None | x :: _ => Some x end
           | None => Some l end) with (head (xs ++ [l])) by (by destruct xs).
  by eapply traverse_seg.
Qed.

Lemma chain_h_empty σ l xs :
  chain_h σ l xs →
  intrusive_list_h.empty l σ = Some (bool_decide (xs = []), σ).
Proof.
  intros [_ Hf]. destruct σ as [h f]. simpl in *. unfold intrusive_list_h.empty.
  rewrite bind_eq, (rd_first_run _ _ _ _ Hf). by destruct xs.
Qed.

(** part_000 *)

Lemma chain_p_begin σ l xs :
  chain_p σ l xs → part_000.begin l σ = Some (head (xs ++ [l]), σ).
Proof.
  intros [_ Hf]. destruct σ as [h f]. simpl in *. unfold part_000.begin.
  rewrite (rd_first_run _ _ _ _ Hf). by destruct xs.
Qed.

Lemma chain_p_to_list σ l xs fuel :
  chain_p σ l xs → length xs < fuel → to_list_p fuel l σ = Some (xs, σ).
Proof.
  intros Hc Hlt. unfold to_list_p. rewrite bind_eq, (chain_p_begin _ _ _ Hc).
  destruct Hc as [[Hnd Hs] _]. destruct σ as [h f]. by eapply traverse_seg.
Qed.

Lemma chain_p_empty σ l xs :
  chain_p σ l xs → part_000.empty l σ = Some (bool_decide (xs = []), σ).
Proof.
  intros [[Hnd _] Hf]. destruct σ as [h f]. simpl in *. unfold part_000.empty.
  rewrite bind_eq, (rd_first_run _ _ _ _ Hf). destruct xs as [|x xs]; simpl.
  - by rewrite !bool_decide_eq_true_2.
  - rewrite (bool_decide_eq_false_2 (Some x = Some l)); [done|].
    intros [= ->]. apply NoDup_cons in Hnd as [Hn _]. set_solver.
Qed.

(** Both files: [front()] and [back()] of a non-empty chain. *)
Lemma chain_front nil σ l x xs :
  chain_with nil σ l (x :: xs) → front l σ = Some (x, σ).
Proof.
  intros [_ Hf]. destruct σ as [h f]. simpl in *. unfold front.
  by rewrite bind_eq, (rd_first_run _ _ _ _ Hf).
Qed.

Lemma chain_back nil σ l xs z :
  chain_with nil σ l xs → last xs = Some z → back l σ = Some (z, σ).
Proof.
  intros [Hl _] Hz. destruct σ as [h f]. simpl in *. unfold back.
  rewrite bind_eq, (rd_prev_run _ _ _ _ (linked_lookup_sentinel _ _ _ Hl)).
  simpl. by rewrite Hz.
Qed.

(** ** The operations of part_000 on well-formed chains *)

Lemma wp_eq {A} (m : M A) σ a σ' (Q : A → state → Prop) :
  m σ = Some (a, σ') → Q a σ' → wp m σ Q.
Proof. intros Hm HQ. by exists a, σ'. Qed.

Lemma erase_p σ l xs1 x xs2 :
  chain_p σ l (xs1 ++ x :: xs2) →
  wp (erase l (Some x)) σ (λ r σ',
    r = Some (default l (head xs2)) ∧
    chain_p σ' l (xs1 ++ xs2) ∧
    links σ' !! x = links σ !! x ∧
    (∀ y, y ∉ xs1 ++ xs2 ++ [l] → links σ' !! y = links σ !! y) ∧
    (∀ l', l' ≠ l → firsts σ' !! l' = firsts σ !! l')).
Proof.
  intros Hc. eapply wp_mono; [by apply (erase_spec (λ l, Some l))|].
  intros r σ' (Hr & Hl & Hf & Hx & Ho & Hfo).
  split; [done|]. split; [|done]. split; [done|].
  rewrite Hf. by destruct (xs1 ++ xs2).
Qed.

Lemma push_back_p σ l xs elem :
  chain_p σ l xs → elem ∉ xs ++ [l] → is_Some (links σ !! elem) →
  wp (part_000.push_back l elem) σ (λ _ σ',
    chain_p σ' l (xs ++ [elem]) ∧
    (∀ y, y ∉ elem :: xs ++ [l] → links σ' !! y = links σ !! y) ∧
    (∀ l', l' ≠ l → firsts σ' !! l' = firsts σ !! l')).
Proof.
  intros Hc Hel He. unfold part_000.push_back. apply wp_bind.
  eapply wp_mono.
  - apply (insert_spec (λ l, Some l) σ l xs [] elem); [by rewrite app_nil_r|done|done].
  - intros r σ' (_ & Hc' & Ho & Hf). apply wp_ret. split; [done|]. split; [|done].
    intros y Hy. by apply Ho.
Qed.

Lemma push_front_p σ l xs elem :
  chain_p σ l xs → elem ∉ xs ++ [l] → is_Some (links σ !! elem) →
  wp (part_000.push_front l elem) σ (λ _ σ',
    chain_p σ' l (elem :: xs) ∧
    (∀ y, y ∉ elem :: xs ++ [l] → links σ' !! y = links σ !! y) ∧
    (∀ l', l' ≠ l → firsts σ' !! l' = firsts σ !! l')).
Proof.
  intros Hc Hel He. unfold part_000.push_front. apply wp_bind.
  eapply wp_eq; [by apply chain_p_begin|]. apply wp_bind.
  rewrite head_app_sentinel, <-head_or_sentinel.
  eapply wp_mono.
  - by apply (insert_spec (λ l, Some l) σ l [] xs elem).
  - intros r σ' (_ & Hc' & Ho & Hf). by apply wp_ret.
Qed.

Lemma pop_back_p σ l xs z :
  chain_p σ l (xs ++ [z]) →
  wp (part_000.pop_back l) σ (λ _ σ',
    chain_p σ' l xs ∧
    links σ' !! z = links σ !! z ∧
    (∀ y, y ∉ xs ++ [l] → links σ' !! y = links σ !! y) ∧
    (∀ l', l' ≠ l → firsts σ' !! l' = firsts σ !! l')).
Proof.
  intros Hc. unfold part_000.pop_back. apply wp_bind.
  destruct σ as [h f].
  eapply wp_rd_prev; [apply (linked_lookup_sentinel _ _ _ (proj1 Hc))|].
  simpl. rewrite last_snoc. apply wp_bind. eapply wp_mono; [by apply erase_p|].
  intros r σ' (_ & Hc' & Hx & Ho & Hf). apply wp_ret.
  rewrite app_nil_r in Hc'. repeat split; try done; apply Hc'.
Qed.

Lemma pop_front_p σ l x xs :
  chain_p σ l (x :: xs) →
  wp (part_000.pop_front l) σ (λ _ σ',
    chain_p σ' l xs ∧
    links σ' !! x = links σ !! x ∧
    (∀ y, y ∉ xs ++ [l] → links σ' !! y = links σ !! y) ∧
    (∀ l', l' ≠ l → firsts σ' !! l' = firsts σ !! l')).
Proof.
  intros Hc. unfold part_000.pop_front. apply wp_bind.
  eapply wp_eq; [by apply chain_p_begin|]. simpl. apply wp_bind.
  eapply wp_mono; [by apply (erase_p σ l [] x xs)|].
  intros r σ' (_ & Hc' & Hx & Ho & Hf). by apply wp_ret.
Qed.

Lemma splice_whole_p σ l donor r1 r2 ys :
  chain_p σ l (r1 ++ r2) → chain_p σ donor ys → ys ≠ [] →
  NoDup ((r1 ++ r2 ++ [l]) ++ ys ++ [donor]) →
  wp (b ← part_000.begin donor;
      part_000.splice l (head_or r2 (Some l)) donor b (end_ donor)) σ (λ _ σ',
    chain_p σ' l (r1 ++ ys ++ r2) ∧ chain_p σ' donor [] ∧
    (∀ y, y ∉ (r1 ++ r2 ++ [l]) ++ ys ++ [donor] → links σ' !! y = links σ !! y) ∧
    (∀ l', l' ≠ l → l' ≠ donor → firsts σ' !! l' = firsts σ !! l')).
Proof.
  intros Hl Hd Hne Hnd. apply wp_bind. eapply wp_eq; [by apply chain_p_begin|].
  destruct ys as [|y ys]; [done|]. simpl.
  eapply wp_mono.
  - apply (splice_other (λ l, Some l) σ l donor r1 r2 [] (y :: ys) [] y);
      simpl; rewrite ?app_nil_r; done.
  - intros [] σ' (H1 & H2 & H3 & H4). split; [done|]. split; [done|].
    split; [|done]. intros z Hz. by apply H3.
Qed.

Lemma clear_p_run h f l c (v : option nat) :
  h !! l = Some c → f !! l = Some v →
  part_000.clear l (mk_state h f) =
    Some (tt, mk_state (<[l := mk_element None (next c)]> h) (<[l := Some l]> f)).
Proof.
  intros Hc Hf. unfold part_000.clear.
  rewrite bind_eq, (wr_first_run _ _ _ _ _ Hf). by rewrite (wr_prev_run _ _ _ _ _ Hc).
Qed.

Lemma chain_with_frame nil σ σ' l xs :
  chain_with nil σ l xs →
  (∀ y, y ∈ xs ++ [l] → links σ' !! y = links σ !! y) →
  firsts σ' !! l = firsts σ !! l →
  chain_with nil σ' l xs.
Proof.
  intros [[Hnd Hs] Hf] Hl Hfl. split; [split; [done|]|by rewrite Hfl].
  by eapply seg_ext.
Qed.

Lemma chain_p_nil h f l :
  h !! l = Some (mk_element None None) → f !! l = Some (Some l) →
  chain_p (mk_state h f) l [].
Proof.
  intros Hh Hf. split; [split|done]; simpl.
  - apply NoDup_singleton.
  - done.
Qed.

Lemma list_object_lookup σ l :
  list_object σ l →
  ∃ p v, links σ !! l = Some (mk_element p None) ∧ firsts σ !! l = Some v.
Proof.
  intros [Hn [v Hv]]. destruct (links σ !! l) as [[p n]|]; simplify_eq/=.
  by exists p, v.
Qed.

Lemma move_into_empty_p σ l other xs :
  chain_p σ l [] → chain_p σ other xs → l ∉ xs ++ [other] →
  wp (b ← part_000.begin l;
      ob ← part_000.begin other;
      part_000.splice l b other ob (end_ other)) σ (λ _ σ',
    chain_p σ' l xs ∧ chain_p σ' other [] ∧
    (∀ y, y ∉ l :: xs ++ [other] → links σ' !! y = links σ !! y) ∧
    (∀ l', l' ≠ l → l' ≠ other → firsts σ' !! l' = firsts σ !! l')).
Proof.
  intros Hl Ho Hlo. apply wp_bind. eapply wp_eq; [by apply chain_p_begin|]. simpl.
  destruct (decide (xs = [])) as [->|Hne].
  - apply wp_bind. eapply wp_eq; [by apply chain_p_begin|]. simpl.
    unfold part_000.splice, splice_with, iter_eq, end_.
    rewrite bool_decide_eq_true_2 by done. by apply wp_ret.
  - eapply wp_mono; [apply (splice_whole_p σ l other [] [] xs); try done|].
    + simpl. apply NoDup_cons. split; [done|]. apply Ho.
    + intros [] σ' (H1 & H2 & H3 & H4). rewrite app_nil_r in H1. done.
Qed.

Lemma move_assign_p σ l other xs :
  chain_p σ other xs → l ∉ xs ++ [other] → list_object σ l →
  wp (part_000.move_assign l other) σ (λ _ σ',
    chain_p σ' l xs ∧ chain_p σ' other [] ∧
    (∀ y, y ∉ l :: xs ++ [other] → links σ' !! y = links σ !! y) ∧
    (∀ l', l' ≠ l → l' ≠ other → firsts σ' !! l' = firsts σ !! l')).
Proof.
  intros Ho Hl (p & v & Hc & Hv)%list_object_lookup. destruct σ as [h f]. simpl in *.
  unfold part_000.move_assign. apply wp_bind.
  eapply wp_eq; [by eapply clear_p_run|]. simpl.
  set (σ1 := mk_state _ _).
  assert (l ≠ other) as Hlo by set_solver.
  assert (chain_p σ1 l []) as Hl1.
  { apply chain_p_nil; by rewrite lookup_insert_eq. }
  assert (chain_p σ1 other xs) as Ho1.
  { eapply chain_with_frame; [exact Ho| |]; simpl.
    - intros y Hy. rewrite lookup_insert_ne; [done|]. intros ->. done.
    - by rewrite lookup_insert_ne. }
  eapply wp_mono; [by apply move_into_empty_p|].
  intros [] σ' (H1 & H2 & H3 & H4).
  split; [done|]. split; [done|]. split.
  - intros y Hy. rewrite H3 by done. simpl.
    rewrite lookup_insert_ne; [done|]. set_solver.
  - intros l' ??. rewrite H4 by done. simpl. by rewrite lookup_insert_ne.
Qed.

Lemma move_construct_p σ l other xs :
  chain_p σ other xs → l ∉ xs ++ [other] →
  wp (part_000.move_construct l other) σ (λ _ σ',
    chain_p σ' l xs ∧ chain_p σ' other [] ∧
    (∀ y, y ∉ l :: xs ++ [other] → links σ' !! y = links σ !! y) ∧
    (∀ l', l' ≠ l → l' ≠ other → firsts σ' !! l' = firsts σ !! l')).
Proof.
  intros Ho Hl. destruct σ as [h f]. simpl in *.
  unfold part_000.move_construct. apply wp_bind.
  eapply wp_eq; [reflexivity|]. simpl.
  set (σ1 := mk_state _ _).
  assert (l ≠ other) as Hlo by set_solver.
  assert (chain_p σ1 l []) as Hl1.
  { apply chain_p_nil; by rewrite lookup_insert_eq. }
  assert (chain_p σ1 other xs) as Ho1.
  { eapply chain_with_frame; [exact Ho| |]; simpl.
    - intros y Hy. rewrite lookup_insert_ne; [done|]. intros ->. done.
    - by rewrite lookup_insert_ne. }
  eapply wp_mono; [by apply move_into_empty_p|].
  intros [] σ' (H1 & H2 & H3 & H4).
  split; [done|]. split; [done|]. split.
  - intros y Hy. rewrite H3 by done. simpl.
    rewrite lookup_insert_ne; [done|]. set_solver.
  - intros l' ??. rewrite H4 by done. simpl. by rewrite lookup_insert_ne.
Qed.

(** ** The operations of intrusive_list.h on well-formed chains *)

Lemma chain_h_nil h f l :
  h !! l = Some (mk_element None None) → f !! l = Some None →
  chain_h (mk_state h f) l [].
Proof.
  intros Hh Hf. split; [split|done]; simpl.
  - apply NoDup_singleton.
  - done.
Qed.

Lemma linked_pieces h l xs :
  linked h l xs →
  pieces h [(None, xs, Some l); (last_or None xs, [l], None)].
Proof.
  intros [Hnd Hs]. apply seg_app in Hs as [Hs1 Hs2]. split.
  - simpl. nodup_from Hnd.
  - constructor; [exact Hs1|]. constructor; [exact Hs2|]. constructor.
Qed.

Lemma pieces_cons h ps p x e c :
  pieces h ps → h !! x = Some c → p = prev c → e = next c →
  x ∉ mjoin ((λ q, q.1.2) <$> ps) →
  pieces h ((p, [x], e) :: ps).
Proof.
  intros [Hnd Hs] Hx -> -> Hn. split.
  - simpl. by apply NoDup_cons.
  - constructor; [|done]. simpl. split; [|done]. by destruct c.
Qed.

Lemma erase_h σ l xs1 x xs2 :
  chain_h σ l (xs1 ++ x :: xs2) → xs1 ++ xs2 ≠ [] →
  wp (erase l (Some x)) σ (λ r σ',
    r = Some (default l (head xs2)) ∧
    chain_h σ' l (xs1 ++ xs2) ∧
    links σ' !! x = links σ !! x ∧
    (∀ y, y ∉ xs1 ++ xs2 ++ [l] → links σ' !! y = links σ !! y) ∧
    (∀ l', l' ≠ l → firsts σ' !! l' = firsts σ !! l')).
Proof.
  intros Hc Hne. eapply wp_mono; [by apply (erase_spec (λ _, None))|].
  intros r σ' (Hr & Hl & Hf & Hx & Ho & Hfo).
  split; [done|]. split; [|done]. split; [done|].
  rewrite Hf. by destruct (xs1 ++ xs2).
Qed.

Lemma push_back_h σ l xs elem :
  chain_h σ l xs → elem ∉ xs ++ [l] → detached (links σ) elem →
  wp (intrusive_list_h.push_back l elem) σ (λ _ σ',
    chain_h σ' l (xs ++ [elem]) ∧
    (∀ y, y ∉ elem :: xs ++ [l] → links σ' !! y = links σ !! y) ∧
    (∀ l', l' ≠ l → firsts σ' !! l' = firsts σ !! l')).
Proof.
  intros [Hl Hf] Hel He. destruct σ as [h f]. simpl in *.
  assert (tracked h h [(None, [elem], None); (None, xs, Some l);
                       (last_or None xs, [l], None)]) as Ht.
  { apply tracked_start. eapply pieces_cons; [by apply linked_pieces|exact He|done..|].
    simpl. intros Hin. apply Hel. revert Hin. set_solver. }
  assert (∀ h', tracked h h' [(last_or None xs, [elem], Some l); (None, xs, Some elem);
                               (Some elem, [l], None)] →
     linked h' l (xs ++ [elem]) ∧
     (∀ y, y ∉ elem :: xs ++ [l] → h' !! y = h !! y)) as Hfin.
  { intros h' Ht'. open_tracked Ht'. split; [split|].
    - nodup_from Hnd.
    - rewrite <-(assoc_L (++)), (seg_app _ _ xs). simpl. naive_solver.
    - intros y Hy. apply Ho. set_solver. }
  unfold intrusive_list_h.push_back. unfold last_or in Ht, Hfin.
  destruct (last xs) as [z|] eqn:Hz.
  - rd_prev_at 2. wr_next_at 1. rd_prev_at 2. wr_prev_at 0.
    wr_prev_at 2. wr_next_at 0. rd_first_go.
    destruct xs as [|x xs]; [done|]. simpl. apply wp_ret.
    destruct (Hfin _ Ht) as [H1 H2]. split; [split; [done|]|by split].
    simpl. by rewrite Hf.
  - apply last_None in Hz as ->.
    rd_prev_at 2. apply wp_bind, wp_ret. wr_prev_at 2. wr_next_at 0. rd_first_go.
    simpl. rd_prev_at 2. wr_first_go.
    eapply (tracked_nil _ _ _ 1 _ _ None (Some elem)) in Ht; [|reflexivity].
    destruct (Hfin _ Ht) as [H1 H2]. split; [split; [done|]|split; [done|]].
    + simpl. by rewrite lookup_insert_eq.
    + simpl. intros l' ?. by rewrite lookup_insert_ne.
Qed.

Lemma pop_back_h σ l xs z :
  chain_h σ l (xs ++ [z]) →
  wp (intrusive_list_h.pop_back l) σ (λ _ σ',
    chain_h σ' l xs ∧
    links σ' !! z = links σ !! z ∧
    (∀ y, y ∉ xs ++ [l] → links σ' !! y = links σ !! y) ∧
    (∀ l', l' ≠ l → firsts σ' !! l' = firsts σ !! l')).
Proof.
  intros [[Hnd Hs] Hf]. destruct σ as [h f]. simpl in *.
  rewrite <-(assoc_L (++)) in Hnd, Hs.
  apply seg_app in Hs as [Hs0 Hs]. simpl in Hs0, Hs. destruct Hs as [Hz [Hs2 _]].
  unfold head_or in Hs0, Hz, Hs2. simpl in Hs0, Hz, Hs2.
  assert (tracked h h [(None, xs, Some z); (last_or None xs, [z], Some l);
                       (Some z, [l], None)]) as Ht.
  { apply tracked_start. split.
    - simpl. nodup_from Hnd.
    - forall_pieces; [done|by rewrite Hz|by rewrite Hs2]. }
  assert (∀ h' p, tracked h h' [(None, xs, Some l); (last_or None xs, [z], Some l);
                               (p, [l], None)] → p = last_or None xs →
     linked h' l xs ∧ h' !! z = h !! z ∧
     (∀ y, y ∉ xs ++ [l] → h' !! y = h !! y)) as Hfin.
  { intros h' p Ht' ->. open_tracked Ht'. split; [split|split].
    - revert Hnd. rewrite !NoDup_app. set_solver.
    - rewrite (seg_app _ _ xs). simpl. naive_solver.
    - destruct Hs1 as [-> _]. by rewrite Hz.
    - intros y Hy. destruct (decide (y = z)) as [->|].
      + destruct Hs1 as [-> _]. by rewrite Hz.
      + apply Ho. set_solver. }
  unfold intrusive_list_h.pop_back, intrusive_list_h.clear. unfold last_or in Ht, Hfin.
  destruct (last xs) as [y|] eqn:Hy.
  - rd_prev_at 2. rd_prev_at 1. rd_prev_at 2. rd_prev_at 1. wr_next_at 0.
    rd_prev_at 2. rd_prev_at 1. wr_prev_at 2.
    destruct (Hfin _ _ Ht eq_refl) as (H1 & H2 & H3).
    split; [split; [done|]|by repeat split]. simpl. rewrite Hf.
    by destruct xs.
  - apply last_None in Hy as ->.
    rd_prev_at 2. rd_prev_at 1. wr_prev_at 2. wr_first_go.
    eapply (tracked_nil _ _ _ 0 _ _ None (Some l)) in Ht; [|reflexivity].
    destruct (Hfin _ _ Ht eq_refl) as (H1 & H2 & H3).
    split; [split; [done|]|split; [done|split; [done|]]]; simpl.
    + by rewrite lookup_insert_eq.
    + intros l' ?. by rewrite lookup_insert_ne.
Qed.

Lemma push_front_h σ l x xs elem :
  chain_h σ l (x :: xs) → elem ∉ x :: xs ++ [l] → is_Some (links σ !! elem) →
  wp (intrusive_list_h.push_front l elem) σ (λ _ σ',
    chain_h σ' l (elem :: x :: xs) ∧
    (∀ y, y ∉ elem :: x :: xs ++ [l] → links σ' !! y = links σ !! y) ∧
    (∀ l', l' ≠ l → firsts σ' !! l' = firsts σ !! l')).
Proof.
  intros [[Hnd Hs] Hf] Hel [ce Hce]. destruct σ as [h f]. simpl in *.
  assert (∃ z, last (x :: xs ++ [l]) = Some l ∧ last (x :: xs) = Some z) as (z & Hll & Hz).
  { destruct (last (x :: xs)) eqn:E; [|by apply last_None in E].
    eexists. split; [|done]. by rewrite app_comm_cons, last_snoc. }
  assert (tracked h h [(prev ce, [elem], next ce); (None, x :: xs, Some l);
                       (Some z, [l], None)]) as Ht.
  { apply tracked_start. eapply pieces_cons; [|exact Hce|done..|].
    - change (x :: xs ++ [l]) with ((x :: xs) ++ [l]) in Hs, Hnd.
      pose proof (linked_pieces h l (x :: xs) (conj Hnd Hs)) as Hp.
      by rewrite (last_or_Some _ z) in Hp.
    - simpl. intros Hin. apply Hel. revert Hin. set_solver. }
  unfold intrusive_list_h.push_front.
  wr_prev_at 0. rd_first_go. wr_prev_at 1. rd_first_go. wr_next_at 0. wr_first_go.
  rd_prev_at 2. apply wp_ret. open_tracked Ht.
  split; [split; [split|]|split]; simpl.
  - apply NoDup_cons. split; [|done]. intros Hin. apply Hel. revert Hin. set_solver.
  - destruct Hs0 as [Hs0 _]. split; [by rewrite Hs0|].
    change (x :: xs ++ [l]) with ((x :: xs) ++ [l]). rewrite seg_app.
    rewrite <-(last_or_cons None), (last_or_Some _ z), head_or_app by done.
    simpl. naive_solver.
  - by rewrite lookup_insert_eq.
  - intros y Hy. apply Ho. revert Hy. set_solver.
  - intros l' ?. by rewrite lookup_insert_ne.
Qed.

Lemma pop_front_h σ l x y xs :
  chain_h σ l (x :: y :: xs) →
  wp (intrusive_list_h.pop_front l) σ (λ _ σ',
    chain_h σ' l (y :: xs) ∧
    links σ' !! x = links σ !! x ∧
    (∀ z, z ∉ y :: xs ++ [l] → links σ' !! z = links σ !! z) ∧
    (∀ l', l' ≠ l → firsts σ' !! l' = firsts σ !! l')).
Proof.
  intros [[Hnd Hs] Hf]. destruct σ as [h f]. simpl in *.
  destruct Hs as [Hx Hs]. unfold head_or in Hx. simpl in Hx.
  assert (tracked h h [(None, [x], Some y); (Some x, y :: xs ++ [l], None)]) as Ht.
  { apply tracked_start. split.
    - simpl. by rewrite app_nil_r.
    - forall_pieces; [by rewrite Hx|done]. }
  unfold intrusive_list_h.pop_front.
  rd_first_go. rd_next_at 0. rd_first_go. rd_next_at 0. wr_prev_at 1.
  rd_first_go. rd_next_at 0. wr_first_go. open_tracked Ht.
  destruct Hs0 as [Hs0 _]. unfold head_or in Hs0. simpl in Hs0.
  split; [split; [split|]|split; [|split]]; simpl.
  - by apply NoDup_cons in Hnd as [_ ?].
  - done.
  - by rewrite lookup_insert_eq.
  - by rewrite Hs0, Hx.
  - intros z Hz. destruct (decide (z = x)) as [->|]; [by rewrite Hs0, Hx|].
    apply Ho. revert Hz. rewrite app_nil_r. set_solver.
  - intros l' ?. by rewrite lookup_insert_ne.
Qed.

Lemma splice_whole_h σ l donor r1 r2 ys :
  chain_h σ l (r1 ++ r2) → chain_h σ donor ys → ys ≠ [] →
  NoDup ((r1 ++ r2 ++ [l]) ++ ys ++ [donor]) →
  wp (b ← intrusive_list_h.begin donor;
      intrusive_list_h.splice l (head_or r2 (Some l)) donor b (end_ donor)) σ (λ _ σ',
    chain_h σ' l (r1 ++ ys ++ r2) ∧ chain_h σ' donor [] ∧
    (∀ y, y ∉ (r1 ++ r2 ++ [l]) ++ ys ++ [donor] → links σ' !! y = links σ !! y) ∧
    (∀ l', l' ≠ l → l' ≠ donor → firsts σ' !! l' = firsts σ !! l')).
Proof.
  intros Hl Hd Hne Hnd. apply wp_bind. eapply wp_eq; [by apply chain_h_begin|].
  destruct ys as [|y ys]; [done|]. simpl.
  eapply wp_mono.
  - apply (splice_other (λ _, None) σ l donor r1 r2 [] (y :: ys) [] y);
      simpl; rewrite ?app_nil_r; done.
  - intros [] σ' (H1 & H2 & H3 & H4). split; [done|]. split; [done|].
    split; [|done]. intros z Hz. by apply H3.
Qed.

Lemma move_assign_h σ l other xs :
  chain_h σ other xs → l ∉ xs ++ [other] → list_object σ l →
  wp (intrusive_list_h.move_assign l other) σ (λ _ σ',
    chain_h σ' l xs ∧ chain_h σ' other [] ∧
    (∀ y, y ∉ l :: xs ++ [other] → links σ' !! y = links σ !! y) ∧
    (∀ l', l' ≠ l → l' ≠ other → firsts σ' !! l' = firsts σ !! l')).
Proof.
  intros [Ho Hf] Hl (p & v & Hc & Hv)%list_object_lookup. destruct σ as [h f]. simpl in *.
  assert (l ≠ other) as Hlo by set_solver.
  assert (tracked h h [(p, [l], None); (None, xs, Some other);
                       (last_or None xs, [other], None)]) as Ht.
  { apply tracked_start. eapply pieces_cons; [by apply linked_pieces|exact Hc|done..|].
    simpl. intros Hin. apply Hl. revert Hin. set_solver. }
  assert (∀ h', tracked h h' [(last_or None xs, [l], None); (None, xs, Some l);
                               (None, [other], None)] →
     linked h' l xs ∧ linked h' other [] ∧
     (∀ y, y ∉ l :: xs ++ [other] → h' !! y = h !! y)) as Hfin.
  { intros h' Ht'. open_tracked Ht'. destruct Ho as [Hnd' _].
    split; [split|split; [split|]].
    - apply NoDup_cons in Hnd as [Hn1 Hn2]. apply NoDup_app in Hn2 as (Hn2 & _ & _).
      apply NoDup_app. split; [done|]. split; [|apply NoDup_singleton].
      intros y Hy ->%list_elem_of_singleton. apply Hn1. set_solver.
    - rewrite (seg_app _ _ xs). simpl. naive_solver.
    - apply NoDup_singleton.
    - simpl. naive_solver.
    - intros y Hy. apply Ho0. revert Hy. set_solver. }
  unfold intrusive_list_h.move_assign. unfold last_or in Ht, Hfin.
  rd_first_go. wr_first_go. rd_prev_at 2. wr_prev_at 0. rd_prev_at 0.
  destruct (last xs) as [z|] eqn:Hz.
  - wr_next_at 1. wr_first_go. wr_prev_at 2.
    destruct (Hfin _ Ht) as (H1 & H2 & H3).
    split; [split; [done|]|split; [split; [done|]|split; [done|]]]; simpl.
    + rewrite lookup_insert_ne, lookup_insert_eq by done. done.
    + by rewrite lookup_insert_eq.
    + intros l' ??. by rewrite !lookup_insert_ne.
  - apply last_None in Hz as ->. apply wp_bind, wp_ret. wr_first_go. wr_prev_at 2.
    eapply (tracked_nil _ _ _ 1 _ _ None (Some l)) in Ht; [|reflexivity].
    destruct (Hfin _ Ht) as (H1 & H2 & H3).
    split; [split; [done|]|split; [split; [done|]|split; [done|]]]; simpl.
    + rewrite lookup_insert_ne, lookup_insert_eq by done. done.
    + by rewrite lookup_insert_eq.
    + intros l' ??. by rewrite !lookup_insert_ne.
Qed.

Lemma move_construct_h σ l other xs :
  chain_h σ other xs → l ∉ xs ++ [other] →
  wp (intrusive_list_h.move_construct l other) σ (λ _ σ',
    chain_h σ' l xs ∧ chain_h σ' other [] ∧
    (∀ y, y ∉ l :: xs ++ [other] → links σ' !! y = links σ !! y) ∧
    (∀ l', l' ≠ l → l' ≠ other → firsts σ' !! l' = firsts σ !! l')).
Proof.
  intros Ho Hl. destruct σ as [h f]. simpl in *.
  unfold intrusive_list_h.move_construct. apply wp_bind.
  eapply wp_eq; [reflexivity|]. simpl.
  set (σ1 := mk_state _ _).
  assert (l ≠ other) as Hlo by set_solver.
  assert (chain_h σ1 other xs) as Ho1.
  { eapply chain_with_frame; [exact Ho| |]; simpl.
    - intros y Hy. rewrite lookup_insert_ne; [done|]. intros ->. done.
    - by rewrite lookup_insert_ne. }
  eapply wp_mono; [apply (move_assign_h σ1 l other xs); [done|done|]|].
  - split; simpl; by rewrite lookup_insert_eq.
  - intros [] σ' (H1 & H2 & H3 & H4).
    split; [done|]. split; [done|]. split.
    + intros y Hy. rewrite H3 by done. simpl.
      rewrite lookup_insert_ne; [done|]. set_solver.
    + intros l' ??. rewrite H4 by done. simpl. by rewrite lookup_insert_ne.
Qed.

(** ** [unlink] *)

Lemma wr_next_same x c v h f :
  h !! x = Some c → next c = v → wr_next (Some x) v (mk_state h f) = Some (tt, mk_state h f).
Proof.
  intros Hc <-. rewrite (wr_next_run _ _ _ _ _ Hc). do 3 f_equal.
  apply insert_id. rewrite Hc. by destruct c.
Qed.

Lemma wr_prev_same x c v h f :
  h !! x = Some c → prev c = v → wr_prev (Some x) v (mk_state h f) = Some (tt, mk_state h f).
Proof.
  intros Hc <-. rewrite (wr_prev_run _ _ _ _ _ Hc). do 3 f_equal.
  apply insert_id. rewrite Hc. by destruct c.
Qed.

(** A link with both references absent: [unlink] does nothing, in both files. *)
Lemma unlink_h_detached h f x :
  detached h x → intrusive_list_h.unlink x (mk_state h f) = Some (tt, mk_state h f).
Proof.
  intros Hx. unfold intrusive_list_h.unlink.
  rewrite bind_eq, (rd_prev_run _ _ _ _ Hx). simpl.
  rewrite bind_eq. simpl. by rewrite bind_eq, (rd_next_run _ _ _ _ Hx).
Qed.

Lemma unlink_p_detached h f x :
  detached h x → part_000.unlink x (mk_state h f) = Some (tt, mk_state h f).
Proof.
  intros Hx. unfold part_000.unlink.
  rewrite bind_eq, (rd_prev_run _ _ _ _ Hx). simpl.
  rewrite bind_eq. simpl. by rewrite bind_eq, (rd_next_run _ _ _ _ Hx).
Qed.

Ltac rd_prev_by H := under_bind; eapply wp_rd_prev; [exact H|]; cbn [prev next]; cbv beta iota.
Ltac rd_next_by H := under_bind; eapply wp_rd_next; [exact H|]; cbn [prev next]; cbv beta iota.
Ltac wr_prev_by H := under_bind; eapply wp_wr_prev; [exact H|]; cbn [prev next]; cbv beta iota.
Ltac wr_next_by H := under_bind; eapply wp_wr_next; [exact H|]; cbn [prev next]; cbv beta iota.

(** intrusive_list.h: what [unlink] does to the store. *)
Lemma unlink_h_spec h f this p n :
  h !! this = Some (mk_element p n) →
  (∀ pp, p = Some pp → is_Some (h !! pp)) →
  (∀ nn, n = Some nn → is_Some (h !! nn)) →
  wp (intrusive_list_h.unlink this) (mk_state h f) (λ _ σ',
    firsts σ' = f ∧
    (∀ pp, p = Some pp → next <$> links σ' !! pp = Some n) ∧
    (∀ nn, n = Some nn → prev <$> links σ' !! nn = Some p) ∧
    links σ' !! this = Some (mk_element p n) ∧
    (∀ y, Some y ≠ p → Some y ≠ n → links σ' !! y = h !! y)).
Proof.
  intros Ht Hp Hn. unfold intrusive_list_h.unlink.
  rd_prev_by Ht.
  destruct p as [pp|], n as [nn|].
  - destruct (Hp pp eq_refl) as [cp Hcp].
    rd_next_by Ht. wr_next_by Hcp.
    set (h1 := <[pp := _]> h).
    assert (h1 !! this = Some (mk_element (Some pp) (Some nn))) as Ht1.
    { unfold h1. destruct (decide (pp = this)) as [->|].
      - rewrite lookup_insert_eq. by simplify_eq.
      - by rewrite lookup_insert_ne. }
    assert (∃ cn, h1 !! nn = Some cn ∧
                  (nn = pp → next cn = Some nn) ∧ (nn ≠ pp → h !! nn = Some cn))
      as (cn & Hcn & Hcn1 & Hcn2).
    { unfold h1. destruct (decide (pp = nn)) as [->|].
      - rewrite lookup_insert_eq. eexists. split; [done|]. by split.
      - rewrite lookup_insert_ne by done. destruct (Hn nn eq_refl) as [cn Hcn].
        exists cn. split; [done|]. split; [congruence|done]. }
    rd_next_by Ht1. rd_prev_by Ht1. wr_prev_by Hcn. simpl.
    split; [done|]. split; [|split; [|split]].
    + intros ? [= <-]. destruct (decide (nn = pp)) as [->|].
      * rewrite lookup_insert_eq. simpl. by rewrite Hcn1.
      * rewrite lookup_insert_ne by done. unfold h1. by rewrite lookup_insert_eq.
    + intros ? [= <-]. by rewrite lookup_insert_eq.
    + destruct (decide (nn = this)) as [->|].
      * rewrite lookup_insert_eq. rewrite Ht1 in Hcn. by simplify_eq.
      * by rewrite lookup_insert_ne.
    + intros y Hy1 Hy2. rewrite lookup_insert_ne by congruence.
      unfold h1. rewrite lookup_insert_ne by congruence. done.
  - destruct (Hp pp eq_refl) as [cp Hcp].
    rd_next_by Ht. wr_next_by Hcp.
    set (h1 := <[pp := _]> h).
    assert (h1 !! this = Some (mk_element (Some pp) None)) as Ht1.
    { unfold h1. destruct (decide (pp = this)) as [->|].
      - rewrite lookup_insert_eq. by simplify_eq.
      - by rewrite lookup_insert_ne. }
    rd_next_by Ht1. apply wp_ret. simpl.
    split; [done|]. split; [|split; [|split]].
    + intros ? [= <-]. unfold h1. by rewrite lookup_insert_eq.
    + done.
    + done.
    + intros y Hy1 Hy2. unfold h1. rewrite lookup_insert_ne by congruence. done.
  - destruct (Hn nn eq_refl) as [cn Hcn].
    apply wp_bind, wp_ret. rd_next_by Ht. rd_prev_by Ht. wr_prev_by Hcn. simpl.
    split; [done|]. split; [|split; [|split]].
    + done.
    + intros ? [= <-]. by rewrite lookup_insert_eq.
    + destruct (decide (nn = this)) as [->|].
      * rewrite lookup_insert_eq. by simplify_eq.
      * by rewrite lookup_insert_ne.
    + intros y Hy1 Hy2. rewrite lookup_insert_ne by congruence. done.
  - apply wp_bind, wp_ret. rd_next_by Ht. apply wp_ret. simpl. by repeat split.
Qed.

Lemma wp_wr_next_same x c v h f (Q : unit → state → Prop) :
  h !! x = Some c → next c = v → Q tt (mk_state h f) →
  wp (wr_next (Some x) v) (mk_state h f) Q.
Proof. intros Hc Hv HQ. eapply wp_eq; [by eapply wr_next_same|done]. Qed.

Lemma wp_wr_prev_same x c v h f (Q : unit → state → Prop) :
  h !! x = Some c → prev c = v → Q tt (mk_state h f) →
  wp (wr_prev (Some x) v) (mk_state h f) Q.
Proof. intros Hc Hv HQ. eapply wp_eq; [by eapply wr_prev_same|done]. Qed.

(** intrusive_list.h: once the neighbours already point past [this], [unlink]
    changes nothing. *)
Lemma unlink_h_stable h f this p n :
  h !! this = Some (mk_element p n) →
  (∀ pp, p = Some pp → next <$> h !! pp = Some n) →
  (∀ nn, n = Some nn → prev <$> h !! nn = Some p) →
  intrusive_list_h.unlink this (mk_state h f) = Some (tt, mk_state h f).
Proof.
  intros Ht Hp Hn.
  cut (wp (intrusive_list_h.unlink this) (mk_state h f) (λ _ σ', σ' = mk_state h f)).
  { intros ([] & σ' & Hrun & ->). done. }
  unfold intrusive_list_h.unlink. rd_prev_by Ht.
  assert (wp (rd_next (Some this) ≫= λ n0,
              if n0 is Some _ then rd_prev (Some this) ≫= λ p0, wr_prev n0 p0
              else mret ()) (mk_state h f) (λ _ σ', σ' = mk_state h f)) as Hsecond.
  { rd_next_by Ht. destruct n as [nn|]; [|by apply wp_ret].
    rd_prev_by Ht. specialize (Hn nn eq_refl).
    destruct (h !! nn) as [cn|] eqn:Hcn; [|done]. simpl in Hn.
    eapply wp_wr_prev_same; [done|congruence|done]. }
  destruct p as [pp|].
  - rd_next_by Ht. specialize (Hp pp eq_refl).
    destruct (h !! pp) as [cp|] eqn:Hcp; [|done]. simpl in Hp.
    eapply wp_wr_next_same; [done|congruence|]. exact Hsecond.
  - apply wp_bind, wp_ret. exact Hsecond.
Qed.

(** intrusive_list.h: a second [unlink] right after the first changes nothing. *)
Lemma unlink_h_twice h f this p n :
  h !! this = Some (mk_element p n) →
  (∀ pp, p = Some pp → is_Some (h !! pp)) →
  (∀ nn, n = Some nn → is_Some (h !! nn)) →
  ∃ σ1, intrusive_list_h.unlink this (mk_state h f) = Some (tt, σ1) ∧
        intrusive_list_h.unlink this σ1 = Some (tt, σ1).
Proof.
  intros Ht Hp Hn.
  destruct (unlink_h_spec h f this p n Ht Hp Hn)
    as ([] & [h1 f1] & Hrun & Hf & H1 & H2 & H3 & H4).
  simpl in *. subst f1. exists (mk_state h1 f). split; [done|].
  by apply (unlink_h_stable h1 f this p n).
Qed.

(** part_000: what [unlink] does to the store.  After the previous
    neighbour has been rewired the link's own [next] is already null, so the
    second [if] of the function is skipped. *)
Lemma unlink_p_spec h f this p n :
  h !! this = Some (mk_element p n) →
  (∀ pp, p = Some pp → pp ≠ this ∧ is_Some (h !! pp)) →
  (∀ nn, n = Some nn → nn ≠ this ∧ is_Some (h !! nn)) →
  wp (part_000.unlink this) (mk_state h f) (λ _ σ',
    firsts σ' = f ∧
    (∀ pp, p = Some pp →
       next <$> links σ' !! pp = Some n ∧
       links σ' !! this = Some (mk_element p None) ∧
       (∀ y, y ≠ pp → y ≠ this → links σ' !! y = h !! y)) ∧
    (p = None → ∀ nn, n = Some nn →
       prev <$> links σ' !! nn = Some None ∧
       links σ' !! this = Some (mk_element None n) ∧
       (∀ y, y ≠ nn → links σ' !! y = h !! y)) ∧
    (p = None → n = None → links σ' = h)).
Proof.
  intros Ht Hp Hn. unfold part_000.unlink. rd_prev_by Ht.
  destruct p as [pp|].
  - destruct (Hp pp eq_refl) as [Hne [cp Hcp]].
    rd_next_by Ht. wr_next_by Hcp.
    assert (<[pp := mk_element (prev cp) n]> h !! this = Some (mk_element (Some pp) n))
      as Ht1 by (by rewrite lookup_insert_ne).
    wr_next_by Ht1.
    set (h2 := <[this := _]> _).
    assert (h2 !! this = Some (mk_element (Some pp) None)) as Ht2
      by (unfold h2; by rewrite lookup_insert_eq).
    rd_next_by Ht2. apply wp_ret. simpl.
    split; [done|]. split; [|done].
    intros ? [= <-]. unfold h2. split; [|split; [done|]].
    + by rewrite lookup_insert_ne, lookup_insert_eq by done.
    + intros y ??. by rewrite !lookup_insert_ne by done.
  - apply wp_bind, wp_ret. rd_next_by Ht. destruct n as [nn|].
    + destruct (Hn nn eq_refl) as [Hne [cn Hcn]].
      rd_prev_by Ht. wr_prev_by Hcn.
      assert (<[nn := mk_element None (next cn)]> h !! this = Some (mk_element None (Some nn)))
        as Ht1 by (by rewrite lookup_insert_ne).
      wr_prev_by Ht1. simpl.
      split; [done|]. split; [done|]. split; [|done].
      intros _ ? [= <-]. split; [|split].
      * destruct (decide (nn = this)); [done|].
        by rewrite lookup_insert_ne, lookup_insert_eq by done.
      * by rewrite lookup_insert_eq.
      * intros y ?. destruct (decide (y = this)) as [->|].
        -- by rewrite lookup_insert_eq.
        -- by rewrite !lookup_insert_ne by done.
    + apply wp_ret. simpl. by repeat split.
Qed.

(** ** Two chains in one store *)

Lemma seg_same_head h p q xs ys :
  seg h p xs None → seg h q ys None → head xs = head ys → xs = ys.
Proof.
  revert p q ys. induction xs as [|x xs IH]; intros p q ys Hx Hy Hh.
  - destruct ys; [done|discriminate].
  - destruct ys as [|y ys]; [discriminate|]. simpl in Hh. injection Hh as <-.
    destruct Hx as [Hx Hxs], Hy as [Hy Hys]. rewrite Hx in Hy.
    injection Hy as _ Hn. rewrite !head_or_None in Hn.
    f_equal. by eapply IH.
Qed.

Lemma seg_no_member_twice h p q xs ys x :
  seg h p xs None → seg h q ys None → x ∈ xs → x ∈ ys → last xs = last ys.
Proof.
  intros Hx Hy (a1 & a2 & ->)%list_elem_of_split (b1 & b2 & ->)%list_elem_of_split.
  apply seg_app in Hx as [_ Hx]. apply seg_app in Hy as [_ Hy].
  assert (x :: a2 = x :: b2) as E by (by eapply seg_same_head).
  rewrite !last_app, E. destruct (last (x :: b2)) eqn:El; [done|].
  by apply last_None in El.
Qed.

(** Two well-formed chains with different sentinels share no address. *)
Lemma chains_disjoint h l d xs ys :
  linked h l xs → linked h d ys → l ≠ d → NoDup ((xs ++ [l]) ++ ys ++ [d]).
Proof.
  intros [Hn1 Hs1] [Hn2 Hs2] Hld. apply NoDup_app. split; [done|]. split; [|done].
  intros x Hx Hy. apply Hld.
  pose proof (seg_no_member_twice _ _ _ _ _ _ Hs1 Hs2 Hx Hy) as E.
  rewrite !last_snoc in E. by injection E.
Qed.

(** A list object is not a member of any chain: its [next] is null. *)
Lemma list_object_not_member σ l d xs :
  list_object σ l → linked (links σ) d xs → l ∉ xs.
Proof.
  intros [Hn _] [_ Hs] (a1 & a2 & ->)%list_elem_of_split.
  rewrite <-(assoc_L (++)) in Hs. apply seg_app in Hs as [_ Hs].
  simpl in Hs. destruct Hs as [Hl _]. rewrite Hl in Hn. simpl in Hn.
  rewrite head_or_None in Hn. by destruct a2.
Qed.

Lemma fresh_not_member h d xs l :
  h !! l = None → linked h d xs → l ∉ xs ++ [d].
Proof.
  intros Hl [_ Hs] Hin. destruct (seg_lookup _ _ _ _ _ Hs Hin) as [c Hc]. congruence.
Qed.

(** ** The contracts, file by file *)

Lemma frame_intro σ σ' nodes l :
  (∀ y, y ∉ nodes → links σ' !! y = links σ !! y) →
  (∀ l', l' ≠ l → firsts σ' !! l' = firsts σ !! l') →
  frame σ σ' nodes [l].
Proof. intros H1 H2. split; [done|]. intros l' Hl'. apply H2. set_solver. Qed.

Lemma frame_intro2 σ σ' nodes l d :
  (∀ y, y ∉ nodes → links σ' !! y = links σ !! y) →
  (∀ l', l' ≠ l → l' ≠ d → firsts σ' !! l' = firsts σ !! l') →
  frame σ σ' nodes [l; d].
Proof. intros H1 H2. split; [done|]. intros l' Hl'. apply H2; set_solver. Qed.

Lemma detached_is_Some h x : detached h x → is_Some (h !! x).
Proof. intros ->. eauto. Qed.

Lemma part_000_keeps_push_back : keeps_push_back chain_p part_000.push_back.
Proof.
  intros σ l xs x Hc Hx Hd.
  destruct (push_back_p σ l xs x Hc Hx (detached_is_Some _ _ Hd))
    as ([] & σ' & Hrun & H1 & H2 & H3).
  exists σ'. split; [done|]. split; [done|]. by apply frame_intro.
Qed.

Lemma part_000_keeps_push_front : keeps_push_front chain_p any_chain part_000.push_front.
Proof.
  intros σ l xs x Hc _ Hx Hd.
  destruct (push_front_p σ l xs x Hc Hx (detached_is_Some _ _ Hd))
    as ([] & σ' & Hrun & H1 & H2 & H3).
  exists σ'. split; [done|]. split; [done|]. by apply frame_intro.
Qed.


Lemma part_000_keeps_pop_back : keeps_pop_back chain_p part_000.pop_back.
Proof.
  intros σ l xs z Hc.
  destruct (pop_back_p σ l xs z Hc) as ([] & σ' & Hrun & H1 & H2 & H3 & H4).
  exists σ'. split; [done|]. split; [done|]. split; [done|]. by apply frame_intro.
Qed.

Lemma part_000_keeps_pop_front : keeps_pop_front chain_p any_chain part_000.pop_front.
Proof.
  intros σ l x xs Hc _.
  destruct (pop_front_p σ l x xs Hc) as ([] & σ' & Hrun & H1 & H2 & H3 & H4).
  exists σ'. split; [done|]. split; [done|]. split; [done|]. by apply frame_intro.
Qed.

Lemma part_000_keeps_erase : keeps_erase chain_p any_chain erase.
Proof.
  intros σ l xs1 x xs2 Hc _.
  destruct (erase_p σ l xs1 x xs2 Hc) as (r & σ' & Hrun & -> & H1 & H2 & H3 & H4).
  exists σ'. rewrite head_or_sentinel.
  split; [done|]. split; [done|]. split; [done|]. by apply frame_intro.
Qed.



Lemma part_000_keeps_splice_forward : keeps_splice_forward chain_p part_000.splice.
Proof.
  intros σ l a mid b c from to Hl Hfrom Hto.
  destruct (splice_self_fwd (λ l, Some l) σ l a mid b c from to Hl Hfrom Hto)
    as ([] & σ' & Hrun & H1 & H2 & H3).
  exists σ'. split; [done|]. split; [done|]. by apply frame_intro.
Qed.

Lemma part_000_keeps_move_assign : keeps_move_assign chain_p part_000.move_assign.
Proof.
  intros σ l other xs Hc Hl Hlo.
  destruct (move_assign_p σ l other xs Hc Hl Hlo) as ([] & σ' & Hrun & H1 & H2 & H3 & H4).
  exists σ'. split; [done|]. split; [done|]. split; [done|]. by apply frame_intro2.
Qed.

Lemma part_000_keeps_move_construct :
  keeps_move_construct chain_p part_000.move_construct.
Proof.
  intros σ l other xs Hc Hl.
  destruct (move_construct_p σ l other xs Hc Hl) as ([] & σ' & Hrun & H1 & H2 & H3 & H4).
  exists σ'. split; [done|]. split; [done|]. split; [done|]. by apply frame_intro2.
Qed.

Lemma header_keeps_push_back : keeps_push_back chain_h intrusive_list_h.push_back.
Proof.
  intros σ l xs x Hc Hx Hd.
  destruct (push_back_h σ l xs x Hc Hx Hd) as ([] & σ' & Hrun & H1 & H2 & H3).
  exists σ'. split; [done|]. split; [done|]. by apply frame_intro.
Qed.

Lemma header_keeps_push_front :
  keeps_push_front chain_h non_empty intrusive_list_h.push_front.
Proof.
  intros σ l xs x Hc Hne Hx Hd. destruct xs as [|x0 xs]; [done|].
  destruct (push_front_h σ l x0 xs x Hc Hx (detached_is_Some _ _ Hd))
    as ([] & σ' & Hrun & H1 & H2 & H3).
  exists σ'. split; [done|]. split; [done|]. by apply frame_intro.
Qed.


Lemma header_keeps_pop_back : keeps_pop_back chain_h intrusive_list_h.pop_back.
Proof.
  intros σ l xs z Hc.
  destruct (pop_back_h σ l xs z Hc) as ([] & σ' & Hrun & H1 & H2 & H3 & H4).
  exists σ'. split; [done|]. split; [done|]. split; [done|]. by apply frame_intro.
Qed.

Lemma header_keeps_pop_front :
  keeps_pop_front chain_h non_empty intrusive_list_h.pop_front.
Proof.
  intros σ l x xs Hc Hne. destruct xs as [|y xs]; [done|].
  destruct (pop_front_h σ l x y xs Hc) as ([] & σ' & Hrun & H1 & H2 & H3 & H4).
  exists σ'. split; [done|]. split; [done|]. split; [done|]. by apply frame_intro.
Qed.




Lemma header_keeps_splice_forward :
  keeps_splice_forward chain_h intrusive_list_h.splice.
Proof.
  intros σ l a mid b c from to Hl Hfrom Hto.
  destruct (splice_self_fwd (λ _, None) σ l a mid b c from to Hl Hfrom Hto)
    as ([] & σ' & Hrun & H1 & H2 & H3).
  exists σ'. split; [done|]. split; [done|]. by apply frame_intro.
Qed.

Lemma header_keeps_move_assign : keeps_move_assign chain_h intrusive_list_h.move_assign.
Proof.
  intros σ l other xs Hc Hl Hlo.
  destruct (move_assign_h σ l other xs Hc Hl Hlo) as ([] & σ' & Hrun & H1 & H2 & H3 & H4).
  exists σ'. split; [done|]. split; [done|]. split; [done|]. by apply frame_intro2.
Qed.

Lemma header_keeps_move_construct :
  keeps_move_construct chain_h intrusive_list_h.move_construct.
Proof.
  intros σ l other xs Hc Hl.
  destruct (move_construct_h σ l other xs Hc Hl) as ([] & σ' & Hrun & H1 & H2 & H3 & H4).
  exists σ'. split; [done|]. split; [done|]. split; [done|]. by apply frame_intro2.
Qed.

(** ** Move-assignment of intrusive_list.h against [clear] and [splice] *)

Lemma seg_agree h1 h2 p xs e y :
  seg h1 p xs e → seg h2 p xs e → y ∈ xs → h1 !! y = h2 !! y.
Proof.
  revert p. induction xs as [|x xs IH]; intros p; simpl.
  - intros _ _ Hy. by apply elem_of_nil in Hy.
  - intros [H1 Hs1] [H2 Hs2] [->|Hy]%elem_of_cons; [congruence|]. by eapply IH.
Qed.

(** Two runs that leave the same two chains and the same frame leave the
    same store. *)
Lemma same_chains_same_store nil σ σ1 σ2 l other xs :
  chain_with nil σ1 l xs → chain_with nil σ1 other [] →
  chain_with nil σ2 l xs → chain_with nil σ2 other [] →
  (∀ y, y ∉ l :: xs ++ [other] → links σ1 !! y = links σ !! y) →
  (∀ y, y ∉ l :: xs ++ [other] → links σ2 !! y = links σ !! y) →
  (∀ l', l' ≠ l → l' ≠ other → firsts σ1 !! l' = firsts σ !! l') →
  (∀ l', l' ≠ l → l' ≠ other → firsts σ2 !! l' = firsts σ !! l') →
  σ1 = σ2.
Proof.
  intros [[_ Hl1] Hf1] [[_ Ho1] Hg1] [[_ Hl2] Hf2] [[_ Ho2] Hg2] Hh1 Hh2 Hk1 Hk2.
  destruct σ1 as [h1 f1], σ2 as [h2 f2]. simpl in *. f_equal.
  - apply map_eq. intros y.
    destruct (decide (y ∈ xs ++ [l])) as [Hy|Hy]; [by eapply seg_agree|].
    destruct (decide (y = other)) as [->|Hyo].
    + destruct Ho1 as [-> _], Ho2 as [-> _]. done.
    + rewrite Hh1, Hh2; [done|set_solver..].
  - apply map_eq. intros y.
    destruct (decide (y = l)) as [->|]; [congruence|].
    destruct (decide (y = other)) as [->|]; [congruence|].
    by rewrite Hk1, Hk2.
Qed.

Lemma clear_h_run h f l c (v : option nat) :
  h !! l = Some c → f !! l = Some v →
  intrusive_list_h.clear l (mk_state h f) =
    Some (tt, mk_state (<[l := mk_element None (next c)]> h) (<[l := None]> f)).
Proof.
  intros Hc Hf. unfold intrusive_list_h.clear.
  rewrite bind_eq, (wr_prev_run _ _ _ _ _ Hc). by rewrite (wr_first_run _ _ _ _ _ Hf).
Qed.

Lemma clear_splice_h σ l other xs :
  chain_h σ other xs → l ∉ xs ++ [other] → list_object σ l →
  wp (intrusive_list_h.clear l;;
      b ← intrusive_list_h.begin l;
      ob ← intrusive_list_h.begin other;
      intrusive_list_h.splice l b other ob (end_ other)) σ (λ _ σ',
    chain_h σ' l xs ∧ chain_h σ' other [] ∧
    (∀ y, y ∉ l :: xs ++ [other] → links σ' !! y = links σ !! y) ∧
    (∀ l', l' ≠ l → l' ≠ other → firsts σ' !! l' = firsts σ !! l')).
Proof.
  intros Ho Hl (p & v & Hc & Hv)%list_object_lookup. destruct σ as [h f]. simpl in *.
  apply wp_bind. eapply wp_eq; [by eapply clear_h_run|]. simpl.
  set (σ1 := mk_state _ _).
  assert (l ≠ other) as Hlo by set_solver.
  assert (chain_h σ1 l []) as Hl1.
  { apply chain_h_nil; by rewrite lookup_insert_eq. }
  assert (chain_h σ1 other xs) as Ho1.
  { eapply chain_with_frame; [exact Ho| |]; simpl.
    - intros y Hy. rewrite lookup_insert_ne; [done|]. intros ->. done.
    - by rewrite lookup_insert_ne. }
  apply wp_bind. eapply wp_eq; [by apply chain_h_begin|]. simpl.
  destruct (decide (xs = [])) as [->|Hne].
  - apply wp_bind. eapply wp_eq; [by apply chain_h_begin|]. simpl.
    unfold intrusive_list_h.splice, splice_with, iter_eq, end_.
    rewrite bool_decide_eq_true_2 by done. apply wp_ret.
    split; [done|]. split; [done|]. split; simpl.
    + intros y Hy. rewrite lookup_insert_ne; [done|]. set_solver.
    + intros l' ??. by rewrite lookup_insert_ne.
  - eapply wp_mono; [apply (splice_whole_h σ1 l other [] [] xs); try done|].
    + simpl. apply NoDup_cons. split; [done|]. apply Ho.
    + intros [] σ' (H1 & H2 & H3 & H4). rewrite app_nil_r in H1.
      split; [done|]. split; [done|]. split.
      * intros y Hy. rewrite H3 by done. simpl.
        rewrite lookup_insert_ne; [done|]. set_solver.
      * intros l' ??. rewrite H4 by done. simpl. by rewrite lookup_insert_ne.
Qed.

(** In intrusive_list.h move-assignment ends in the very store that [clear()]
    followed by the [splice] of the whole source would end in. *)
Lemma move_assign_h_as_splice σ l other xs :
  chain_h σ other xs → l ∉ xs ++ [other] → list_object σ l →
  intrusive_list_h.move_assign l other σ =
    (intrusive_list_h.clear l;;
     b ← intrusive_list_h.begin l;
     ob ← intrusive_list_h.begin other;
     intrusive_list_h.splice l b other ob (end_ other)) σ.
Proof.
  intros Ho Hl Hobj.
  destruct (move_assign_h σ l other xs Ho Hl Hobj) as ([] & σ1 & -> & A1 & A2 & A3 & A4).
  destruct (clear_splice_h σ l other xs Ho Hl Hobj) as ([] & σ2 & -> & B1 & B2 & B3 & B4).
  do 2 f_equal. by eapply (same_chains_same_store (λ _, None) σ σ1 σ2 l other xs).
Qed.

(** ** Destruction of a member *)

Lemma seg_delete h x p xs e :
  x ∉ xs → seg h p xs e → seg (delete x h) p xs e.
Proof.
  intros Hx Hs. eapply seg_ext; [|done].
  intros y Hy. apply lookup_delete_ne. by intros ->.
Qed.

(** intrusive_list.h: destroying a member that has a previous member takes
    it out of the chain, which stays well formed. *)
Lemma destroy_h_not_first σ l xs1 x xs2 :
  chain_h σ l (xs1 ++ x :: xs2) → xs1 ≠ [] →
  wp (intrusive_list_h.destroy x) σ (λ _ σ',
    chain_h σ' l (xs1 ++ xs2) ∧ links σ' !! x = None).
Proof.
  intros [[Hnd Hs] Hf] Hne. destruct σ as [h f]. simpl in *.
  rewrite <-(assoc_L (++)) in Hnd, Hs. simpl in Hnd, Hs.
  apply seg_app in Hs as [Hs1 Hs2]. simpl in Hs1, Hs2. destruct Hs2 as [Hx Hs2].
  pose proof (head_app_sentinel xs2 l) as Hn.
  set (n := default l (head xs2)) in *.
  destruct (last xs1) as [b|] eqn:Hb; [|by apply last_None in Hb].
  rewrite (last_or_Some _ b) in Hx by done.
  unfold head_or in Hx. rewrite Hn in Hx. unfold head_or in Hs1. simpl in Hs1.
  assert (tracked h h [(None, xs1, Some x); (Some b, [x], Some n);
                       (Some x, xs2 ++ [l], None)]) as Ht.
  { apply tracked_start. split.
    - simpl. by rewrite app_nil_r.
    - forall_pieces; [done|by rewrite Hx|done]. }
  unfold intrusive_list_h.destroy, intrusive_list_h.unlink.
  rd_prev_at 1. rd_next_at 1. wr_next_at 0. rd_next_at 1. rd_prev_at 1. wr_prev_at 2.
  open_tracked Ht. destruct Hs0 as [Hs0 _].
  eapply wp_eq.
  { unfold release. simpl. by rewrite Hs0. }
  simpl. split; [split; [split|]|].
  - apply NoDup_app in Hnd as (? & ? & [? ?]%NoDup_cons).
    rewrite <-(assoc_L (++)). apply NoDup_app. set_solver.
  - rewrite <-(assoc_L (++)), seg_app. rewrite (last_or_Some _ b) by done.
    unfold head_or. rewrite Hn.
    apply NoDup_app in Hnd as (Hn1 & Hn2 & [Hn3 Hn4]%NoDup_cons).
    split; apply seg_delete; [|done| |done].
    + intros Hin. by apply (Hn2 x Hin); left.
    + done.
  - simpl. rewrite Hf. by destruct xs1.
  - simpl. apply lookup_delete_eq.
Qed.

(** Neither file's destructor writes a list's [first]: a list whose first
    member is destroyed keeps the address of the dead link. *)
Lemma destroy_h_first_dangles σ l x xs :
  chain_h σ l (x :: xs) →
  wp (intrusive_list_h.destroy x) σ (λ _ σ',
    links σ' !! x = None ∧ firsts σ' !! l = Some (Some x)).
Proof.
  intros [Hl Hf]. destruct σ as [h f]. simpl in *.
  pose proof (linked_lookup_head _ _ _ _ Hl) as Hx.
  assert (is_Some (h !! default l (head xs))) as Hn.
  { destruct Hl as [_ Hs]. eapply (seg_lookup _ _ _ _ _ Hs). right.
    destruct xs; set_solver. }
  unfold intrusive_list_h.destroy. apply wp_bind.
  eapply wp_mono.
  - apply (unlink_h_spec h f x None (Some (default l (head xs))) Hx); [done|].
    by intros ? [= <-].
  - intros [] [h' f'] (Hf' & _ & _ & Hx' & _). simpl in *. subst f'.
    eapply wp_eq; [unfold release; simpl; by rewrite Hx'|].
    simpl. split; [apply lookup_delete_eq|done].
Qed.

Lemma destroy_p_first_dangles σ l x xs :
  chain_p σ l (x :: xs) →
  wp (part_000.destroy x) σ (λ _ σ',
    links σ' !! x = None ∧ firsts σ' !! l = Some (Some x)).
Proof.
  intros [Hl Hf]. destruct σ as [h f]. simpl in *.
  pose proof (linked_lookup_head _ _ _ _ Hl) as Hx.
  assert (x ≠ default l (head xs) ∧ is_Some (h !! default l (head xs))) as [Hne Hn].
  { destruct Hl as [Hnd Hs]. split.
    - simpl in Hnd. apply NoDup_cons in Hnd as [Hnd _]. intros E. apply Hnd.
      rewrite E. destruct xs; set_solver.
    - eapply (seg_lookup _ _ _ _ _ Hs). right. destruct xs; set_solver. }
  unfold part_000.destroy. apply wp_bind.
  eapply wp_mono.
  - apply (unlink_p_spec h f x None (Some (default l (head xs))) Hx); [done|].
    intros ? [= <-]. by split.
  - intros [] [h' f'] (Hf' & _ & Hx' & _). simpl in *. subst f'.
    destruct (Hx' eq_refl _ eq_refl) as (_ & Hx'' & _).
    eapply wp_eq; [unfold release; simpl; by rewrite Hx''|].
    simpl. split; [apply lookup_delete_eq|done].
Qed.

(** ** Where the two files agree

    On every program whose steps are defined on the abstract list, each file
    runs without undefined behaviour and observes what the abstract list
    says; so the two files observe the same. *)

Section refine.
Variable chain : state → loc → list nat → Prop.
Variable exec : loc → op → M obs.
Hypothesis H_push_back :
  ∀ σ l xs x, chain σ l xs → x ∉ xs ++ [l] → detached (links σ) x →
    ∃ σ', exec l (PushBack x) σ = Some (Done, σ') ∧
          chain σ' l (xs ++ [x]) ∧ frame σ σ' (x :: xs ++ [l]) [l].
Hypothesis H_push_front :
  ∀ σ l xs x, chain σ l xs → xs ≠ [] → x ∉ xs ++ [l] → detached (links σ) x →
    ∃ σ', exec l (PushFront x) σ = Some (Done, σ') ∧
          chain σ' l (x :: xs) ∧ frame σ σ' (x :: xs ++ [l]) [l].
Hypothesis H_pop_back :
  ∀ σ l xs z, chain σ l (xs ++ [z]) →
    ∃ σ', exec l PopBack σ = Some (Done, σ') ∧
          chain σ' l xs ∧ frame σ σ' (xs ++ [l]) [l].
Hypothesis H_pop_front :
  ∀ σ l x y xs, chain σ l (x :: y :: xs) →
    ∃ σ', exec l PopFront σ = Some (Done, σ') ∧
          chain σ' l (y :: xs) ∧ frame σ σ' ((y :: xs) ++ [l]) [l].
Hypothesis H_empty :
  ∀ σ l xs, chain σ l xs → exec l Empty σ = Some (Flag (bool_decide (xs = [])), σ).
Hypothesis H_front :
  ∀ σ l x xs, chain σ l (x :: xs) → exec l Front σ = Some (Elem x, σ).
Hypothesis H_back :
  ∀ σ l xs z, chain σ l xs → last xs = Some z → exec l Back σ = Some (Elem z, σ).
Hypothesis H_iterate :
  ∀ σ l xs, chain σ l xs → length xs < 16 → exec l Iterate σ = Some (Seq xs, σ).

Lemma holds_step σ l st o r st' :
  holds chain σ l st → abs_step st o = Some (r, st') →
  ∃ σ', exec l o σ = Some (r, σ') ∧ holds chain σ' l st'.
Proof.
  destruct st as [xs pool]. intros [Hc Hpool] Hstep. simpl in *.
  destruct o; simpl in Hstep.
  - case_decide as Hx; [|done]. injection Hstep as <- <-.
    destruct (Hpool x Hx) as [Hd Hn].
    destruct (H_push_back σ l xs x Hc Hn Hd) as (σ' & Hrun & Hc' & Hfr & _).
    exists σ'. split; [done|]. split; [done|]. simpl.
    intros y [Hyx Hy]%list_elem_of_filter. destruct (Hpool y Hy) as [Hyd Hyn].
    split; [|set_solver]. unfold detached. rewrite Hfr; [done|set_solver].
  - case_decide as Hx; [|done]. injection Hstep as <- <-. destruct Hx as [Hx Hne].
    destruct (Hpool x Hx) as [Hd Hn].
    destruct (H_push_front σ l xs x Hc Hne Hn Hd) as (σ' & Hrun & Hc' & Hfr & _).
    exists σ'. split; [done|]. split; [done|]. simpl.
    intros y [Hyx Hy]%list_elem_of_filter. destruct (Hpool y Hy) as [Hyd Hyn].
    split; [|set_solver]. unfold detached. rewrite Hfr; [done|set_solver].
  - destruct (last xs) as [z|] eqn:Hz; [|done]. injection Hstep as <- <-.
    assert (xs = removelast xs ++ [z]) as Hxs.
    { destruct xs as [|x0 xs] using rev_ind; [done|].
      rewrite last_snoc in Hz. injection Hz as ->. by rewrite removelast_last. }
    rewrite Hxs in Hc.
    destruct (H_pop_back σ l _ z Hc) as (σ' & Hrun & Hc' & Hfr & _).
    exists σ'. split; [done|]. split; [done|]. simpl.
    intros y Hy. destruct (Hpool y Hy) as [Hyd Hyn]. rewrite Hxs in Hyn.
    split; [|set_solver]. unfold detached. rewrite Hfr; [done|set_solver].
  - destruct xs as [|x [|y xs]]; [done..|]. injection Hstep as <- <-.
    destruct (H_pop_front σ l x y xs Hc) as (σ' & Hrun & Hc' & Hfr & _).
    exists σ'. split; [done|]. split; [done|]. simpl.
    intros z Hz. destruct (Hpool z Hz) as [Hzd Hzn].
    split; [|set_solver]. unfold detached. rewrite Hfr; [done|set_solver].
  - injection Hstep as <- <-. exists σ. split; [by apply H_empty|done].
  - destruct xs as [|x xs]; [done|]. injection Hstep as <- <-.
    exists σ. split; [by eapply H_front|done].
  - destruct (last xs) as [z|] eqn:Hz; [|done]. injection Hstep as <- <-.
    exists σ. split; [by eapply H_back|done].
  - case_decide as Hlen; [|done]. injection Hstep as <- <-.
    exists σ. split; [by apply H_iterate|done].
Qed.

Lemma holds_run σ l st prog rs st' :
  holds chain σ l st → abs_run st prog = Some (rs, st') →
  ∃ σ', run (exec l) prog σ = Some (rs, σ') ∧ holds chain σ' l st'.
Proof.
  revert σ st rs. induction prog as [|o prog IH]; intros σ st rs Hh Hrun; simpl in *.
  - injection Hrun as <- <-. by exists σ.
  - destruct (abs_step st o) as [[r st1]|] eqn:Hstep; [|done].
    destruct (abs_run st1 prog) as [[rs1 st2]|] eqn:Hrest; [|done].
    injection Hrun as <- <-.
    destruct (holds_step σ l st o r st1 Hh Hstep) as (σ1 & Hrun1 & Hh1).
    destruct (IH σ1 st1 rs1 Hh1 Hrest) as (σ2 & Hrun2 & Hh2).
    exists σ2. split; [|done].
    unfold mbind, M_bind. by rewrite Hrun1, Hrun2.
Qed.

End refine.

Lemma run_then_done (m : M unit) σ σ' :
  m σ = Some (tt, σ') → (m;; mret Done) σ = Some (Done, σ').
Proof. intros Hm. unfold mbind, M_bind. by rewrite Hm. Qed.

Lemma header_refines σ l st prog rs st' :
  holds chain_h σ l st → abs_run st prog = Some (rs, st') →
  ∃ σ', run (exec_h l) prog σ = Some (rs, σ') ∧ holds chain_h σ' l st'.
Proof.
  apply holds_run.
  - intros σ0 l0 xs x Hc Hn Hd.
    destruct (header_keeps_push_back σ0 l0 xs x Hc Hn Hd) as (σ1 & Hrun & Hc' & Hfr).
    exists σ1. split; [by apply run_then_done|done].
  - intros σ0 l0 xs x Hc Hne Hn Hd.
    destruct (header_keeps_push_front σ0 l0 xs x Hc Hne Hn Hd) as (σ1 & Hrun & Hc' & Hfr).
    exists σ1. split; [by apply run_then_done|done].
  - intros σ0 l0 xs z Hc.
    destruct (header_keeps_pop_back σ0 l0 xs z Hc) as (σ1 & Hrun & Hc' & _ & Hfr).
    exists σ1. split; [by apply run_then_done|done].
  - intros σ0 l0 x y xs Hc.
    destruct (header_keeps_pop_front σ0 l0 x (y :: xs) Hc) as (σ1 & Hrun & Hc' & _ & Hfr);
      [done|].
    exists σ1. split; [by apply run_then_done|done].
  - intros σ0 l0 xs Hc. simpl. unfold mbind, M_bind.
    by rewrite (chain_h_empty σ0 l0 xs Hc).
  - intros σ0 l0 x xs Hc. simpl. unfold mbind, M_bind.
    by rewrite (chain_front (λ _, None) σ0 l0 x xs Hc).
  - intros σ0 l0 xs z Hc Hz. simpl. unfold mbind, M_bind.
    by rewrite (chain_back (λ _, None) σ0 l0 xs z Hc Hz).
  - intros σ0 l0 xs Hc Hlen. simpl. unfold mbind, M_bind.
    by rewrite (chain_h_to_list σ0 l0 xs 16 Hc Hlen).
Qed.

Lemma part_000_refines σ l st prog rs st' :
  holds chain_p σ l st → abs_run st prog = Some (rs, st') →
  ∃ σ', run (exec_p l) prog σ = Some (rs, σ') ∧ holds chain_p σ' l st'.
Proof.
  apply holds_run.
  - intros σ0 l0 xs x Hc Hn Hd.
    destruct (part_000_keeps_push_back σ0 l0 xs x Hc Hn Hd) as (σ1 & Hrun & Hc' & Hfr).
    exists σ1. split; [by apply run_then_done|done].
  - intros σ0 l0 xs x Hc Hne Hn Hd.
    destruct (part_000_keeps_push_front σ0 l0 xs x Hc I Hn Hd) as (σ1 & Hrun & Hc' & Hfr).
    exists σ1. split; [by apply run_then_done|done].
  - intros σ0 l0 xs z Hc.
    destruct (part_000_keeps_pop_back σ0 l0 xs z Hc) as (σ1 & Hrun & Hc' & _ & Hfr).
    exists σ1. split; [by apply run_then_done|done].
  - intros σ0 l0 x y xs Hc.
    destruct (part_000_keeps_pop_front σ0 l0 x (y :: xs) Hc I) as (σ1 & Hrun & Hc' & _ & Hfr).
    exists σ1. split; [by apply run_then_done|done].
  - intros σ0 l0 xs Hc. simpl. unfold mbind, M_bind.
    by rewrite (chain_p_empty σ0 l0 xs Hc).
  - intros σ0 l0 x xs Hc. simpl. unfold mbind, M_bind.
    by rewrite (chain_front (λ l, Some l) σ0 l0 x xs Hc).
  - intros σ0 l0 xs z Hc Hz. simpl. unfold mbind, M_bind.
    by rewrite (chain_back (λ l, Some l) σ0 l0 xs z Hc Hz).
  - intros σ0 l0 xs Hc Hlen. simpl. unfold mbind, M_bind.
    by rewrite (chain_p_to_list σ0 l0 xs 16 Hc Hlen).
Qed.

(** Both files observe the same on every program that stays within the
    preconditions and keeps away from [push_front] on an empty chain and from
    [pop_front] of the only member. *)
Lemma files_agree_on_safe_programs σh σp l st prog rs st' :
  holds chain_h σh l st → holds chain_p σp l st →
  abs_run st prog = Some (rs, st') →
  fst <$> run (exec_h l) prog σh = Some rs ∧
  fst <$> run (exec_p l) prog σp = Some rs.
Proof.
  intros Hh Hp Hrun.
  destruct (header_refines σh l st prog rs st' Hh Hrun) as (σh' & -> & _).
  destruct (part_000_refines σp l st prog rs st' Hp Hrun) as (σp' & -> & _).
  done.
Qed.

(** The same for the programs [run_h] and [run_p] start: a fresh list and
    the detached elements 1, 2, 3. *)
Lemma safe_programs_agree prog rs st' :
  abs_run ([], [1; 2; 3]) prog = Some (rs, st') →
  run_h prog = Some rs ∧ run_p prog = Some rs.
Proof.
  intros Hrun.
  set (σh := after (intrusive_list_h.new_list 100;; make_elements [1; 2; 3]) σ0).
  set (σp := after (part_000.new_list 100;; make_elements [1; 2; 3]) σ0).
  assert (holds chain_h σh 100 ([], [1; 2; 3])) as Hh.
  { split; [apply (bool_decide_unpack _); by vm_compute|]. simpl.
    intros x Hx. repeat (apply elem_of_cons in Hx as [->|Hx]);
      [split; apply (bool_decide_unpack _); by vm_compute..|].
    by apply elem_of_nil in Hx. }
  assert (holds chain_p σp 100 ([], [1; 2; 3])) as Hp.
  { split; [apply (bool_decide_unpack _); by vm_compute|]. simpl.
    intros x Hx. repeat (apply elem_of_cons in Hx as [->|Hx]);
      [split; apply (bool_decide_unpack _); by vm_compute..|].
    by apply elem_of_nil in Hx. }
  destruct (files_agree_on_safe_programs σh σp 100 _ prog rs st' Hh Hp Hrun) as [H1 H2].
  split.
  - rewrite <-H1. unfold run_h.
    change ((intrusive_list_h.new_list 100;; make_elements [1; 2; 3];;
             run (exec_h 100) prog) σ0) with (run (exec_h 100) prog σh). done.
  - rewrite <-H2. unfold run_p.
    change ((part_000.new_list 100;; make_elements [1; 2; 3];;
             run (exec_p 100) prog) σ0) with (run (exec_p 100) prog σp). done.
Qed.

(** * The claims *)

(** A closed decidable proposition holds when its decision procedure says
    so. *)
Ltac by_decision := apply (bool_decide_unpack _); vm_compute; exact I.

(** C10. In both files [erase] called with [pos == end()] takes the [else]
    branch of its only test: it returns [end()] and leaves the whole store,
    every link and every [first], as it was. *)
Theorem erase_at_end_is_noop (l : loc) (σ : state) :
  erase l (end_ l) σ = Some (end_ l, σ).
Proof.
  unfold erase, iter_eq. by rewrite bool_decide_eq_true_2.
Qed.

(** C2. In a chain whose members are [e1, e2, e3, e4, e5], in either file,
    [splice(pos of e5, A, pos of e2, pos of e4)] on the chain itself runs
    without undefined behaviour and leaves the chain well formed with members
    [e1, e4, e2, e3, e5]; a traversal from [begin()] to [end()] yields that
    sequence.  Run on the chain built by five [push_back] calls with the
    cursors taken by stepping from [begin()], both files yield
    [1, 4, 2, 3, 5]. *)
Theorem self_splice_moves_range :
  (∀ σ l e1 e2 e3 e4 e5,
     chain_h σ l [e1; e2; e3; e4; e5] →
     ∃ σ', intrusive_list_h.splice l (Some e5) l (Some e2) (Some e4) σ = Some (tt, σ') ∧
           chain_h σ' l [e1; e4; e2; e3; e5] ∧
           to_list_h 6 l σ' = Some ([e1; e4; e2; e3; e5], σ')) ∧
  (∀ σ l e1 e2 e3 e4 e5,
     chain_p σ l [e1; e2; e3; e4; e5] →
     ∃ σ', part_000.splice l (Some e5) l (Some e2) (Some e4) σ = Some (tt, σ') ∧
           chain_p σ' l [e1; e4; e2; e3; e5] ∧
           to_list_p 6 l σ' = Some ([e1; e4; e2; e3; e5], σ')) ∧
  fst <$> self_splice_h σ0 = Some [1; 4; 2; 3; 5] ∧
  fst <$> self_splice_p σ0 = Some [1; 4; 2; 3; 5].
Proof.
  split; [|split; [|split; by vm_compute]].
  - intros σ l e1 e2 e3 e4 e5 Hc.
    destruct (header_keeps_splice_forward σ l [e1] [e2; e3] [e4] [e5] e2 e4 Hc eq_refl eq_refl)
      as (σ' & Hrun & Hc' & _).
    exists σ'. split; [exact Hrun|]. split; [exact Hc'|].
    apply chain_h_to_list; [exact Hc'|simpl; lia].
  - intros σ l e1 e2 e3 e4 e5 Hc.
    destruct (part_000_keeps_splice_forward σ l [e1] [e2; e3] [e4] [e5] e2 e4 Hc eq_refl eq_refl)
      as (σ' & Hrun & Hc' & _).
    exists σ'. split; [exact Hrun|]. split; [exact Hc'|].
    apply chain_p_to_list; [exact Hc'|simpl; lia].
Qed.

Lemma self_splice_moves_range_witness :
  let σh := after (fill_h 100 [1; 2; 3; 4; 5]) σ0 in
  let σp := after (fill_p 100 [1; 2; 3; 4; 5]) σ0 in
  chain_h σh 100 [1; 2; 3; 4; 5] ∧ chain_p σp 100 [1; 2; 3; 4; 5] ∧
  (∃ σ', intrusive_list_h.splice 100 (Some 5) 100 (Some 2) (Some 4) σh = Some (tt, σ') ∧
         chain_h σ' 100 [1; 4; 2; 3; 5] ∧
         to_list_h 6 100 σ' = Some ([1; 4; 2; 3; 5], σ')) ∧
  (∃ σ', part_000.splice 100 (Some 5) 100 (Some 2) (Some 4) σp = Some (tt, σ') ∧
         chain_p σ' 100 [1; 4; 2; 3; 5] ∧
         to_list_p 6 100 σ' = Some ([1; 4; 2; 3; 5], σ')).
Proof.
  intros σh σp.
  assert (chain_h σh 100 [1; 2; 3; 4; 5]) as Hh by by_decision.
  assert (chain_p σp 100 [1; 2; 3; 4; 5]) as Hp by by_decision.
  split; [exact Hh|]. split; [exact Hp|]. split.
  - exact (proj1 self_splice_moves_range σh 100 1 2 3 4 5 Hh).
  - exact (proj1 (proj2 self_splice_moves_range) σp 100 1 2 3 4 5 Hp).
Defined.

(** C7. In either file, [erase(pos)] at a member [x] of a well-formed chain
    runs without undefined behaviour, returns the cursor to the position
    that followed [x] (the next member, or [end()]), and leaves the other
    members linked in their old order: a traversal from [begin()] to [end()]
    yields the old sequence without [x].  After [push_back] of 10, 20, 30,
    [*begin()] is 10, [erase(++begin())] returns the cursor to 30 and the
    traversal yields [10, 30]. *)
Theorem erase_removes_member :
  (∀ σ l xs1 x xs2,
     chain_h σ l (xs1 ++ x :: xs2) →
     ∃ σ', erase l (Some x) σ = Some (head_or xs2 (Some l), σ') ∧
           linked (links σ') l (xs1 ++ xs2) ∧
           ∀ fuel, length (xs1 ++ xs2) < fuel →
                   to_list_h fuel l σ' = Some (xs1 ++ xs2, σ')) ∧
  (∀ σ l xs1 x xs2,
     chain_p σ l (xs1 ++ x :: xs2) →
     ∃ σ', erase l (Some x) σ = Some (head_or xs2 (Some l), σ') ∧
           chain_p σ' l (xs1 ++ xs2) ∧
           ∀ fuel, length (xs1 ++ xs2) < fuel →
                   to_list_p fuel l σ' = Some (xs1 ++ xs2, σ')) ∧
  fst <$> erase_second_h σ0 = Some (10, Some 30, [10; 30]) ∧
  fst <$> erase_second_p σ0 = Some (10, Some 30, [10; 30]).
Proof.
  split; [|split; [|split; by vm_compute]].
  - intros σ l xs1 x xs2 Hc.
    destruct (erase_spec (λ _, None) σ l xs1 x xs2 Hc)
      as (r & σ' & Hrun & -> & Hl & Hf & _).
    exists σ'. rewrite head_or_sentinel. split; [exact Hrun|]. split; [exact Hl|].
    intros fuel Hfuel. by apply to_list_h_linked.
  - intros σ l xs1 x xs2 Hc.
    destruct (part_000_keeps_erase σ l xs1 x xs2 Hc I) as (σ' & Hrun & Hc' & _).
    exists σ'. split; [exact Hrun|]. split; [exact Hc'|].
    intros fuel Hfuel. by apply chain_p_to_list.
Qed.

Lemma erase_removes_member_witness :
  let σh := after (fill_h 100 [10; 20; 30]) σ0 in
  let σp := after (fill_p 100 [10; 20; 30]) σ0 in
  chain_h σh 100 ([10] ++ 20 :: [30]) ∧ chain_p σp 100 ([10] ++ 20 :: [30]) ∧
  (∃ σ', erase 100 (Some 20) σh = Some (Some 30, σ') ∧
         linked (links σ') 100 [10; 30] ∧
         ∀ fuel, 2 < fuel → to_list_h fuel 100 σ' = Some ([10; 30], σ')) ∧
  (∃ σ', erase 100 (Some 20) σp = Some (Some 30, σ') ∧
         chain_p σ' 100 [10; 30] ∧
         ∀ fuel, 2 < fuel → to_list_p fuel 100 σ' = Some ([10; 30], σ')).
Proof.
  intros σh σp.
  assert (chain_h σh 100 ([10] ++ 20 :: [30])) as Hh by by_decision.
  assert (chain_p σp 100 ([10] ++ 20 :: [30])) as Hp by by_decision.
  split; [exact Hh|]. split; [exact Hp|]. split.
  - exact (proj1 erase_removes_member σh 100 [10] 20 [30] Hh).
  - exact (proj1 (proj2 erase_removes_member) σp 100 [10] 20 [30] Hp).
Defined.

(** C1. In either file: the receiver [l] and the donor are well-formed
    chains at different addresses, the donor is not empty, and [pos] is a
    position of the receiver (the member that starts [r2], or [end()] when
    [r2] is empty).  Then [splice(pos, donor, donor.begin(), donor.end())]
    runs without undefined behaviour; afterwards the donor is a well-formed
    empty chain ([empty()] is true) and the receiver is a well-formed chain
    whose members are its old ones with all the donor's old members, in
    their order, put in just before [pos]; a traversal yields that
    sequence. *)
Theorem splice_whole_donor :
  (∀ σ l donor r1 r2 ys,
     chain_h σ l (r1 ++ r2) → chain_h σ donor ys → ys ≠ [] → l ≠ donor →
     ∃ σ', (b ← intrusive_list_h.begin donor;
            intrusive_list_h.splice l (head_or r2 (Some l)) donor b (end_ donor)) σ
             = Some (tt, σ') ∧
           chain_h σ' l (r1 ++ ys ++ r2) ∧ chain_h σ' donor [] ∧
           intrusive_list_h.empty donor σ' = Some (true, σ') ∧
           ∀ fuel, length (r1 ++ ys ++ r2) < fuel →
                   to_list_h fuel l σ' = Some (r1 ++ ys ++ r2, σ')) ∧
  (∀ σ l donor r1 r2 ys,
     chain_p σ l (r1 ++ r2) → chain_p σ donor ys → ys ≠ [] → l ≠ donor →
     ∃ σ', (b ← part_000.begin donor;
            part_000.splice l (head_or r2 (Some l)) donor b (end_ donor)) σ
             = Some (tt, σ') ∧
           chain_p σ' l (r1 ++ ys ++ r2) ∧ chain_p σ' donor [] ∧
           part_000.empty donor σ' = Some (true, σ') ∧
           ∀ fuel, length (r1 ++ ys ++ r2) < fuel →
                   to_list_p fuel l σ' = Some (r1 ++ ys ++ r2, σ')).
Proof.
  split.
  - intros σ l donor r1 r2 ys Hl Hd Hne Hld.
    assert (NoDup ((r1 ++ r2 ++ [l]) ++ ys ++ [donor])) as Hnd.
    { rewrite (assoc_L (++) r1 r2 [l]). eapply chains_disjoint; [apply Hl|apply Hd|done]. }
    destruct (splice_whole_h σ l donor r1 r2 ys Hl Hd Hne Hnd)
      as ([] & σ' & Hrun & H1 & H2 & _).
    exists σ'. split; [exact Hrun|]. split; [exact H1|]. split; [exact H2|]. split.
    + by rewrite (chain_h_empty σ' donor [] H2).
    + intros fuel Hfuel. by apply chain_h_to_list.
  - intros σ l donor r1 r2 ys Hl Hd Hne Hld.
    assert (NoDup ((r1 ++ r2 ++ [l]) ++ ys ++ [donor])) as Hnd.
    { rewrite (assoc_L (++) r1 r2 [l]). eapply chains_disjoint; [apply Hl|apply Hd|done]. }
    destruct (splice_whole_p σ l donor r1 r2 ys Hl Hd Hne Hnd)
      as ([] & σ' & Hrun & H1 & H2 & _).
    exists σ'. split; [exact Hrun|]. split; [exact H1|]. split; [exact H2|]. split.
    + by rewrite (chain_p_empty σ' donor [] H2).
    + intros fuel Hfuel. by apply chain_p_to_list.
Qed.

Lemma splice_whole_donor_witness :
  let σh := after (fill_h 100 [1; 2; 3];; new_element 4 None None;; fill_h 200 [5; 6]) σ0 in
  let σp := after (fill_p 100 [1; 2; 3];; new_element 4 None None;; fill_p 200 [5; 6]) σ0 in
  (chain_h σh 100 ([1] ++ [2; 3]) ∧ chain_h σh 200 [5; 6] ∧ [5; 6] ≠ [] ∧ 100 ≠ 200) ∧
  (chain_p σp 100 ([1] ++ [2; 3]) ∧ chain_p σp 200 [5; 6]) ∧
  (∃ σ', (b ← intrusive_list_h.begin 200;
          intrusive_list_h.splice 100 (Some 2) 200 b (end_ 200)) σh = Some (tt, σ') ∧
         chain_h σ' 100 [1; 5; 6; 2; 3] ∧ chain_h σ' 200 [] ∧
         intrusive_list_h.empty 200 σ' = Some (true, σ') ∧
         ∀ fuel, 5 < fuel → to_list_h fuel 100 σ' = Some ([1; 5; 6; 2; 3], σ')) ∧
  (∃ σ', (b ← part_000.begin 200;
          part_000.splice 100 (Some 2) 200 b (end_ 200)) σp = Some (tt, σ') ∧
         chain_p σ' 100 [1; 5; 6; 2; 3] ∧ chain_p σ' 200 [] ∧
         part_000.empty 200 σ' = Some (true, σ') ∧
         ∀ fuel, 5 < fuel → to_list_p fuel 100 σ' = Some ([1; 5; 6; 2; 3], σ')).
Proof.
  intros σh σp.
  assert (chain_h σh 100 ([1] ++ [2; 3])) as Hh1 by by_decision.
  assert (chain_h σh 200 [5; 6]) as Hh2 by by_decision.
  assert (chain_p σp 100 ([1] ++ [2; 3])) as Hp1 by by_decision.
  assert (chain_p σp 200 [5; 6]) as Hp2 by by_decision.
  assert ([5; 6] ≠ ([] : list nat)) as Hne by discriminate.
  assert (100 ≠ 200) as Hld by lia.
  split; [exact (conj Hh1 (conj Hh2 (conj Hne Hld)))|].
  split; [exact (conj Hp1 Hp2)|]. split.
  - exact (proj1 splice_whole_donor σh 100 200 [1] [2; 3] [5; 6] Hh1 Hh2 Hne Hld).
  - exact (proj2 splice_whole_donor σp 100 200 [1] [2; 3] [5; 6] Hp1 Hp2 Hne Hld).
Defined.

(** The moves from a source that is a well-formed chain of the file in use;
    in intrusive_list.h this takes [first] to be null when there is no
    member, as the constructor, [clear()], [pop_back()], [splice] and the
    moves themselves leave it.  Move-assignment into a list object at
    another address, and move-construction of a list at a fresh address, run
    without undefined behaviour; afterwards the target is a well-formed
    chain whose members are the source's old members in their order (a
    traversal yields them) and the source is a well-formed empty chain
    ([empty()] is true).  part_000 writes both as a [splice] of the whole
    source; move-assignment of intrusive_list.h, written out by hand, ends
    in the same store as [clear()] followed by that [splice]. *)
Theorem move_transfers_members :
  (∀ σ l other xs,
     chain_h σ other xs → list_object σ l → l ≠ other →
     intrusive_list_h.move_assign l other σ =
       (intrusive_list_h.clear l;;
        b ← intrusive_list_h.begin l;
        ob ← intrusive_list_h.begin other;
        intrusive_list_h.splice l b other ob (end_ other)) σ) ∧
  (∀ σ l other xs,
     chain_h σ other xs → list_object σ l → l ≠ other →
     ∃ σ', intrusive_list_h.move_assign l other σ = Some (tt, σ') ∧
           chain_h σ' l xs ∧ chain_h σ' other [] ∧
           intrusive_list_h.empty other σ' = Some (true, σ') ∧
           ∀ fuel, length xs < fuel → to_list_h fuel l σ' = Some (xs, σ')) ∧
  (∀ σ l other xs,
     chain_h σ other xs → links σ !! l = None →
     ∃ σ', intrusive_list_h.move_construct l other σ = Some (tt, σ') ∧
           chain_h σ' l xs ∧ chain_h σ' other [] ∧
           intrusive_list_h.empty other σ' = Some (true, σ') ∧
           ∀ fuel, length xs < fuel → to_list_h fuel l σ' = Some (xs, σ')) ∧
  (∀ σ l other xs,
     chain_p σ other xs → list_object σ l → l ≠ other →
     ∃ σ', part_000.move_assign l other σ = Some (tt, σ') ∧
           chain_p σ' l xs ∧ chain_p σ' other [] ∧
           part_000.empty other σ' = Some (true, σ') ∧
           ∀ fuel, length xs < fuel → to_list_p fuel l σ' = Some (xs, σ')) ∧
  (∀ σ l other xs,
     chain_p σ other xs → links σ !! l = None →
     ∃ σ', part_000.move_construct l other σ = Some (tt, σ') ∧
           chain_p σ' l xs ∧ chain_p σ' other [] ∧
           part_000.empty other σ' = Some (true, σ') ∧
           ∀ fuel, length xs < fuel → to_list_p fuel l σ' = Some (xs, σ')).
Proof.
  assert (∀ σ l other xs, linked (links σ) other xs → list_object σ l → l ≠ other →
            l ∉ xs ++ [other]) as Hnotin.
  { intros σ l other xs Hl Hobj Hne [Hin| ->%list_elem_of_singleton]%elem_of_app; [|done].
    by eapply list_object_not_member. }
  split; [|split; [|split; [|split]]].
  - intros σ l other xs Hc Hobj Hne.
    apply (move_assign_h_as_splice σ l other xs Hc); [|done].
    exact (Hnotin _ _ _ _ (proj1 Hc) Hobj Hne).
  - intros σ l other xs Hc Hobj Hne.
    destruct (header_keeps_move_assign σ l other xs Hc (Hnotin _ _ _ _ (proj1 Hc) Hobj Hne) Hobj)
      as (σ' & Hrun & H1 & H2 & _).
    exists σ'. split; [exact Hrun|]. split; [exact H1|]. split; [exact H2|]. split.
    + by rewrite (chain_h_empty σ' other [] H2).
    + intros fuel Hfuel. by apply chain_h_to_list.
  - intros σ l other xs Hc Hfresh.
    destruct (header_keeps_move_construct σ l other xs Hc
                (fresh_not_member _ _ _ _ Hfresh (proj1 Hc)))
      as (σ' & Hrun & H1 & H2 & _).
    exists σ'. split; [exact Hrun|]. split; [exact H1|]. split; [exact H2|]. split.
    + by rewrite (chain_h_empty σ' other [] H2).
    + intros fuel Hfuel. by apply chain_h_to_list.
  - intros σ l other xs Hc Hobj Hne.
    destruct (part_000_keeps_move_assign σ l other xs Hc (Hnotin _ _ _ _ (proj1 Hc) Hobj Hne) Hobj)
      as (σ' & Hrun & H1 & H2 & _).
    exists σ'. split; [exact Hrun|]. split; [exact H1|]. split; [exact H2|]. split.
    + by rewrite (chain_p_empty σ' other [] H2).
    + intros fuel Hfuel. by apply chain_p_to_list.
  - intros σ l other xs Hc Hfresh.
    destruct (part_000_keeps_move_construct σ l other xs Hc
                (fresh_not_member _ _ _ _ Hfresh (proj1 Hc)))
      as (σ' & Hrun & H1 & H2 & _).
    exists σ'. split; [exact Hrun|]. split; [exact H1|]. split; [exact H2|]. split.
    + by rewrite (chain_p_empty σ' other [] H2).
    + intros fuel Hfuel. by apply chain_p_to_list.
Qed.

Lemma move_transfers_members_witness :
  let σh := after (fill_h 100 [1; 2; 3];; new_element 4 None None;; fill_h 200 [5; 6]) σ0 in
  let σp := after (fill_p 100 [1; 2; 3];; new_element 4 None None;; fill_p 200 [5; 6]) σ0 in
  (chain_h σh 100 [1; 2; 3] ∧ list_object σh 200 ∧ 200 ≠ 100 ∧ links σh !! 300 = None) ∧
  (chain_p σp 100 [1; 2; 3] ∧ list_object σp 200 ∧ links σp !! 300 = None) ∧
  intrusive_list_h.move_assign 200 100 σh =
    (intrusive_list_h.clear 200;;
     b ← intrusive_list_h.begin 200;
     ob ← intrusive_list_h.begin 100;
     intrusive_list_h.splice 200 b 100 ob (end_ 100)) σh ∧
  (∃ σ', intrusive_list_h.move_assign 200 100 σh = Some (tt, σ') ∧
         chain_h σ' 200 [1; 2; 3] ∧ chain_h σ' 100 [] ∧
         intrusive_list_h.empty 100 σ' = Some (true, σ') ∧
         ∀ fuel, 3 < fuel → to_list_h fuel 200 σ' = Some ([1; 2; 3], σ')) ∧
  (∃ σ', intrusive_list_h.move_construct 300 100 σh = Some (tt, σ') ∧
         chain_h σ' 300 [1; 2; 3] ∧ chain_h σ' 100 [] ∧
         intrusive_list_h.empty 100 σ' = Some (true, σ') ∧
         ∀ fuel, 3 < fuel → to_list_h fuel 300 σ' = Some ([1; 2; 3], σ')) ∧
  (∃ σ', part_000.move_assign 200 100 σp = Some (tt, σ') ∧
         chain_p σ' 200 [1; 2; 3] ∧ chain_p σ' 100 [] ∧
         part_000.empty 100 σ' = Some (true, σ') ∧
         ∀ fuel, 3 < fuel → to_list_p fuel 200 σ' = Some ([1; 2; 3], σ')) ∧
  (∃ σ', part_000.move_construct 300 100 σp = Some (tt, σ') ∧
         chain_p σ' 300 [1; 2; 3] ∧ chain_p σ' 100 [] ∧
         part_000.empty 100 σ' = Some (true, σ') ∧
         ∀ fuel, 3 < fuel → to_list_p fuel 300 σ' = Some ([1; 2; 3], σ')).
Proof.
  intros σh σp.
  assert (chain_h σh 100 [1; 2; 3]) as Hh by by_decision.
  assert (list_object σh 200) as Hoh by by_decision.
  assert (links σh !! 300 = None) as Hfh by (vm_compute; reflexivity).
  assert (chain_p σp 100 [1; 2; 3]) as Hp by by_decision.
  assert (list_object σp 200) as Hop by by_decision.
  assert (links σp !! 300 = None) as Hfp by (vm_compute; reflexivity).
  assert (200 ≠ 100) as Hne by lia.
  split; [exact (conj Hh (conj Hoh (conj Hne Hfh)))|].
  split; [exact (conj Hp (conj Hop Hfp))|].
  destruct move_transfers_members as (M1 & M2 & M3 & M4 & M5).
  split; [|split; [|split; [|split]]].
  - exact (M1 σh 200 100 [1; 2; 3] Hh Hoh Hne).
  - exact (M2 σh 200 100 [1; 2; 3] Hh Hoh Hne).
  - exact (M3 σh 300 100 [1; 2; 3] Hh Hfh).
  - exact (M4 σp 200 100 [1; 2; 3] Hp Hop Hne).
  - exact (M5 σp 300 100 [1; 2; 3] Hp Hfp).
Defined.

(** C8 (the code of intrusive_list.h breaks it).  A list that got one member
    by [push_back] and lost it by [pop_front()] has no member: [begin()] is
    [end()] and the traversal yields nothing.  In intrusive_list.h
    [pop_front] (lines 213-215, as [erase] in line 276) has left its [first]
    at [&after_last], and [operator=(list &&)] (lines 147-152) copies that
    pointer: after move-assignment into a fresh list the target's [first] is
    the address of the source's sentinel, the target's [empty()] answers
    [false] and its traversal goes through the source's sentinel into a null
    cursor, whatever the fuel.  [clear()] followed by the [splice] of the
    whole source, started in the same store, leaves the target's [first]
    null.  Move-construction calls the same operator.  part_000, run on the
    same calls, leaves two well-formed empty chains. *)
Theorem move_from_emptied_list_copies_first :
  let σh := after (fill_h 100 [1];; intrusive_list_h.pop_front 100;;
                   intrusive_list_h.new_list 200) σ0 in
  let σp := after (fill_p 100 [1];; part_000.pop_front 100;;
                   part_000.new_list 200) σ0 in
  (intrusive_list_h.begin 100 σh = Some (end_ 100, σh) ∧
   to_list_h 2 100 σh = Some ([], σh) ∧
   firsts σh !! 100 = Some (Some 100)) ∧
  (∃ σ', intrusive_list_h.move_assign 200 100 σh = Some (tt, σ') ∧
         firsts σ' !! 200 = Some (Some 100) ∧
         intrusive_list_h.empty 200 σ' = Some (false, σ') ∧
         ∀ fuel, to_list_h fuel 200 σ' = None) ∧
  (∃ σ', (intrusive_list_h.clear 200;;
          b ← intrusive_list_h.begin 200;
          ob ← intrusive_list_h.begin 100;
          intrusive_list_h.splice 200 b 100 ob (end_ 100)) σh = Some (tt, σ') ∧
         firsts σ' !! 200 = Some None ∧
         intrusive_list_h.empty 200 σ' = Some (true, σ')) ∧
  (∃ σ', intrusive_list_h.move_construct 300 100 σh = Some (tt, σ') ∧
         firsts σ' !! 300 = Some (Some 100) ∧
         intrusive_list_h.empty 300 σ' = Some (false, σ') ∧
         ∀ fuel, to_list_h fuel 300 σ' = None) ∧
  (∃ σ', part_000.move_assign 200 100 σp = Some (tt, σ') ∧
         chain_p σ' 200 [] ∧ chain_p σ' 100 [] ∧
         part_000.empty 200 σ' = Some (true, σ') ∧
         to_list_p 2 200 σ' = Some ([], σ')) ∧
  (∃ σ', part_000.move_construct 300 100 σp = Some (tt, σ') ∧
         chain_p σ' 300 [] ∧ chain_p σ' 100 [] ∧
         part_000.empty 300 σ' = Some (true, σ') ∧
         to_list_p 2 300 σ' = Some ([], σ')).
Proof.
  intros σh σp.
  split; [by vm_compute|]. split; [|split; [|split; [|split]]].
  - exists (after (intrusive_list_h.move_assign 200 100) σh).
    split; [by vm_compute|]. split; [by vm_compute|]. split; [by vm_compute|].
    intros [|[|fuel]]; by vm_compute.
  - exists (after (intrusive_list_h.clear 200;;
                   b ← intrusive_list_h.begin 200;
                   ob ← intrusive_list_h.begin 100;
                   intrusive_list_h.splice 200 b 100 ob (end_ 100)) σh).
    by vm_compute.
  - exists (after (intrusive_list_h.move_construct 300 100) σh).
    split; [by vm_compute|]. split; [by vm_compute|]. split; [by vm_compute|].
    intros [|[|fuel]]; by vm_compute.
  - exists (after (part_000.move_assign 200 100) σp).
    split; [by vm_compute|]. split; [by_decision|]. split; [by_decision|].
    by vm_compute.
  - exists (after (part_000.move_construct 300 100) σp).
    split; [by vm_compute|]. split; [by_decision|]. split; [by_decision|].
    by vm_compute.
Qed.

(** The same for every list of intrusive_list.h that has no member and whose
    [first] is [&after_last], and every target list object. *)
Lemma move_assign_h_from_emptied σ l other :
  l ≠ other → list_object σ l →
  linked (links σ) other [] → firsts σ !! other = Some (Some other) →
  ∃ σ', intrusive_list_h.move_assign l other σ = Some (tt, σ') ∧
        firsts σ' !! l = Some (Some other) ∧
        intrusive_list_h.empty l σ' = Some (false, σ') ∧
        ∀ fuel, to_list_h fuel l σ' = None.
Proof.
  intros Hlo (p & v & Hl & Hv)%list_object_lookup Ho Hfo.
  pose proof (linked_lookup_sentinel _ _ _ Ho) as Hos. simpl in Hos.
  destruct σ as [h f]. simpl in *.
  assert (tracked h h [(p, [l], None); (None, [other], None)]) as Ht.
  { apply tracked_start. split.
    - simpl. apply NoDup_cons. split; [set_solver|apply NoDup_singleton].
    - by forall_pieces. }
  cut (wp (intrusive_list_h.move_assign l other) (mk_state h f) (λ _ σ',
         firsts σ' !! l = Some (Some other) ∧
         links σ' !! other = Some (mk_element None None))).
  { intros ([] & [h' f'] & Hr & Hf' & Ho'). simpl in *.
    exists (mk_state h' f'). split; [done|]. split; [done|]. split.
    - unfold intrusive_list_h.empty. by rewrite bind_eq, (rd_first_run _ _ _ _ Hf').
    - intros fuel. unfold to_list_h. rewrite bind_eq, (begin_h_run _ _ _ _ Hf').
      destruct fuel as [|fuel]; [done|]. simpl.
      unfold iter_eq. rewrite bool_decide_eq_false_2 by (unfold end_; congruence).
      rewrite !bind_eq. simpl. rewrite bind_eq, (rd_next_run _ _ _ _ Ho'). simpl.
      by destruct fuel. }
  unfold intrusive_list_h.move_assign.
  rd_first_go. wr_first_go. rd_prev_at 1. wr_prev_at 0. rd_prev_at 0.
  apply wp_bind, wp_ret. wr_first_go. wr_prev_at 1. open_tracked Ht.
  destruct Hs0 as [Hs0 _]. simpl. split; [|done].
  by rewrite lookup_insert_ne, lookup_insert_eq.
Qed.

(** C3 (the code of part_000 breaks it).  Chain [1, 2, 3] built by
    [push_back]; [unlink] is called twice on the middle link 2.  After the
    first call link 1 points on to 3.  The first call also nulled the
    link's own [next] and kept its [prev], so the second call writes that
    null into link 1: the chain is cut after its first member.  In
    intrusive_list.h the second call leaves the store as the first call left
    it. *)
Theorem part_000_second_unlink_cuts_chain :
  (∃ σ1 σ2,
     (fill_p 100 [1; 2; 3];; part_000.unlink 2) σ0 = Some (tt, σ1) ∧
     part_000.unlink 2 σ1 = Some (tt, σ2) ∧
     links σ1 !! 1 = Some (mk_element None (Some 3)) ∧
     links σ2 !! 1 = Some (mk_element None None)) ∧
  (∃ σ1,
     (fill_h 100 [1; 2; 3];; intrusive_list_h.unlink 2) σ0 = Some (tt, σ1) ∧
     intrusive_list_h.unlink 2 σ1 = Some (tt, σ1) ∧
     links σ1 !! 1 = Some (mk_element None (Some 3))).
Proof.
  split.
  - exists (after (fill_p 100 [1; 2; 3];; part_000.unlink 2) σ0),
           (after (fill_p 100 [1; 2; 3];; part_000.unlink 2;; part_000.unlink 2) σ0).
    by vm_compute.
  - exists (after (fill_h 100 [1; 2; 3];; intrusive_list_h.unlink 2) σ0).
    by vm_compute.
Qed.

(** The same for every link of part_000 that has two neighbours. *)
Lemma part_000_unlink_twice h f this pp nn :
  h !! this = Some (mk_element (Some pp) (Some nn)) →
  pp ≠ this → nn ≠ this → is_Some (h !! pp) → is_Some (h !! nn) →
  ∃ σ1 σ2,
    part_000.unlink this (mk_state h f) = Some (tt, σ1) ∧
    part_000.unlink this σ1 = Some (tt, σ2) ∧
    next <$> links σ1 !! pp = Some (Some nn) ∧
    next <$> links σ2 !! pp = Some None.
Proof.
  intros Ht Hp Hn Hpa Hna.
  destruct (unlink_p_spec h f this (Some pp) (Some nn) Ht)
    as ([] & [h1 f1] & Hrun1 & Hf1 & H1 & _).
  { by intros ? [= <-]. }
  { by intros ? [= <-]. }
  simpl in *. subst f1. destruct (H1 pp eq_refl) as (Hpp & Hthis & Hoth).
  destruct (unlink_p_spec h1 f this (Some pp) None Hthis)
    as ([] & [h2 f2] & Hrun2 & Hf2 & H2 & _).
  { intros ? [= <-]. split; [done|]. destruct (h1 !! pp); [eauto|done]. }
  { done. }
  simpl in *. destruct (H2 pp eq_refl) as (Hpp2 & _).
  exists (mk_state h1 f), (mk_state h2 f2). by repeat split.
Qed.




(** C6 (the code breaks it).  Destroying the first member of the chain
    [1, 2]: in both files the list's [first] still holds the address of the
    destroyed link, whose storage is gone, and the traversal from [begin()]
    runs into it.  Destroying the middle member of [1, 2, 3] in part_000:
    link 3 still names the destroyed link as its [prev].  In intrusive_list.h
    destroying the middle member leaves the well-formed chain [1, 3]. *)
Theorem destroy_leaves_dangling_reference :
  (∃ σ', (fill_h 100 [1; 2];; intrusive_list_h.destroy 1) σ0 = Some (tt, σ') ∧
         links σ' !! 1 = None ∧ firsts σ' !! 100 = Some (Some 1) ∧
         to_list_h 4 100 σ' = None) ∧
  (∃ σ', (fill_p 100 [1; 2];; part_000.destroy 1) σ0 = Some (tt, σ') ∧
         links σ' !! 1 = None ∧ firsts σ' !! 100 = Some (Some 1) ∧
         to_list_p 4 100 σ' = None) ∧
  (∃ σ', (fill_p 100 [1; 2; 3];; part_000.destroy 2) σ0 = Some (tt, σ') ∧
         links σ' !! 2 = None ∧
         links σ' !! 3 = Some (mk_element (Some 2) (Some 100))) ∧
  (∃ σ', (fill_h 100 [1; 2; 3];; intrusive_list_h.destroy 2) σ0 = Some (tt, σ') ∧
         links σ' !! 2 = None ∧ chain_h σ' 100 [1; 3]).
Proof.
  split; [|split; [|split]].
  - exists (after (fill_h 100 [1; 2];; intrusive_list_h.destroy 1) σ0). by vm_compute.
  - exists (after (fill_p 100 [1; 2];; part_000.destroy 1) σ0). by vm_compute.
  - exists (after (fill_p 100 [1; 2; 3];; part_000.destroy 2) σ0). by vm_compute.
  - exists (after (fill_h 100 [1; 2; 3];; intrusive_list_h.destroy 2) σ0).
    split; [by vm_compute|]. split; [by vm_compute|]. by_decision.
Qed.

(** C9 (the code of intrusive_list.h breaks it).  On a fresh list,
    [push_back(x); pop_front(); empty()] answers [false] in
    intrusive_list.h and [true] in part_000; [push_front(x)] followed by a
    traversal runs into a null cursor in intrusive_list.h and yields [x] in
    part_000. *)
Theorem realizations_disagree :
  run_h [PushBack 1; PopFront; Empty] = Some [Done; Done; Flag false] ∧
  run_p [PushBack 1; PopFront; Empty] = Some [Done; Done; Flag true] ∧
  run_h [PushFront 1; Iterate] = None ∧
  run_p [PushFront 1; Iterate] = Some [Done; Seq [1]].
Proof. by vm_compute. Qed.




(** * Further properties of the code *)

(** ** Cursors *)

Lemma advance_null_h k σ :
  advance intrusive_list_h.incr k None σ = Some (None, σ) ∧
  advance intrusive_list_h.decr k None σ = Some (None, σ).
Proof. induction k as [|k [IH1 IH2]]; [done|]. simpl. by rewrite !bind_eq. Qed.

Lemma advance_null_p k σ :
  0 < k →
  advance part_000.incr k None σ = None ∧ advance part_000.decr k None σ = None.
Proof. destruct k; [lia|]. done. Qed.

(** Following [next] from the head of a run that ends in null. *)
Lemma walk_next incr h f p xs k :
  (∀ x, incr (Some x) = rd_next (Some x)) →
  seg h p xs None → k ≤ length xs →
  advance incr k (head xs) (mk_state h f) = Some (xs !! k, mk_state h f).
Proof.
  intros Hincr. revert p k. induction xs as [|x xs IH]; intros p k Hs Hk.
  - simpl in Hk. by replace k with 0 by lia.
  - destruct k as [|k]; [done|]. simpl in *. destruct Hs as [Hx Hs].
    rewrite bind_eq, Hincr, (rd_next_run _ _ _ _ Hx). simpl.
    rewrite head_or_None. apply (IH (Some x)); [done|lia].
Qed.

(** Following [prev] from the last node of a run that starts at null. *)
Lemma walk_prev decr h f xs e k :
  (∀ x, decr (Some x) = rd_prev (Some x)) →
  seg h None xs e → k ≤ length xs →
  advance decr k (last xs) (mk_state h f) = Some (rev xs !! k, mk_state h f).
Proof.
  intros Hdecr. revert e k. induction xs as [|z xs IH] using rev_ind; intros e k Hs Hk.
  - simpl in Hk. by replace k with 0 by lia.
  - rewrite last_snoc, rev_unit. destruct k as [|k]; [done|].
    rewrite length_app in Hk. simpl in Hk.
    apply seg_app in Hs as [Hs [Hz _]]. simpl.
    rewrite bind_eq, Hdecr, (rd_prev_run _ _ _ _ Hz). simpl.
    unfold last_or. destruct (last xs) as [w|] eqn:Hl.
    + eapply IH; [done|lia].
    + apply last_None in Hl as ->. simpl in Hk. by replace k with 0 by lia.
Qed.

Lemma lookup_beyond {A} (xs : list A) k : length xs < k → xs !! k = None.
Proof. intros. apply lookup_ge_None_2. lia. Qed.

Lemma advance_split step k j it σ it' σ' :
  advance step k it σ = Some (it', σ') →
  advance step (k + j) it σ = advance step j it' σ'.
Proof.
  revert it σ. induction k as [|k IH]; intros it σ; simpl.
  - by intros [= -> ->].
  - rewrite !bind_eq. destruct (step it σ) as [[it1 σ1]|]; [|done]. apply IH.
Qed.

(** X1. [k] increments from [begin()].  In either file the cursor stands on
    the member of index [k], on [end()] after as many steps as there are
    members, and is null after one step more; the store is left as it was.
    intrusive_list.h keeps a null cursor null under any number of further
    increments; in part_000 a further increment dereferences it. *)
Theorem increments_from_begin :
  (∀ σ l xs k, chain_h σ l xs →
     (b ← intrusive_list_h.begin l; advance intrusive_list_h.incr k b) σ =
       Some ((xs ++ [l]) !! k, σ)) ∧
  (∀ σ l xs k, chain_p σ l xs →
     (b ← part_000.begin l; advance part_000.incr k b) σ =
       if decide (k ≤ S (length xs)) then Some ((xs ++ [l]) !! k, σ) else None).
Proof.
  split.
  - intros σ l xs k Hc. rewrite bind_eq, (chain_h_begin _ _ _ Hc).
    destruct Hc as [[_ Hs] _]. destruct σ as [h f]. simpl in *.
    destruct (decide (k ≤ length (xs ++ [l]))) as [Hk|Hk].
    + by eapply walk_next.
    + replace k with (length (xs ++ [l]) + (k - length (xs ++ [l]))) at 1 by lia.
      erewrite advance_split; [|by eapply walk_next].
      rewrite lookup_ge_None_2 by done. rewrite lookup_beyond by lia.
      apply advance_null_h.
  - intros σ l xs k Hc. rewrite bind_eq, (chain_p_begin _ _ _ Hc).
    destruct Hc as [[_ Hs] _]. destruct σ as [h f]. simpl in *.
    assert (length (xs ++ [l]) = S (length xs)) as Hlen
      by (rewrite length_app; simpl; lia).
    destruct (decide (k ≤ S (length xs))) as [Hk|Hk].
    + eapply walk_next; [done|done|lia].
    + replace k with (length (xs ++ [l]) + (k - length (xs ++ [l]))) at 1 by lia.
      erewrite advance_split; [|by eapply walk_next].
      rewrite lookup_ge_None_2 by done. apply advance_null_p. lia.
Qed.

Lemma increments_from_begin_witness :
  let σh := after (fill_h 100 [1; 2; 3]) σ0 in
  let σp := after (fill_p 100 [1; 2; 3]) σ0 in
  (chain_h σh 100 [1; 2; 3] ∧ chain_p σp 100 [1; 2; 3]) ∧
  (b ← intrusive_list_h.begin 100; advance intrusive_list_h.incr 2 b) σh =
    Some (([1; 2; 3] ++ [100]) !! 2, σh) ∧
  (b ← part_000.begin 100; advance part_000.incr 5 b) σp =
    if decide (5 ≤ S (length [1; 2; 3])) then Some (([1; 2; 3] ++ [100]) !! 5, σp)
    else None.
Proof.
  intros σh σp.
  assert (chain_h σh 100 [1; 2; 3]) as Hh by by_decision.
  assert (chain_p σp 100 [1; 2; 3]) as Hp by by_decision.
  split; [exact (conj Hh Hp)|]. split.
  - exact (proj1 increments_from_begin σh 100 [1; 2; 3] 2 Hh).
  - exact (proj2 increments_from_begin σp 100 [1; 2; 3] 5 Hp).
Defined.

(** X2. [k] decrements from [end()], in either file: the cursor stands on
    the [k]-th member counted from the back, and is null once the first
    member has been passed ([--begin()] is null).  intrusive_list.h keeps a
    null cursor null; in part_000 a further decrement dereferences it. *)
Theorem decrements_from_end :
  (∀ σ l xs k, chain_h σ l xs →
     advance intrusive_list_h.decr k (end_ l) σ = Some ((l :: rev xs) !! k, σ)) ∧
  (∀ σ l xs k, chain_p σ l xs →
     advance part_000.decr k (end_ l) σ =
       if decide (k ≤ S (length xs)) then Some ((l :: rev xs) !! k, σ) else None).
Proof.
  assert (∀ decr nil σ l xs k,
    (∀ x, decr (Some x) = rd_prev (Some x)) → chain_with nil σ l xs →
    k ≤ S (length xs) →
    advance decr k (end_ l) σ = Some ((l :: rev xs) !! k, σ)) as Hwalk.
  { intros decr nil σ l xs k Hdecr [[_ Hs] _] Hk. destruct σ as [h f]. simpl in *.
    pose proof (walk_prev decr h f (xs ++ [l]) None k Hdecr Hs) as Hw.
    rewrite last_snoc, rev_unit, length_app in Hw. apply Hw. simpl. lia. }
  split.
  - intros σ l xs k Hc. destruct (decide (k ≤ S (length xs))) as [Hk|Hk].
    + by eapply Hwalk.
    + replace k with (S (length xs) + (k - S (length xs))) at 1 by lia.
      erewrite advance_split; [|by eapply Hwalk].
      rewrite (lookup_ge_None_2 (l :: rev xs) (S (length xs)))
        by (simpl; rewrite length_rev; lia).
      rewrite lookup_ge_None_2 by (simpl; rewrite length_rev; lia).
      apply advance_null_h.
  - intros σ l xs k Hc. destruct (decide (k ≤ S (length xs))) as [Hk|Hk].
    + by eapply Hwalk.
    + replace k with (S (length xs) + (k - S (length xs))) at 1 by lia.
      erewrite advance_split; [|by eapply Hwalk].
      rewrite (lookup_ge_None_2 (l :: rev xs) (S (length xs)))
        by (simpl; rewrite length_rev; lia).
      apply advance_null_p. lia.
Qed.

Lemma decrements_from_end_witness :
  let σh := after (fill_h 100 [1; 2; 3]) σ0 in
  let σp := after (fill_p 100 [1; 2; 3]) σ0 in
  (chain_h σh 100 [1; 2; 3] ∧ chain_p σp 100 [1; 2; 3]) ∧
  advance intrusive_list_h.decr 4 (end_ 100) σh = Some ((100 :: rev [1; 2; 3]) !! 4, σh) ∧
  advance part_000.decr 1 (end_ 100) σp =
    if decide (1 ≤ S (length [1; 2; 3])) then Some ((100 :: rev [1; 2; 3]) !! 1, σp)
    else None.
Proof.
  intros σh σp.
  assert (chain_h σh 100 [1; 2; 3]) as Hh by by_decision.
  assert (chain_p σp 100 [1; 2; 3]) as Hp by by_decision.
  split; [exact (conj Hh Hp)|]. split.
  - exact (proj1 decrements_from_end σh 100 [1; 2; 3] 4 Hh).
  - exact (proj2 decrements_from_end σp 100 [1; 2; 3] 1 Hp).
Defined.

Lemma seg_neighbours h p a x y b e :
  seg h p (a ++ x :: y :: b) e →
  ∃ cx cy, h !! x = Some cx ∧ next cx = Some y ∧ h !! y = Some cy ∧ prev cy = Some x.
Proof.
  intros [_ Hs]%seg_app. simpl in Hs. destruct Hs as (Hx & Hy & _).
  eexists _, _. split; [exact Hx|]. split; [done|]. split; [exact Hy|done].
Qed.

(** Two neighbouring positions of a chain, the second possibly [end()]. *)
Lemma chain_neighbours nil σ l xs k x y :
  chain_with nil σ l xs →
  (xs ++ [l]) !! k = Some x → (xs ++ [l]) !! S k = Some y →
  rd_next (Some x) σ = Some (Some y, σ) ∧ rd_prev (Some y) σ = Some (Some x, σ).
Proof.
  intros [[_ Hs] _] Hx Hy. destruct σ as [h f]. simpl in Hs.
  apply list_elem_of_split_length in Hx as (a & b & Heq & ->).
  rewrite Heq in Hy, Hs.
  rewrite (lookup_app_r a) in Hy by lia.
  replace (S (length a) - length a) with 1 in Hy by lia.
  destruct b as [|y' b]; [done|]. simpl in Hy. injection Hy as ->.
  destruct (seg_neighbours _ _ _ _ _ _ _ Hs) as (cx & cy & Hcx & Hnx & Hcy & Hpy).
  rewrite (rd_next_run _ _ _ _ Hcx), (rd_prev_run _ _ _ _ Hcy). by rewrite Hnx, Hpy.
Qed.

Lemma steps_at_object x :
  intrusive_list_h.incr (Some x) = rd_next (Some x) ∧
  intrusive_list_h.decr (Some x) = rd_prev (Some x) ∧
  part_000.incr (Some x) = rd_next (Some x) ∧
  part_000.decr (Some x) = rd_prev (Some x).
Proof. done. Qed.

Ltac steps_at_objects :=
  rewrite ?(proj1 (steps_at_object _)), ?(proj1 (proj2 (steps_at_object _))),
    ?(proj1 (proj2 (proj2 (steps_at_object _)))),
    ?(proj2 (proj2 (proj2 (steps_at_object _)))).

(** X3. In either file, on a well-formed chain, [--] undoes [++] at every
    member and [++] undoes [--] at every position but the first ([end()]
    included); neither writes the store. *)
Theorem increment_decrement_cancel σ l xs k x y :
  (xs ++ [l]) !! k = Some x → (xs ++ [l]) !! S k = Some y →
  (chain_h σ l xs →
     (it ← intrusive_list_h.incr (Some x); intrusive_list_h.decr it) σ = Some (Some x, σ) ∧
     (it ← intrusive_list_h.decr (Some y); intrusive_list_h.incr it) σ = Some (Some y, σ)) ∧
  (chain_p σ l xs →
     (it ← part_000.incr (Some x); part_000.decr it) σ = Some (Some x, σ) ∧
     (it ← part_000.decr (Some y); part_000.incr it) σ = Some (Some y, σ)).
Proof.
  intros Hx Hy. split; intros Hc;
    destruct (chain_neighbours _ σ l xs k x y Hc Hx Hy) as [Hn Hp];
    rewrite !bind_eq; steps_at_objects; rewrite Hn, Hp; steps_at_objects;
    by rewrite Hn, Hp.
Qed.

Lemma increment_decrement_cancel_witness :
  let σh := after (fill_h 100 [1; 2; 3]) σ0 in
  let σp := after (fill_p 100 [1; 2; 3]) σ0 in
  (([1; 2; 3] ++ [100]) !! 2 = Some 3 ∧ ([1; 2; 3] ++ [100]) !! 3 = Some 100 ∧
   chain_h σh 100 [1; 2; 3] ∧ chain_p σp 100 [1; 2; 3]) ∧
  ((it ← intrusive_list_h.incr (Some 3); intrusive_list_h.decr it) σh = Some (Some 3, σh) ∧
   (it ← intrusive_list_h.decr (Some 100); intrusive_list_h.incr it) σh = Some (Some 100, σh)) ∧
  ((it ← part_000.incr (Some 3); part_000.decr it) σp = Some (Some 3, σp) ∧
   (it ← part_000.decr (Some 100); part_000.incr it) σp = Some (Some 100, σp)).
Proof.
  intros σh σp.
  assert (chain_h σh 100 [1; 2; 3]) as Hh by by_decision.
  assert (chain_p σp 100 [1; 2; 3]) as Hp by by_decision.
  split; [exact (conj eq_refl (conj eq_refl (conj Hh Hp)))|]. split.
  - exact (proj1 (increment_decrement_cancel σh 100 [1; 2; 3] 2 3 100 eq_refl eq_refl) Hh).
  - exact (proj2 (increment_decrement_cancel σp 100 [1; 2; 3] 2 3 100 eq_refl eq_refl) Hp).
Defined.

(** X4. The postfix operators, in either file: at a member, [it++] returns
    the cursor to that member and leaves the cursor on the position after
    it; at the position after a member, [it--] returns that position and
    leaves the cursor on the member. *)
Theorem postfix_steps σ l xs k x y :
  (xs ++ [l]) !! k = Some x → (xs ++ [l]) !! S k = Some y →
  (chain_h σ l xs →
     post_step intrusive_list_h.incr (Some x) σ = Some ((Some x, Some y), σ) ∧
     post_step intrusive_list_h.decr (Some y) σ = Some ((Some y, Some x), σ)) ∧
  (chain_p σ l xs →
     post_step part_000.incr (Some x) σ = Some ((Some x, Some y), σ) ∧
     post_step part_000.decr (Some y) σ = Some ((Some y, Some x), σ)).
Proof.
  intros Hx Hy. split; intros Hc;
    destruct (chain_neighbours _ σ l xs k x y Hc Hx Hy) as [Hn Hp];
    unfold post_step; rewrite !bind_eq; steps_at_objects; by rewrite Hn, Hp.
Qed.

Lemma postfix_steps_witness :
  let σh := after (fill_h 100 [1; 2; 3]) σ0 in
  let σp := after (fill_p 100 [1; 2; 3]) σ0 in
  (([1; 2; 3] ++ [100]) !! 0 = Some 1 ∧ ([1; 2; 3] ++ [100]) !! 1 = Some 2 ∧
   chain_h σh 100 [1; 2; 3] ∧ chain_p σp 100 [1; 2; 3]) ∧
  (post_step intrusive_list_h.incr (Some 1) σh = Some ((Some 1, Some 2), σh) ∧
   post_step intrusive_list_h.decr (Some 2) σh = Some ((Some 2, Some 1), σh)) ∧
  (post_step part_000.incr (Some 1) σp = Some ((Some 1, Some 2), σp) ∧
   post_step part_000.decr (Some 2) σp = Some ((Some 2, Some 1), σp)).
Proof.
  intros σh σp.
  assert (chain_h σh 100 [1; 2; 3]) as Hh by by_decision.
  assert (chain_p σp 100 [1; 2; 3]) as Hp by by_decision.
  split; [exact (conj eq_refl (conj eq_refl (conj Hh Hp)))|]. split.
  - exact (proj1 (postfix_steps σh 100 [1; 2; 3] 0 1 2 eq_refl eq_refl) Hh).
  - exact (proj2 (postfix_steps σp 100 [1; 2; 3] 0 1 2 eq_refl eq_refl) Hp).
Defined.

Lemma traverse_back_seg decr h f a b l fuel :
  (∀ x, decr (Some x) = rd_prev (Some x)) →
  NoDup (a ++ b ++ [l]) → seg h None (a ++ b ++ [l]) None → length a < fuel →
  traverse_back decr fuel (head (a ++ b ++ [l])) (head (b ++ [l])) (mk_state h f) =
    Some (rev a, mk_state h f).
Proof.
  intros Hdecr. revert b fuel.
  induction a as [|w a IH] using rev_ind; intros b fuel Hnd Hs Hlt.
  - destruct fuel as [|fuel]; [simpl in Hlt; lia|]. simpl.
    unfold iter_ne. by rewrite bool_decide_eq_true_2.
  - destruct fuel as [|fuel]; [simpl in Hlt; lia|].
    rewrite length_app in Hlt. simpl in Hlt.
    rewrite <-(assoc_L (++)) in Hnd, Hs. simpl in Hnd, Hs.
    rewrite <-(assoc_L (++)). simpl.
    destruct (head (b ++ [l])) as [y|] eqn:Hy; [|by destruct b].
    assert (head (a ++ w :: b ++ [l]) ≠ Some y) as Hne.
    { intros Hh. apply NoDup_app in Hnd as (_ & Hd & Hnd').
      apply NoDup_cons in Hnd' as [Hw _].
      assert (y ∈ b ++ [l]) as Hyin by (by apply head_Some_elem_of).
      destruct a as [|a0 a]; simpl in Hh; simplify_eq; [done|].
      eapply (Hd y); [left|by right]. }
    unfold iter_ne. rewrite bool_decide_eq_false_2 by done. simpl.
    pose proof Hs as Hs'. apply seg_app in Hs' as [_ Hs']. simpl in Hs'.
    destruct Hs' as [_ Hs'].
    destruct (seg_head _ _ _ _ _ Hs' Hy) as (cy & Hcy & Hpy).
    rewrite bind_eq, Hdecr, (rd_prev_run _ _ _ _ Hcy), Hpy. simpl.
    rewrite bind_eq.
    pose proof (IH (w :: b) fuel Hnd Hs ltac:(lia)) as Hrec. simpl in Hrec.
    change (deref (Some w) (mk_state h f)) with (Some (w, mk_state h f)). simpl.
    rewrite bind_eq, Hrec. by rewrite rev_unit.
Qed.

(** X5. The loop [for (it = end(); it != begin(); ) { --it; visit( *it); }]
    over a well-formed chain, in either file, ends without undefined
    behaviour and visits the members in reverse order; the store is left as
    it was. *)
Theorem backward_traversal_reverses :
  (∀ σ l xs fuel, chain_h σ l xs → length xs < fuel →
     to_list_back_h fuel l σ = Some (rev xs, σ)) ∧
  (∀ σ l xs fuel, chain_p σ l xs → length xs < fuel →
     to_list_back_p fuel l σ = Some (rev xs, σ)).
Proof.
  split.
  - intros σ l xs fuel Hc Hlt. unfold to_list_back_h.
    rewrite bind_eq, (chain_h_begin _ _ _ Hc).
    destruct Hc as [[Hnd Hs] _]. destruct σ as [h f]. simpl in *.
    apply (traverse_back_seg _ h f xs [] l fuel); done.
  - intros σ l xs fuel Hc Hlt. unfold to_list_back_p.
    rewrite bind_eq, (chain_p_begin _ _ _ Hc).
    destruct Hc as [[Hnd Hs] _]. destruct σ as [h f]. simpl in *.
    apply (traverse_back_seg _ h f xs [] l fuel); done.
Qed.

Lemma backward_traversal_reverses_witness :
  let σh := after (fill_h 100 [1; 2; 3]) σ0 in
  let σp := after (fill_p 100 [1; 2; 3]) σ0 in
  (chain_h σh 100 [1; 2; 3] ∧ chain_p σp 100 [1; 2; 3] ∧ length [1; 2; 3] < 4) ∧
  to_list_back_h 4 100 σh = Some (rev [1; 2; 3], σh) ∧
  to_list_back_p 4 100 σp = Some (rev [1; 2; 3], σp).
Proof.
  intros σh σp.
  assert (chain_h σh 100 [1; 2; 3]) as Hh by by_decision.
  assert (chain_p σp 100 [1; 2; 3]) as Hp by by_decision.
  assert (length [1; 2; 3] < 4) as Hlt by (simpl; lia).
  split; [exact (conj Hh (conj Hp Hlt))|]. split.
  - exact (proj1 backward_traversal_reverses σh 100 [1; 2; 3] 4 Hh Hlt).
  - exact (proj2 backward_traversal_reverses σp 100 [1; 2; 3] 4 Hp Hlt).
Defined.

(** X6. [front()], [back()], [*begin()] and [empty()] on a chain with
    members, in either file: the first member, the last member, the first
    member again, and [false]; nothing is written. *)
Theorem accessors_on_members σ l xs x z :
  head xs = Some x → last xs = Some z →
  (chain_h σ l xs →
     front l σ = Some (x, σ) ∧ back l σ = Some (z, σ) ∧
     (b ← intrusive_list_h.begin l; deref b) σ = Some (x, σ) ∧
     intrusive_list_h.empty l σ = Some (false, σ)) ∧
  (chain_p σ l xs →
     front l σ = Some (x, σ) ∧ back l σ = Some (z, σ) ∧
     (b ← part_000.begin l; deref b) σ = Some (x, σ) ∧
     part_000.empty l σ = Some (false, σ)).
Proof.
  intros Hx Hz. destruct xs as [|x' xs]; [done|]. injection Hx as ->.
  split; intros Hc.
  - split; [by eapply chain_front|]. split; [by eapply chain_back|]. split.
    + by rewrite bind_eq, (chain_h_begin _ _ _ Hc).
    + by rewrite (chain_h_empty _ _ _ Hc).
  - split; [by eapply chain_front|]. split; [by eapply chain_back|]. split.
    + by rewrite bind_eq, (chain_p_begin _ _ _ Hc).
    + by rewrite (chain_p_empty _ _ _ Hc).
Qed.

Lemma accessors_on_members_witness :
  let σh := after (fill_h 100 [1; 2; 3]) σ0 in
  let σp := after (fill_p 100 [1; 2; 3]) σ0 in
  (head [1; 2; 3] = Some 1 ∧ last [1; 2; 3] = Some 3 ∧
   chain_h σh 100 [1; 2; 3] ∧ chain_p σp 100 [1; 2; 3]) ∧
  (front 100 σh = Some (1, σh) ∧ back 100 σh = Some (3, σh) ∧
   (b ← intrusive_list_h.begin 100; deref b) σh = Some (1, σh) ∧
   intrusive_list_h.empty 100 σh = Some (false, σh)) ∧
  (front 100 σp = Some (1, σp) ∧ back 100 σp = Some (3, σp) ∧
   (b ← part_000.begin 100; deref b) σp = Some (1, σp) ∧
   part_000.empty 100 σp = Some (false, σp)).
Proof.
  intros σh σp.
  assert (chain_h σh 100 [1; 2; 3]) as Hh by by_decision.
  assert (chain_p σp 100 [1; 2; 3]) as Hp by by_decision.
  split; [exact (conj eq_refl (conj eq_refl (conj Hh Hp)))|]. split.
  - exact (proj1 (accessors_on_members σh 100 [1; 2; 3] 1 3 eq_refl eq_refl) Hh).
  - exact (proj2 (accessors_on_members σp 100 [1; 2; 3] 1 3 eq_refl eq_refl) Hp).
Defined.

(** X7. The accessors on a well-formed empty list.  In both files
    [empty()] is [true], [begin()] is [end()] and [back()] dereferences a
    null pointer.  [front()] dereferences a null pointer in
    intrusive_list.h; in part_000, where [first] of an empty list is
    [&after_last], it returns the list's own sentinel. *)
Theorem accessors_on_empty_list σ l :
  (chain_h σ l [] →
     intrusive_list_h.empty l σ = Some (true, σ) ∧
     intrusive_list_h.begin l σ = Some (end_ l, σ) ∧
     back l σ = None ∧ front l σ = None) ∧
  (chain_p σ l [] →
     part_000.empty l σ = Some (true, σ) ∧
     part_000.begin l σ = Some (end_ l, σ) ∧
     back l σ = None ∧ front l σ = Some (l, σ)).
Proof.
  split; intros Hc.
  - split; [by rewrite (chain_h_empty _ _ _ Hc)|].
    split; [by rewrite (chain_h_begin _ _ _ Hc)|].
    destruct Hc as [Hl Hf]. destruct σ as [h f]. simpl in *. split.
    + unfold back.
      by rewrite bind_eq, (rd_prev_run _ _ _ _ (linked_lookup_sentinel _ _ _ Hl)).
    + unfold front. by rewrite bind_eq, (rd_first_run _ _ _ _ Hf).
  - split; [by rewrite (chain_p_empty _ _ _ Hc)|].
    split; [by rewrite (chain_p_begin _ _ _ Hc)|].
    destruct Hc as [Hl Hf]. destruct σ as [h f]. simpl in *. split.
    + unfold back.
      by rewrite bind_eq, (rd_prev_run _ _ _ _ (linked_lookup_sentinel _ _ _ Hl)).
    + unfold front. by rewrite bind_eq, (rd_first_run _ _ _ _ Hf).
Qed.

Lemma accessors_on_empty_list_witness :
  let σh := after (intrusive_list_h.new_list 100) σ0 in
  let σp := after (part_000.new_list 100) σ0 in
  (chain_h σh 100 [] ∧ chain_p σp 100 []) ∧
  (intrusive_list_h.empty 100 σh = Some (true, σh) ∧
   intrusive_list_h.begin 100 σh = Some (end_ 100, σh) ∧
   back 100 σh = None ∧ front 100 σh = None) ∧
  (part_000.empty 100 σp = Some (true, σp) ∧
   part_000.begin 100 σp = Some (end_ 100, σp) ∧
   back 100 σp = None ∧ front 100 σp = Some (100, σp)).
Proof.
  intros σh σp.
  assert (chain_h σh 100 []) as Hh by by_decision.
  assert (chain_p σp 100 []) as Hp by by_decision.
  split; [exact (conj Hh Hp)|]. split.
  - exact (proj1 (accessors_on_empty_list σh 100) Hh).
  - exact (proj2 (accessors_on_empty_list σp 100) Hp).
Defined.

(** ** Round trips *)

Lemma state_eq σ σ' :
  (∀ y, links σ' !! y = links σ !! y) →
  (∀ l, firsts σ' !! l = firsts σ !! l) →
  σ' = σ.
Proof.
  destruct σ as [h f], σ' as [h' f']. simpl. intros Hh Hf.
  f_equal; by apply map_eq.
Qed.

(** Two stores that hold the same chain at [l] agree on its links and on
    its [first]. *)
Lemma chain_agree nil nil' σ σ' l xs :
  chain_with nil σ l xs → chain_with nil' σ' l xs → xs ≠ [] ∨ nil l = nil' l →
  (∀ y, y ∈ xs ++ [l] → links σ' !! y = links σ !! y) ∧
  firsts σ' !! l = firsts σ !! l.
Proof.
  intros [[_ Hs] Hf] [[_ Hs'] Hf'] Hne. split.
  - intros y Hy. by eapply seg_agree.
  - rewrite Hf, Hf'. destruct xs; [|done]. destruct Hne as [?|Heq]; [done|by rewrite Heq].
Qed.

Lemma chain_restored nil nil' σ σ' l xs :
  chain_with nil σ l xs → chain_with nil' σ' l xs → xs ≠ [] ∨ nil l = nil' l →
  (∀ y, y ∉ xs ++ [l] → links σ' !! y = links σ !! y) →
  (∀ l', l' ≠ l → firsts σ' !! l' = firsts σ !! l') →
  σ' = σ.
Proof.
  intros Hc Hc' Hne Ho Hfo.
  destruct (chain_agree _ _ _ _ _ _ Hc Hc' Hne) as [Hin Hf].
  apply state_eq.
  - intros y. destruct (decide (y ∈ xs ++ [l])); auto.
  - intros l'. destruct (decide (l' = l)) as [->|]; auto.
Qed.

(** What [erase] leaves is a chain in the sense of part_000, whichever file
    is in use: [first] of a list without members is [&after_last]. *)
Lemma erase_leaves_chain_p nil σ l xs1 x xs2 :
  chain_with nil σ l (xs1 ++ x :: xs2) →
  wp (erase l (Some x)) σ (λ r σ',
    r = head_or xs2 (Some l) ∧
    chain_p σ' l (xs1 ++ xs2) ∧
    links σ' !! x = links σ !! x ∧
    (∀ y, y ∉ xs1 ++ xs2 ++ [l] → links σ' !! y = links σ !! y) ∧
    (∀ l', l' ≠ l → firsts σ' !! l' = firsts σ !! l')).
Proof.
  intros Hc. eapply wp_mono; [by apply (erase_spec nil)|].
  intros r σ' (-> & Hl & Hf & Hx & Ho & Hfo).
  split; [by rewrite head_or_sentinel|]. split; [|done].
  split; [done|]. rewrite Hf. by destruct (xs1 ++ xs2).
Qed.

Lemma erase_then_insert nil σ l xs1 x xs2 :
  chain_with nil σ l (xs1 ++ x :: xs2) →
  (r ← erase l (Some x); insert l r x) σ = Some (Some x, σ).
Proof.
  intros Hc.
  destruct (erase_leaves_chain_p nil σ l xs1 x xs2 Hc)
    as (r & σ1 & Hrun1 & -> & Hc1 & Hx1 & Ho1 & Hf1).
  assert (x ∉ xs1 ++ xs2 ++ [l]) as Hfresh.
  { destruct Hc as [[Hnd _] _]. rewrite <-(assoc_L (++)) in Hnd.
    apply NoDup_app in Hnd as (_ & Hd & Hnd'). apply NoDup_cons in Hnd' as [Hx _].
    intros [Hin|Hin]%elem_of_app; [|done]. eapply Hd; [done|left]. }
  assert (is_Some (links σ1 !! x)) as Hlive.
  { rewrite Hx1. destruct Hc as [[_ Hs] _]. eapply seg_lookup; [done|]. set_solver. }
  destruct (insert_spec (λ l, Some l) σ1 l xs1 xs2 x Hc1 Hfresh Hlive)
    as (r & σ2 & Hrun2 & -> & Hc2 & Ho2 & Hf2).
  rewrite bind_eq, Hrun1, Hrun2. do 2 f_equal.
  eapply (chain_restored nil (λ l, Some l) σ σ2 l (xs1 ++ x :: xs2)); [done|done| | |].
  - left. by destruct xs1.
  - intros y Hy. rewrite Ho2, Ho1; [done| |]; revert Hy; set_solver.
  - intros l' Hl'. by rewrite Hf2, Hf1.
Qed.

(** X8. In either file, [insert(erase(pos), x)], [x] being the member at
    [pos], runs without undefined behaviour and leaves the whole store,
    every link and every [first], exactly as it was before the [erase]
    (also when [x] is the only member). *)
Theorem erase_then_insert_restores_store σ l xs1 x xs2 :
  chain_h σ l (xs1 ++ x :: xs2) ∨ chain_p σ l (xs1 ++ x :: xs2) →
  (r ← erase l (Some x); insert l r x) σ = Some (Some x, σ).
Proof. intros [Hc|Hc]; by eapply erase_then_insert. Qed.

Lemma erase_then_insert_restores_store_witness :
  let σ := after (fill_h 100 [7]) σ0 in
  (chain_h σ 100 ([] ++ 7 :: []) ∨ chain_p σ 100 ([] ++ 7 :: [])) ∧
  (r ← erase 100 (Some 7); insert 100 r 7) σ = Some (Some 7, σ).
Proof.
  intros σ. assert (chain_h σ 100 ([] ++ 7 :: [])) as Hc by by_decision.
  split; [left; exact Hc|].
  exact (erase_then_insert_restores_store σ 100 [] 7 [] (or_introl Hc)).
Defined.

Lemma insert_then_erase nil σ l xs1 xs2 x :
  chain_with nil σ l (xs1 ++ xs2) → x ∉ xs1 ++ xs2 ++ [l] →
  is_Some (links σ !! x) →
  wp (it ← insert l (head_or xs2 (Some l)) x; erase l it) σ (λ r σ',
    r = head_or xs2 (Some l) ∧
    chain_p σ' l (xs1 ++ xs2) ∧
    links σ' !! x = Some (mk_element (last xs1) (head_or xs2 (Some l))) ∧
    (∀ y, y ≠ x → y ∉ xs1 ++ xs2 ++ [l] → links σ' !! y = links σ !! y) ∧
    (∀ l', l' ≠ l → firsts σ' !! l' = firsts σ !! l')).
Proof.
  intros Hc Hfresh Hlive. apply wp_bind.
  eapply wp_mono; [by apply (insert_spec nil)|].
  intros r σ1 (-> & Hc1 & Ho1 & Hf1).
  eapply wp_mono; [by apply (erase_leaves_chain_p nil)|].
  intros r σ2 (-> & Hc2 & Hx2 & Ho2 & Hf2).
  split; [done|]. split; [done|]. split; [|split].
  - rewrite Hx2. destruct Hc1 as [[_ Hs] _].
    rewrite <-(assoc_L (++)) in Hs.
    apply seg_app in Hs as [_ Hs]. simpl in Hs. destruct Hs as [Hs _].
    rewrite Hs. unfold last_or. rewrite head_or_app. simpl.
    by destruct (last xs1).
  - intros y Hyx Hy. rewrite Ho2 by done. apply Ho1. set_solver.
  - intros l' Hl'. by rewrite Hf2, Hf1.
Qed.

(** X9. In part_000, and in intrusive_list.h when the chain has a member,
    [erase(insert(pos, x))] of an object [x] that is no member returns
    [pos] and leaves the chain and every [first] as they were; the only
    link that differs from before is [x]'s own, which keeps the
    references [insert] gave it.  The element need not be detached
    beforehand: [insert] overwrites both of its references. *)
Theorem insert_then_erase_restores_chain σ l xs1 xs2 x :
  x ∉ xs1 ++ xs2 ++ [l] → is_Some (links σ !! x) →
  chain_p σ l (xs1 ++ xs2) ∨ (chain_h σ l (xs1 ++ xs2) ∧ xs1 ++ xs2 ≠ []) →
  ∃ σ', (it ← insert l (head_or xs2 (Some l)) x; erase l it) σ =
          Some (head_or xs2 (Some l), σ') ∧
        links σ' = <[x := mk_element (last xs1) (head_or xs2 (Some l))]> (links σ) ∧
        firsts σ' = firsts σ.
Proof.
  intros Hfresh Hlive Hc.
  assert (∃ nil, chain_with nil σ l (xs1 ++ xs2) ∧
                 (xs1 ++ xs2 ≠ [] ∨ nil l = Some l)) as (nil & Hc0 & Hne).
  { destruct Hc as [Hc|[Hc Hne]].
    - exists (λ l, Some l). split; [done|by right].
    - exists (λ _, None). split; [done|by left]. }
  destruct (insert_then_erase nil σ l xs1 xs2 x Hc0 Hfresh Hlive)
    as (r & σ' & Hrun & -> & Hc' & Hx & Ho & Hf).
  exists σ'. split; [done|].
  destruct (chain_agree nil (λ l, Some l) σ σ' l (xs1 ++ xs2) Hc0 Hc' Hne) as [Hin Hfl].
  split.
  - apply map_eq. intros y. destruct (decide (y = x)) as [->|Hyx].
    + by rewrite lookup_insert_eq.
    + rewrite lookup_insert_ne by done.
      destruct (decide (y ∈ xs1 ++ xs2 ++ [l])) as [Hy|Hy].
      * apply Hin. by rewrite <-(assoc_L (++)).
      * by apply Ho.
  - apply map_eq. intros l'. destruct (decide (l' = l)) as [->|]; auto.
Qed.

Lemma insert_then_erase_restores_chain_witness :
  let σ := after (fill_p 100 [1; 2];; fill_p 200 [7];; erase 200 (Some 7)) σ0 in
  ((7 ∉ [1] ++ [2] ++ [100]) ∧ is_Some (links σ !! 7) ∧
   (chain_p σ 100 ([1] ++ [2]) ∨ (chain_h σ 100 ([1] ++ [2]) ∧ [1] ++ [2] ≠ []))) ∧
  ∃ σ', (it ← insert 100 (head_or [2] (Some 100)) 7; erase 100 it) σ =
          Some (head_or [2] (Some 100), σ') ∧
        links σ' = <[7 := mk_element (last [1]) (head_or [2] (Some 100))]> (links σ) ∧
        firsts σ' = firsts σ.
Proof.
  intros σ.
  assert (7 ∉ [1] ++ [2] ++ [100]) as Hfresh by by_decision.
  assert (is_Some (links σ !! 7)) as Hlive by by_decision.
  assert (chain_p σ 100 ([1] ++ [2])) as Hc by by_decision.
  split; [exact (conj Hfresh (conj Hlive (or_introl Hc)))|].
  exact (insert_then_erase_restores_chain σ 100 [1] [2] 7 Hfresh Hlive (or_introl Hc)).
Defined.

(** [push_back] of intrusive_list.h for an element that need not be
    detached: on a chain with members both of its references are written;
    on an empty chain its [prev] is not. *)
Lemma push_back_h_live σ l xs elem ce :
  chain_h σ l xs → elem ∉ xs ++ [l] → links σ !! elem = Some ce →
  (xs = [] → prev ce = None) →
  wp (intrusive_list_h.push_back l elem) σ (λ _ σ',
    chain_h σ' l (xs ++ [elem]) ∧
    (∀ y, y ∉ elem :: xs ++ [l] → links σ' !! y = links σ !! y) ∧
    (∀ l', l' ≠ l → firsts σ' !! l' = firsts σ !! l')).
Proof.
  intros [Hl Hf] Hel He Hprev. destruct σ as [h f]. simpl in *.
  assert (tracked h h [(prev ce, [elem], next ce); (None, xs, Some l);
                       (last_or None xs, [l], None)]) as Ht.
  { apply tracked_start. eapply pieces_cons; [by apply linked_pieces|exact He|done..|].
    simpl. intros Hin. apply Hel. revert Hin. set_solver. }
  assert (∀ h', tracked h h' [(last_or None xs, [elem], Some l); (None, xs, Some elem);
                               (Some elem, [l], None)] →
     linked h' l (xs ++ [elem]) ∧
     (∀ y, y ∉ elem :: xs ++ [l] → h' !! y = h !! y)) as Hfin.
  { intros h' Ht'. open_tracked Ht'. split; [split|].
    - nodup_from Hnd.
    - rewrite <-(assoc_L (++)), (seg_app _ _ xs). simpl. naive_solver.
    - intros y Hy. apply Ho. set_solver. }
  unfold intrusive_list_h.push_back. unfold last_or in Ht, Hfin.
  destruct (last xs) as [z|] eqn:Hz.
  - rd_prev_at 2. wr_next_at 1. rd_prev_at 2. wr_prev_at 0.
    wr_prev_at 2. wr_next_at 0. rd_first_go.
    destruct xs as [|x xs]; [done|]. simpl. apply wp_ret.
    destruct (Hfin _ Ht) as [H1 H2]. split; [split; [done|]|by split].
    simpl. by rewrite Hf.
  - apply last_None in Hz as ->. rewrite (Hprev eq_refl) in Ht.
    rd_prev_at 2. apply wp_bind, wp_ret. wr_prev_at 2. wr_next_at 0. rd_first_go.
    simpl. rd_prev_at 2. wr_first_go.
    eapply (tracked_nil _ _ _ 1 _ _ None (Some elem)) in Ht; [|reflexivity].
    destruct (Hfin _ Ht) as [H1 H2]. split; [split; [done|]|split; [done|]].
    + simpl. by rewrite lookup_insert_eq.
    + simpl. intros l' ?. by rewrite lookup_insert_ne.
Qed.

Lemma last_or_None (xs : list nat) : last_or None xs = last xs.
Proof. unfold last_or. by destruct (last xs). Qed.

Lemma linked_lookup_last h l xs z :
  linked h l (xs ++ [z]) → h !! z = Some (mk_element (last xs) (Some l)).
Proof.
  intros [_ Hs]. rewrite <-(assoc_L (++)) in Hs.
  apply seg_app in Hs as [_ Hs]. simpl in Hs. destruct Hs as [Hs _].
  by rewrite Hs, last_or_None.
Qed.

(** A chain with members is one in the sense of both files. *)
Lemma chain_with_members nil nil' σ l xs :
  xs ≠ [] → chain_with nil σ l xs → chain_with nil' σ l xs.
Proof. intros Hne [Hl Hf]. split; [done|]. by destruct xs. Qed.

(** [pop_front] of intrusive_list.h leaves [first] at [&after_last] when
    the only member goes: a chain in the sense of part_000. *)
Lemma pop_front_h_any nil σ l x xs :
  chain_with nil σ l (x :: xs) →
  wp (intrusive_list_h.pop_front l) σ (λ _ σ',
    chain_p σ' l xs ∧
    links σ' !! x = links σ !! x ∧
    (∀ z, z ∉ xs ++ [l] → links σ' !! z = links σ !! z) ∧
    (∀ l', l' ≠ l → firsts σ' !! l' = firsts σ !! l')).
Proof.
  intros Hc. destruct xs as [|y xs].
  - destruct Hc as [[Hnd Hs] Hf]. destruct σ as [h f]. simpl in *.
    destruct Hs as [Hx Hs]. unfold head_or in Hx. simpl in Hx.
    assert (tracked h h [(None, [x], Some l); (Some x, [l], None)]) as Ht.
    { apply tracked_start. split; [done|]. forall_pieces; [by rewrite Hx|done]. }
    unfold intrusive_list_h.pop_front.
    rd_first_go. rd_next_at 0. rd_first_go. rd_next_at 0. wr_prev_at 1.
    rd_first_go. rd_next_at 0. wr_first_go. open_tracked Ht.
    destruct Hs0 as [Hs0 _]. unfold head_or in Hs0. simpl in Hs0.
    split; [split; [split|]|split; [|split]]; simpl.
    + apply NoDup_singleton.
    + done.
    + by rewrite lookup_insert_eq.
    + by rewrite Hs0, Hx.
    + intros z Hz. destruct (decide (z = x)) as [->|]; [by rewrite Hs0, Hx|].
      apply Ho. revert Hz. set_solver.
    + intros l' ?. by rewrite lookup_insert_ne.
  - eapply wp_mono; [apply pop_front_h; by eapply chain_with_members|].
    intros [] σ' (H1 & H2 & H3 & H4). split; [|done].
    by eapply chain_with_members.
Qed.

(** [push_front] of intrusive_list.h on a chain in the sense of part_000,
    the empty one included. *)
Lemma push_front_h_any σ l xs elem :
  chain_p σ l xs → elem ∉ xs ++ [l] → is_Some (links σ !! elem) →
  wp (intrusive_list_h.push_front l elem) σ (λ _ σ',
    chain_p σ' l (elem :: xs) ∧
    (∀ y, y ∉ elem :: xs ++ [l] → links σ' !! y = links σ !! y) ∧
    (∀ l', l' ≠ l → firsts σ' !! l' = firsts σ !! l')).
Proof.
  intros Hc Hel Hlive. destruct xs as [|x xs].
  - destruct Hc as [[Hnd Hs] Hf]. destruct Hlive as [ce Hce].
    destruct σ as [h f]. simpl in *. destruct Hs as [Hl _].
    assert (elem ≠ l) as Hne by set_solver.
    assert (tracked h h [(prev ce, [elem], next ce); (None, [l], None)]) as Ht.
    { apply tracked_start. split.
      - simpl. apply NoDup_cons. split; [set_solver|apply NoDup_singleton].
      - forall_pieces; [by destruct ce|done]. }
    unfold intrusive_list_h.push_front.
    wr_prev_at 0. rd_first_go. wr_prev_at 1. rd_first_go. wr_next_at 0. wr_first_go.
    rd_prev_at 1. apply wp_ret. open_tracked Ht.
    split; [split; [split|]|split]; simpl.
    + apply NoDup_cons. split; [set_solver|apply NoDup_singleton].
    + destruct Hs as [Hs _]. destruct Hs0 as [Hs0 _]. by rewrite Hs, Hs0.
    + by rewrite lookup_insert_eq.
    + intros y Hy. apply Ho. revert Hy. set_solver.
    + intros l' ?. by rewrite lookup_insert_ne.
  - eapply wp_mono.
    + apply push_front_h; [by eapply chain_with_members|done|done].
    + intros [] σ' (H1 & H2 & H3). split; [|done]. by eapply chain_with_members.
Qed.

Lemma round_trip_store nil σ σ1 σ2 l xs x c :
  chain_with nil σ l xs → chain_with nil σ2 l xs → x ∉ xs ++ [l] →
  (∀ y, y ∉ x :: xs ++ [l] → links σ1 !! y = links σ !! y) →
  (∀ l', l' ≠ l → firsts σ1 !! l' = firsts σ !! l') →
  (∀ y, y ∉ xs ++ [l] → links σ2 !! y = links σ1 !! y) →
  (∀ l', l' ≠ l → firsts σ2 !! l' = firsts σ1 !! l') →
  links σ1 !! x = Some c →
  links σ2 = <[x := c]> (links σ) ∧ firsts σ2 = firsts σ.
Proof.
  intros Hc Hc2 Hx Ho1 Hf1 Ho2 Hf2 Hc1.
  destruct (chain_agree nil nil σ σ2 l xs Hc Hc2 (or_intror eq_refl)) as [Hin Hfl].
  split.
  - apply map_eq. intros y. destruct (decide (y = x)) as [->|Hyx].
    + by rewrite lookup_insert_eq, Ho2.
    + rewrite lookup_insert_ne by done.
      destruct (decide (y ∈ xs ++ [l])) as [Hy|Hy]; [by apply Hin|].
      rewrite Ho2 by done. apply Ho1. set_solver.
  - apply map_eq. intros l'. destruct (decide (l' = l)) as [->|]; [done|].
    by rewrite Hf2, Hf1.
Qed.

(** X10. In either file, [push_back(x); pop_back()] with a detached element
    [x] that is no member runs without undefined behaviour and leaves every
    [first] and every link but [x]'s own as before; [x] keeps the
    references the push gave it.  The same for [push_front(x); pop_front()],
    in intrusive_list.h on a chain that has a member. *)
Theorem push_then_pop_restores_chain σ l xs x :
  x ∉ xs ++ [l] → detached (links σ) x →
  (chain_h σ l xs →
     (∃ σ', (intrusive_list_h.push_back l x;; intrusive_list_h.pop_back l) σ =
              Some (tt, σ') ∧
            links σ' = <[x := mk_element (last xs) (Some l)]> (links σ) ∧
            firsts σ' = firsts σ) ∧
     (xs ≠ [] →
      ∃ σ', (intrusive_list_h.push_front l x;; intrusive_list_h.pop_front l) σ =
              Some (tt, σ') ∧
            links σ' = <[x := mk_element None (head xs)]> (links σ) ∧
            firsts σ' = firsts σ)) ∧
  (chain_p σ l xs →
     (∃ σ', (part_000.push_back l x;; part_000.pop_back l) σ = Some (tt, σ') ∧
            links σ' = <[x := mk_element (last xs) (Some l)]> (links σ) ∧
            firsts σ' = firsts σ) ∧
     (∃ σ', (part_000.push_front l x;; part_000.pop_front l) σ = Some (tt, σ') ∧
            links σ' = <[x := mk_element None (head (xs ++ [l]))]> (links σ) ∧
            firsts σ' = firsts σ)).
Proof.
  intros Hfresh Hdet. pose proof (detached_is_Some _ _ Hdet) as Hlive.
  split; intros Hc; split.
  - destruct (push_back_h σ l xs x Hc Hfresh Hdet) as ([] & σ1 & Hr1 & Hc1 & Ho1 & Hf1).
    destruct (pop_back_h σ1 l xs x Hc1) as ([] & σ2 & Hr2 & Hc2 & Hx2 & Ho2 & Hf2).
    exists σ2. split; [by rewrite bind_eq, Hr1|].
    eapply (round_trip_store _ σ σ1 σ2); try done.
    apply linked_lookup_last, Hc1.
  - intros Hne. destruct xs as [|x0 xs]; [done|].
    destruct (push_front_h σ l x0 xs x Hc Hfresh Hlive) as ([] & σ1 & Hr1 & Hc1 & Ho1 & Hf1).
    destruct (pop_front_h σ1 l x x0 xs Hc1) as ([] & σ2 & Hr2 & Hc2 & Hx2 & Ho2 & Hf2).
    exists σ2. split; [by rewrite bind_eq, Hr1|].
    eapply (round_trip_store _ σ σ1 σ2); try done.
    by rewrite (linked_lookup_head _ _ _ _ (proj1 Hc1)).
  - destruct (push_back_p σ l xs x Hc Hfresh Hlive) as ([] & σ1 & Hr1 & Hc1 & Ho1 & Hf1).
    destruct (pop_back_p σ1 l xs x Hc1) as ([] & σ2 & Hr2 & Hc2 & Hx2 & Ho2 & Hf2).
    exists σ2. split; [by rewrite bind_eq, Hr1|].
    eapply (round_trip_store _ σ σ1 σ2); try done.
    apply linked_lookup_last, Hc1.
  - destruct (push_front_p σ l xs x Hc Hfresh Hlive) as ([] & σ1 & Hr1 & Hc1 & Ho1 & Hf1).
    destruct (pop_front_p σ1 l x xs Hc1) as ([] & σ2 & Hr2 & Hc2 & Hx2 & Ho2 & Hf2).
    exists σ2. split; [by rewrite bind_eq, Hr1|].
    eapply (round_trip_store _ σ σ1 σ2); try done.
    rewrite (linked_lookup_head _ _ _ _ (proj1 Hc1)). by destruct xs.
Qed.

Lemma push_then_pop_restores_chain_witness :
  let σh := after (fill_h 100 [1; 2];; new_element 4 None None) σ0 in
  let σp := after (fill_p 100 [1; 2];; new_element 4 None None) σ0 in
  ((4 ∉ [1; 2] ++ [100]) ∧ detached (links σh) 4 ∧ detached (links σp) 4 ∧
   chain_h σh 100 [1; 2] ∧ chain_p σp 100 [1; 2]) ∧
  (∃ σ', (intrusive_list_h.push_back 100 4;; intrusive_list_h.pop_back 100) σh =
           Some (tt, σ') ∧
         links σ' = <[4 := mk_element (last [1; 2]) (Some 100)]> (links σh) ∧
         firsts σ' = firsts σh) ∧
  (∃ σ', (part_000.push_front 100 4;; part_000.pop_front 100) σp = Some (tt, σ') ∧
         links σ' = <[4 := mk_element None (head ([1; 2] ++ [100]))]> (links σp) ∧
         firsts σ' = firsts σp).
Proof.
  intros σh σp.
  assert (4 ∉ [1; 2] ++ [100]) as Hfresh by by_decision.
  assert (detached (links σh) 4) as Hdh by by_decision.
  assert (detached (links σp) 4) as Hdp by by_decision.
  assert (chain_h σh 100 [1; 2]) as Hh by by_decision.
  assert (chain_p σp 100 [1; 2]) as Hp by by_decision.
  split; [exact (conj Hfresh (conj Hdh (conj Hdp (conj Hh Hp))))|]. split.
  - exact (proj1 (proj1 (push_then_pop_restores_chain σh 100 [1; 2] 4 Hfresh Hdh) Hh)).
  - exact (proj2 (proj2 (push_then_pop_restores_chain σp 100 [1; 2] 4 Hfresh Hdp) Hp)).
Defined.

(** X11. In either file, on a chain with a member, [pop_back()] followed
    by [push_back] of the member just removed, and [pop_front()] followed by
    [push_front] of the member just removed, run without undefined behaviour
    and leave the whole store exactly as it was; in intrusive_list.h also
    when that member is the only one, although [pop_front] then leaves
    [first] at [&after_last]. *)
Theorem pop_then_push_restores_store :
  (∀ σ l xs z, chain_h σ l (xs ++ [z]) →
     (intrusive_list_h.pop_back l;; intrusive_list_h.push_back l z) σ = Some (tt, σ)) ∧
  (∀ σ l x xs, chain_h σ l (x :: xs) →
     (intrusive_list_h.pop_front l;; intrusive_list_h.push_front l x) σ = Some (tt, σ)) ∧
  (∀ σ l xs z, chain_p σ l (xs ++ [z]) →
     (part_000.pop_back l;; part_000.push_back l z) σ = Some (tt, σ)) ∧
  (∀ σ l x xs, chain_p σ l (x :: xs) →
     (part_000.pop_front l;; part_000.push_front l x) σ = Some (tt, σ)).
Proof.
  assert (∀ nil σ l xs z, chain_with nil σ l (xs ++ [z]) →
            (z ∉ xs ++ [l]) ∧ links σ !! z = Some (mk_element (last xs) (Some l))) as Hback.
  { intros nil σ l xs z [Hl _]. split; [|by apply linked_lookup_last].
    destruct Hl as [Hnd _]. rewrite <-(assoc_L (++)) in Hnd.
    apply NoDup_app in Hnd as (_ & Hd & Hnd'). apply NoDup_cons in Hnd' as [Hz _].
    intros [Hin|Hin]%elem_of_app; [|done]. eapply Hd; [done|left]. }
  assert (∀ nil σ l x xs, chain_with nil σ l (x :: xs) →
            (x ∉ xs ++ [l]) ∧ is_Some (links σ !! x)) as Hfront.
  { intros nil σ l x xs [Hl _]. split.
    - destruct Hl as [Hnd _]. by apply NoDup_cons in Hnd as [? _].
    - rewrite (linked_lookup_head _ _ _ _ Hl). eauto. }
  split; [|split; [|split]].
  - intros σ l xs z Hc. destruct (Hback (λ _, None) _ _ _ _ Hc) as [Hz Hlz].
    destruct (pop_back_h σ l xs z Hc) as ([] & σ1 & Hr1 & Hc1 & Hx1 & Ho1 & Hf1).
    rewrite <-Hx1 in Hlz.
    destruct (push_back_h_live σ1 l xs z _ Hc1 Hz Hlz) as ([] & σ2 & Hr2 & Hc2 & Ho2 & Hf2).
    { by intros ->. }
    rewrite bind_eq, Hr1, Hr2. do 2 f_equal.
    eapply (chain_restored (λ _, None) (λ _, None) σ σ2 l (xs ++ [z])); [done|done|by right| |].
    + intros y Hy. rewrite Ho2, Ho1; [done| |]; revert Hy; set_solver.
    + intros l' Hl'. by rewrite Hf2, Hf1.
  - intros σ l x xs Hc. destruct (Hfront (λ _, None) _ _ _ _ Hc) as [Hx Hlx].
    destruct (pop_front_h_any (λ _, None) σ l x xs Hc) as ([] & σ1 & Hr1 & Hc1 & Hx1 & Ho1 & Hf1).
    rewrite <-Hx1 in Hlx.
    destruct (push_front_h_any σ1 l xs x Hc1 Hx Hlx) as ([] & σ2 & Hr2 & Hc2 & Ho2 & Hf2).
    rewrite bind_eq, Hr1, Hr2. do 2 f_equal.
    eapply (chain_restored (λ _, None) (λ l, Some l) σ σ2 l (x :: xs)); [done|done|by left| |].
    + intros y Hy. rewrite Ho2, Ho1; [done| |]; revert Hy; set_solver.
    + intros l' Hl'. by rewrite Hf2, Hf1.
  - intros σ l xs z Hc. destruct (Hback (λ l, Some l) _ _ _ _ Hc) as [Hz Hlz].
    destruct (pop_back_p σ l xs z Hc) as ([] & σ1 & Hr1 & Hc1 & Hx1 & Ho1 & Hf1).
    rewrite <-Hx1 in Hlz.
    destruct (push_back_p σ1 l xs z Hc1 Hz) as ([] & σ2 & Hr2 & Hc2 & Ho2 & Hf2); [eauto|].
    rewrite bind_eq, Hr1, Hr2. do 2 f_equal.
    eapply (chain_restored (λ l, Some l) (λ l, Some l) σ σ2 l (xs ++ [z])); [done|done|by right| |].
    + intros y Hy. rewrite Ho2, Ho1; [done| |]; revert Hy; set_solver.
    + intros l' Hl'. by rewrite Hf2, Hf1.
  - intros σ l x xs Hc. destruct (Hfront (λ l, Some l) _ _ _ _ Hc) as [Hx Hlx].
    destruct (pop_front_p σ l x xs Hc) as ([] & σ1 & Hr1 & Hc1 & Hx1 & Ho1 & Hf1).
    rewrite <-Hx1 in Hlx.
    destruct (push_front_p σ1 l xs x Hc1 Hx Hlx) as ([] & σ2 & Hr2 & Hc2 & Ho2 & Hf2).
    rewrite bind_eq, Hr1, Hr2. do 2 f_equal.
    eapply (chain_restored (λ l, Some l) (λ l, Some l) σ σ2 l (x :: xs)); [done|done|by right| |].
    + intros y Hy. rewrite Ho2, Ho1; [done| |]; revert Hy; set_solver.
    + intros l' Hl'. by rewrite Hf2, Hf1.
Qed.

Lemma pop_then_push_restores_store_witness :
  let σh := after (fill_h 100 [7]) σ0 in
  let σp := after (fill_p 100 [1; 2; 3]) σ0 in
  (chain_h σh 100 (7 :: []) ∧ chain_p σp 100 ([1; 2] ++ [3])) ∧
  (intrusive_list_h.pop_front 100;; intrusive_list_h.push_front 100 7) σh = Some (tt, σh) ∧
  (part_000.pop_back 100;; part_000.push_back 100 3) σp = Some (tt, σp).
Proof.
  intros σh σp.
  assert (chain_h σh 100 (7 :: [])) as Hh by by_decision.
  assert (chain_p σp 100 ([1; 2] ++ [3])) as Hp by by_decision.
  split; [exact (conj Hh Hp)|]. split.
  - exact (proj1 (proj2 pop_then_push_restores_store) σh 100 7 [] Hh).
  - exact (proj1 (proj2 (proj2 pop_then_push_restores_store)) σp 100 [1; 2] 3 Hp).
Defined.

(** ** The two files, operation by operation *)

Lemma same_outcome nil nil' l ys (m1 m2 : M unit) σ :
  wp m1 σ (λ _ σ', chain_with nil σ' l ys ∧
                   (∀ y, y ∉ ys ++ [l] → links σ' !! y = links σ !! y) ∧
                   (∀ l', l' ≠ l → firsts σ' !! l' = firsts σ !! l')) →
  wp m2 σ (λ _ σ', chain_with nil' σ' l ys ∧
                   (∀ y, y ∉ ys ++ [l] → links σ' !! y = links σ !! y) ∧
                   (∀ l', l' ≠ l → firsts σ' !! l' = firsts σ !! l')) →
  ys ≠ [] ∨ nil l = nil' l →
  m1 σ = m2 σ.
Proof.
  intros ([] & s1 & Hr1 & Hc1 & Ho1 & Hf1) ([] & s2 & Hr2 & Hc2 & Ho2 & Hf2) Hne.
  rewrite Hr1, Hr2. do 2 f_equal.
  eapply (chain_restored nil' nil s2 s1 l ys); [done|done| | |].
  - destruct Hne as [?|Heq]; [by left|by right].
  - intros y Hy. by rewrite Ho1, Ho2.
  - intros l' Hl'. by rewrite Hf1, Hf2.
Qed.

(** X12. The push and pop operations that intrusive_list.h writes out by
    hand have, on a chain with members, exactly the effect of the ones
    part_000 writes with [insert] and [erase]: started in the same store
    they end in the same store.  This holds for [push_back], [push_front]
    and [pop_front] on every chain with a member, and for [pop_back] when a
    member stays. *)
Theorem handwritten_operations_match :
  (∀ σ l xs x, chain_h σ l xs → xs ≠ [] → x ∉ xs ++ [l] → is_Some (links σ !! x) →
     intrusive_list_h.push_back l x σ = part_000.push_back l x σ ∧
     intrusive_list_h.push_front l x σ = part_000.push_front l x σ) ∧
  (∀ σ l x xs, chain_h σ l (x :: xs) →
     intrusive_list_h.pop_front l σ = part_000.pop_front l σ) ∧
  (∀ σ l xs z, chain_h σ l (xs ++ [z]) → xs ≠ [] →
     intrusive_list_h.pop_back l σ = part_000.pop_back l σ).
Proof.
  split; [|split].
  - intros σ l xs x Hc Hne Hfresh [ce Hce].
    pose proof (chain_with_members _ (λ l, Some l) _ _ _ Hne Hc) as Hcp.
    split.
    + eapply (same_outcome (λ _, None) (λ l, Some l) l (xs ++ [x]));
        [| |left; by destruct xs].
      * eapply wp_mono; [eapply push_back_h_live; [done|done|done|done]|].
        intros [] σ' (H1 & H2 & H3). split; [done|]. split; [|done].
        intros y Hy. apply H2. revert Hy. set_solver.
      * eapply wp_mono; [eapply push_back_p; [done|done|eauto]|].
        intros [] σ' (H1 & H2 & H3). split; [done|]. split; [|done].
        intros y Hy. apply H2. revert Hy. set_solver.
    + destruct xs as [|x0 xs]; [done|].
      eapply (same_outcome (λ _, None) (λ l, Some l) l (x :: x0 :: xs));
        [| |by left].
      * eapply wp_mono; [eapply push_front_h; [done|done|eauto]|].
        intros [] σ' (H1 & H2 & H3). split; [done|]. split; [|done].
        intros y Hy. apply H2. revert Hy. set_solver.
      * eapply wp_mono; [eapply push_front_p; [done|done|eauto]|].
        intros [] σ' (H1 & H2 & H3). split; [done|]. split; [|done].
        intros y Hy. apply H2. revert Hy. set_solver.
  - intros σ l x xs Hc.
    pose proof (chain_with_members (λ _, None) (λ l, Some l) σ l (x :: xs)
                  ltac:(done) Hc) as Hcp.
    eapply (same_outcome (λ l, Some l) (λ l, Some l) l xs); [| |by right].
    * eapply wp_mono; [by eapply (pop_front_h_any (λ _, None))|].
      intros [] σ' (H1 & H2 & H3 & H4). by split.
    * eapply wp_mono; [by eapply pop_front_p|].
      intros [] σ' (H1 & H2 & H3 & H4). by split.
  - intros σ l xs z Hc Hne.
    assert (xs ++ [z] ≠ []) as Hne' by (by destruct xs).
    pose proof (chain_with_members (λ _, None) (λ l, Some l) σ l _ Hne' Hc) as Hcp.
    eapply (same_outcome (λ _, None) (λ l, Some l) l xs); [| |by left].
    * eapply wp_mono; [by eapply pop_back_h|].
      intros [] σ' (H1 & H2 & H3 & H4). by split.
    * eapply wp_mono; [by eapply pop_back_p|].
      intros [] σ' (H1 & H2 & H3 & H4). by split.
Qed.

Lemma handwritten_operations_match_witness :
  let σ := after (fill_h 100 [1; 2];; new_element 4 None None) σ0 in
  (chain_h σ 100 [1; 2] ∧ [1; 2] ≠ [] ∧ (4 ∉ [1; 2] ++ [100]) ∧
   is_Some (links σ !! 4) ∧ chain_h σ 100 ([1] ++ [2]) ∧ [1] ≠ []) ∧
  (intrusive_list_h.push_back 100 4 σ = part_000.push_back 100 4 σ ∧
   intrusive_list_h.push_front 100 4 σ = part_000.push_front 100 4 σ) ∧
  intrusive_list_h.pop_front 100 σ = part_000.pop_front 100 σ ∧
  intrusive_list_h.pop_back 100 σ = part_000.pop_back 100 σ.
Proof.
  intros σ.
  assert (chain_h σ 100 [1; 2]) as Hc by by_decision.
  assert ([1; 2] ≠ ([] : list nat)) as Hne by discriminate.
  assert (4 ∉ [1; 2] ++ [100]) as Hfresh by by_decision.
  assert (is_Some (links σ !! 4)) as Hlive by by_decision.
  assert ([1] ≠ ([] : list nat)) as Hne1 by discriminate.
  split; [exact (conj Hc (conj Hne (conj Hfresh (conj Hlive (conj Hc Hne1)))))|].
  split; [|split].
  - exact (proj1 handwritten_operations_match σ 100 [1; 2] 4 Hc Hne Hfresh Hlive).
  - exact (proj1 (proj2 handwritten_operations_match) σ 100 1 [2] Hc).
  - exact (proj2 (proj2 handwritten_operations_match) σ 100 [1] 2 Hc Hne1).
Defined.

Lemma two_chains_restored nil σ σ' l d xs ys :
  chain_with nil σ l xs → chain_with nil σ d ys →
  chain_with nil σ' l xs → chain_with nil σ' d ys →
  (∀ y, y ∉ xs ++ [l] → y ∉ ys ++ [d] → links σ' !! y = links σ !! y) →
  (∀ l', l' ≠ l → l' ≠ d → firsts σ' !! l' = firsts σ !! l') →
  σ' = σ.
Proof.
  intros Hl Hd Hl' Hd' Ho Hfo.
  destruct (chain_agree nil nil σ σ' l xs Hl Hl' (or_intror eq_refl)) as [Hin1 Hf1].
  destruct (chain_agree nil nil σ σ' d ys Hd Hd' (or_intror eq_refl)) as [Hin2 Hf2].
  apply state_eq.
  - intros y. destruct (decide (y ∈ xs ++ [l])); [auto|].
    destruct (decide (y ∈ ys ++ [d])); auto.
  - intros l'. destruct (decide (l' = l)) as [->|]; [auto|].
    destruct (decide (l' = d)) as [->|]; auto.
Qed.

Lemma splice_there_and_back nil σ l donor r1 r2 d1 mid d2 from :
  chain_with nil σ l (r1 ++ r2) →
  chain_with nil σ donor (d1 ++ mid ++ d2) →
  NoDup ((r1 ++ r2 ++ [l]) ++ d1 ++ mid ++ d2 ++ [donor]) →
  head mid = Some from →
  (splice_with nil l (head_or r2 (Some l)) donor (Some from) (head_or d2 (Some donor));;
   splice_with nil donor (head_or d2 (Some donor)) l (Some from) (head_or r2 (Some l))) σ =
    Some (tt, σ).
Proof.
  intros Hl Hd Hnd Hfrom.
  destruct (splice_other nil σ l donor r1 r2 d1 mid d2 from Hl Hd Hnd Hfrom)
    as ([] & σ1 & Hr1 & Hl1 & Hd1 & Ho1 & Hf1).
  assert (NoDup ((d1 ++ d2 ++ [donor]) ++ r1 ++ mid ++ r2 ++ [l])) as Hnd1
    by nodup_from Hnd.
  destruct (splice_other nil σ1 donor l d1 d2 r1 mid r2 from Hd1 Hl1 Hnd1 Hfrom)
    as ([] & σ2 & Hr2 & Hd2 & Hl2 & Ho2 & Hf2).
  rewrite bind_eq, Hr1, Hr2. do 2 f_equal.
  eapply (two_chains_restored nil σ σ2 l donor); [done..| |].
  - intros y Hy1 Hy2. rewrite Ho2, Ho1; [done| |]; revert Hy1 Hy2; set_solver.
  - intros l' H1 H2. by rewrite Hf2, Hf1.
Qed.

(** X13. In either file, moving a range of one list to a position of
    another list by [splice] and then moving the same range back to where
    it came from, by [splice] on the donor with the two positions swapped,
    runs without undefined behaviour and leaves the whole store exactly as
    it was. *)
Theorem splice_there_and_back_restores_store σ l donor r1 r2 d1 mid d2 from :
  NoDup ((r1 ++ r2 ++ [l]) ++ d1 ++ mid ++ d2 ++ [donor]) →
  head mid = Some from →
  (chain_h σ l (r1 ++ r2) → chain_h σ donor (d1 ++ mid ++ d2) →
   (intrusive_list_h.splice l (head_or r2 (Some l)) donor (Some from)
      (head_or d2 (Some donor));;
    intrusive_list_h.splice donor (head_or d2 (Some donor)) l (Some from)
      (head_or r2 (Some l))) σ = Some (tt, σ)) ∧
  (chain_p σ l (r1 ++ r2) → chain_p σ donor (d1 ++ mid ++ d2) →
   (part_000.splice l (head_or r2 (Some l)) donor (Some from)
      (head_or d2 (Some donor));;
    part_000.splice donor (head_or d2 (Some donor)) l (Some from)
      (head_or r2 (Some l))) σ = Some (tt, σ)).
Proof.
  intros Hnd Hfrom. split; intros Hl Hd.
  - exact (splice_there_and_back (λ _, None) σ l donor r1 r2 d1 mid d2 from Hl Hd Hnd Hfrom).
  - exact (splice_there_and_back (λ l, Some l) σ l donor r1 r2 d1 mid d2 from Hl Hd Hnd Hfrom).
Qed.

Lemma splice_there_and_back_restores_store_witness :
  let σh := after (fill_h 100 [1; 2];; fill_h 200 [5; 6; 7]) σ0 in
  let σp := after (fill_p 100 [1; 2];; fill_p 200 [5; 6; 7]) σ0 in
  (NoDup (([1] ++ [2] ++ [100]) ++ [5] ++ [6] ++ [7] ++ [200]) ∧
   head [6] = Some 6 ∧
   chain_h σh 100 ([1] ++ [2]) ∧ chain_h σh 200 ([5] ++ [6] ++ [7]) ∧
   chain_p σp 100 ([1] ++ [2]) ∧ chain_p σp 200 ([5] ++ [6] ++ [7])) ∧
  (intrusive_list_h.splice 100 (head_or [2] (Some 100)) 200 (Some 6)
     (head_or [7] (Some 200));;
   intrusive_list_h.splice 200 (head_or [7] (Some 200)) 100 (Some 6)
     (head_or [2] (Some 100))) σh = Some (tt, σh) ∧
  (part_000.splice 100 (head_or [2] (Some 100)) 200 (Some 6)
     (head_or [7] (Some 200));;
   part_000.splice 200 (head_or [7] (Some 200)) 100 (Some 6)
     (head_or [2] (Some 100))) σp = Some (tt, σp).
Proof.
  intros σh σp.
  assert (NoDup (([1] ++ [2] ++ [100]) ++ [5] ++ [6] ++ [7] ++ [200])) as Hnd
    by by_decision.
  assert (chain_h σh 100 ([1] ++ [2])) as Hh1 by by_decision.
  assert (chain_h σh 200 ([5] ++ [6] ++ [7])) as Hh2 by by_decision.
  assert (chain_p σp 100 ([1] ++ [2])) as Hp1 by by_decision.
  assert (chain_p σp 200 ([5] ++ [6] ++ [7])) as Hp2 by by_decision.
  split; [exact (conj Hnd (conj eq_refl (conj Hh1 (conj Hh2 (conj Hp1 Hp2)))))|].
  split.
  - exact (proj1 (splice_there_and_back_restores_store σh 100 200 [1] [2] [5] [6] [7] 6
                    Hnd eq_refl) Hh1 Hh2).
  - exact (proj2 (splice_there_and_back_restores_store σp 100 200 [1] [2] [5] [6] [7] 6
                    Hnd eq_refl) Hp1 Hp2).
Defined.

(** ** Sequences of operations *)

Section sequences.
Variable chain : state → loc → list nat → Prop.

Lemma each_push_back push l xs :
  keeps_push_back chain push →
  ∀ σ ys, chain σ l ys → NoDup (ys ++ l :: xs) → Forall (detached (links σ)) xs →
    ∃ σ', each (push l) xs σ = Some (tt, σ') ∧ chain σ' l (ys ++ xs) ∧
          (∀ y, y ∉ xs ++ ys ++ [l] → links σ' !! y = links σ !! y) ∧
          (∀ l', l' ≠ l → firsts σ' !! l' = firsts σ !! l').
Proof.
  intros Hpush. induction xs as [|x xs IH]; intros σ ys Hc Hnd Hdet.
  - exists σ. rewrite app_nil_r. by repeat split.
  - apply Forall_cons in Hdet as [Hx Hdet].
    assert (x ∉ ys ++ [l]) as Hfresh.
    { apply NoDup_app in Hnd as (_ & Hd & Hnd'). apply NoDup_cons in Hnd' as [Hl Hnd'].
      apply NoDup_cons in Hnd' as [Hx' _].
      intros [Hin|Hin%list_elem_of_singleton]%elem_of_app.
      - eapply Hd; [done|]. right. left.
      - subst. apply Hl. left. }
    destruct (Hpush σ l ys x Hc Hfresh Hx) as (σ1 & Hr1 & Hc1 & Ho1 & Hf1).
    destruct (IH σ1 (ys ++ [x])) as (σ2 & Hr2 & Hc2 & Ho2 & Hf2).
    + done.
    + rewrite <-(assoc_L (++)). simpl. nodup_from Hnd.
    + apply Forall_forall. intros y Hy. unfold detached.
      rewrite Ho1; [by eapply (proj1 (Forall_forall _ _) Hdet)|].
      intros Hin. assert (y ∈ x :: ys ++ [l]) as Hin' by done. clear Hin.
      apply NoDup_app in Hnd as (_ & Hd & Hnd'). apply NoDup_cons in Hnd' as [Hl Hnd'].
      apply NoDup_cons in Hnd' as [Hx' _].
      apply elem_of_cons in Hin' as [->|[Hin|Hin%list_elem_of_singleton]%elem_of_app].
      * done.
      * eapply Hd; [done|]. right. by right.
      * subst. apply Hl. by right.
    + exists σ2. split; [|split; [|split]].
      * simpl. by rewrite bind_eq, Hr1.
      * by rewrite <-(assoc_L (++)) in Hc2.
      * intros y Hy. rewrite Ho2, Ho1; [done| |]; revert Hy; set_solver.
      * intros l' Hl'. rewrite Hf2 by done. apply Hf1. set_solver.
Qed.

Variable ok : list nat → Prop.

Lemma each_push_front push l xs :
  keeps_push_front chain ok push → (∀ x ys, ok ys → ok (x :: ys)) →
  ∀ σ ys, chain σ l ys → ok ys → NoDup (ys ++ l :: xs) →
    Forall (detached (links σ)) xs →
    ∃ σ', each (push l) xs σ = Some (tt, σ') ∧ chain σ' l (rev xs ++ ys) ∧
          (∀ y, y ∉ xs ++ ys ++ [l] → links σ' !! y = links σ !! y) ∧
          (∀ l', l' ≠ l → firsts σ' !! l' = firsts σ !! l').
Proof.
  intros Hpush Hok. induction xs as [|x xs IH]; intros σ ys Hc Hys Hnd Hdet.
  - exists σ. by repeat split.
  - apply Forall_cons in Hdet as [Hx Hdet].
    assert (x ∉ ys ++ [l]) as Hfresh.
    { apply NoDup_app in Hnd as (_ & Hd & Hnd'). apply NoDup_cons in Hnd' as [Hl Hnd'].
      apply NoDup_cons in Hnd' as [Hx' _].
      intros [Hin|Hin%list_elem_of_singleton]%elem_of_app.
      - eapply Hd; [done|]. right. left.
      - subst. apply Hl. left. }
    destruct (Hpush σ l ys x Hc Hys Hfresh Hx) as (σ1 & Hr1 & Hc1 & Ho1 & Hf1).
    destruct (IH σ1 (x :: ys)) as (σ2 & Hr2 & Hc2 & Ho2 & Hf2).
    + done.
    + by apply Hok.
    + simpl. nodup_from Hnd.
    + apply Forall_forall. intros y Hy. unfold detached.
      rewrite Ho1; [by eapply (proj1 (Forall_forall _ _) Hdet)|].
      intros Hin. assert (y ∈ x :: ys ++ [l]) as Hin' by done. clear Hin.
      apply NoDup_app in Hnd as (_ & Hd & Hnd'). apply NoDup_cons in Hnd' as [Hl Hnd'].
      apply NoDup_cons in Hnd' as [Hx' _].
      apply elem_of_cons in Hin' as [->|[Hin|Hin%list_elem_of_singleton]%elem_of_app].
      * done.
      * eapply Hd; [done|]. right. by right.
      * subst. apply Hl. by right.
    + exists σ2. split; [|split; [|split]].
      * simpl. by rewrite bind_eq, Hr1.
      * simpl. by rewrite <-(assoc_L (++)).
      * intros y Hy. rewrite Ho2, Ho1; [done| |]; revert Hy; set_solver.
      * intros l' Hl'. rewrite Hf2 by done. apply Hf1. set_solver.
Qed.
End sequences.

(** X14. [push_back] of [x1, ..., xn] in this order onto a chain with
    members [ys] leaves the members [ys, x1, ..., xn]; [push_front] of them
    leaves [xn, ..., x1, ys].  The elements are distinct detached objects
    that are no members.  This holds in part_000 and, for [push_back], in
    intrusive_list.h; for [push_front] in intrusive_list.h when [ys] is not
    empty. *)
Theorem push_sequences_build_chain σ l ys xs :
  NoDup (ys ++ l :: xs) → Forall (detached (links σ)) xs →
  (chain_h σ l ys →
     (∃ σ', each (intrusive_list_h.push_back l) xs σ = Some (tt, σ') ∧
            chain_h σ' l (ys ++ xs)) ∧
     (ys ≠ [] →
      ∃ σ', each (intrusive_list_h.push_front l) xs σ = Some (tt, σ') ∧
            chain_h σ' l (rev xs ++ ys))) ∧
  (chain_p σ l ys →
     (∃ σ', each (part_000.push_back l) xs σ = Some (tt, σ') ∧
            chain_p σ' l (ys ++ xs)) ∧
     (∃ σ', each (part_000.push_front l) xs σ = Some (tt, σ') ∧
            chain_p σ' l (rev xs ++ ys))).
Proof.
  intros Hnd Hdet. split; intros Hc; split.
  - destruct (each_push_back chain_h _ l xs header_keeps_push_back σ ys Hc Hnd Hdet)
      as (σ' & Hr & Hc' & _). eauto.
  - intros Hne.
    destruct (each_push_front chain_h non_empty _ l xs header_keeps_push_front
                ltac:(done) σ ys Hc Hne Hnd Hdet) as (σ' & Hr & Hc' & _). eauto.
  - destruct (each_push_back chain_p _ l xs part_000_keeps_push_back σ ys Hc Hnd Hdet)
      as (σ' & Hr & Hc' & _). eauto.
  - destruct (each_push_front chain_p any_chain _ l xs part_000_keeps_push_front
                ltac:(done) σ ys Hc I Hnd Hdet) as (σ' & Hr & Hc' & _). eauto.
Qed.

Lemma push_sequences_build_chain_witness :
  let σh := after (fill_h 100 [1; 2];; make_elements [5; 6; 7]) σ0 in
  let σp := after (part_000.new_list 100;; make_elements [5; 6; 7]) σ0 in
  (NoDup ([1; 2] ++ 100 :: [5; 6; 7]) ∧ Forall (detached (links σh)) [5; 6; 7] ∧
   chain_h σh 100 [1; 2] ∧ [1; 2] ≠ [] ∧
   NoDup ([] ++ 100 :: [5; 6; 7]) ∧ Forall (detached (links σp)) [5; 6; 7] ∧
   chain_p σp 100 []) ∧
  (∃ σ', each (intrusive_list_h.push_front 100) [5; 6; 7] σh = Some (tt, σ') ∧
         chain_h σ' 100 (rev [5; 6; 7] ++ [1; 2])) ∧
  (∃ σ', each (part_000.push_front 100) [5; 6; 7] σp = Some (tt, σ') ∧
         chain_p σ' 100 (rev [5; 6; 7] ++ [])).
Proof.
  intros σh σp.
  assert (NoDup ([1; 2] ++ 100 :: [5; 6; 7])) as Hnd by by_decision.
  assert (Forall (detached (links σh)) [5; 6; 7]) as Hdh by by_decision.
  assert (chain_h σh 100 [1; 2]) as Hh by by_decision.
  assert ([1; 2] ≠ ([] : list nat)) as Hne by discriminate.
  assert (NoDup ([] ++ 100 :: [5; 6; 7])) as Hnd' by by_decision.
  assert (Forall (detached (links σp)) [5; 6; 7]) as Hdp by by_decision.
  assert (chain_p σp 100 []) as Hp by by_decision.
  split; [exact (conj Hnd (conj Hdh (conj Hh (conj Hne (conj Hnd' (conj Hdp Hp))))))|].
  split.
  - exact (proj2 (proj1 (push_sequences_build_chain σh 100 [1; 2] [5; 6; 7] Hnd Hdh) Hh) Hne).
  - exact (proj2 (proj2 (push_sequences_build_chain σp 100 [] [5; 6; 7] Hnd' Hdp) Hp)).
Defined.

Lemma make_elements_run xs σ :
  NoDup xs →
  ∃ σ', make_elements xs σ = Some (tt, σ') ∧
        Forall (detached (links σ')) xs ∧
        (∀ y, y ∉ xs → links σ' !! y = links σ !! y) ∧
        firsts σ' = firsts σ.
Proof.
  revert σ. induction xs as [|x xs IH]; intros σ Hnd.
  - exists σ. by repeat split.
  - apply NoDup_cons in Hnd as [Hx Hnd].
    destruct (IH (mk_state (<[x := mk_element None None]> (links σ)) (firsts σ)) Hnd)
      as (σ' & Hr & Hdet & Ho & Hf).
    exists σ'. split; [exact Hr|]. split; [|split; [|done]].
    + apply Forall_cons. split; [|done]. unfold detached.
      rewrite (Ho x Hx). simpl. by rewrite lookup_insert_eq.
    + intros y Hy. apply not_elem_of_cons in Hy as [Hyx Hy].
      rewrite (Ho y Hy). simpl. by rewrite lookup_insert_ne.
Qed.

(** X15. Construction: a list object constructed at [l], elements
    constructed at the distinct addresses [xs] with both references null, and
    [push_back] of each in turn.  From any store, in either file, this runs
    without undefined behaviour and gives a well-formed chain whose
    traversal from [begin()] to [end()] yields [xs]. *)
Theorem constructed_list_holds_pushed_elements σ l xs :
  NoDup (l :: xs) →
  (∃ σ', fill_h l xs σ = Some (tt, σ') ∧ chain_h σ' l xs ∧
         to_list_h (S (length xs)) l σ' = Some (xs, σ')) ∧
  (∃ σ', fill_p l xs σ = Some (tt, σ') ∧ chain_p σ' l xs ∧
         to_list_p (S (length xs)) l σ' = Some (xs, σ')).
Proof.
  intros Hnd. pose proof Hnd as Hnd0. apply NoDup_cons in Hnd0 as [Hl Hxs].
  split.
  - set (σ1 := mk_state (<[l := mk_element None None]> (links σ)) (<[l := None]> (firsts σ))).
    destruct (make_elements_run xs σ1 Hxs) as (σ2 & Hr2 & Hdet & Ho & Hf).
    assert (chain_h σ2 l []) as Hc2.
    { destruct σ2 as [h2 f2]. simpl in *. apply chain_h_nil.
      - rewrite (Ho l Hl). by rewrite lookup_insert_eq.
      - rewrite Hf. by rewrite lookup_insert_eq. }
    destruct (each_push_back chain_h _ l xs header_keeps_push_back σ2 [] Hc2 Hnd Hdet)
      as (σ3 & Hr3 & Hc3 & _).
    exists σ3. split; [|split; [done|]].
    + unfold fill_h. rewrite bind_eq.
      change (intrusive_list_h.new_list l σ) with (Some (tt, σ1)). cbv beta iota.
      by rewrite bind_eq, Hr2.
    + apply chain_h_to_list; [done|lia].
  - set (σ1 := mk_state (<[l := mk_element None None]> (links σ)) (<[l := Some l]> (firsts σ))).
    destruct (make_elements_run xs σ1 Hxs) as (σ2 & Hr2 & Hdet & Ho & Hf).
    assert (chain_p σ2 l []) as Hc2.
    { destruct σ2 as [h2 f2]. simpl in *. apply chain_p_nil.
      - rewrite (Ho l Hl). by rewrite lookup_insert_eq.
      - rewrite Hf. by rewrite lookup_insert_eq. }
    destruct (each_push_back chain_p _ l xs part_000_keeps_push_back σ2 [] Hc2 Hnd Hdet)
      as (σ3 & Hr3 & Hc3 & _).
    exists σ3. split; [|split; [done|]].
    + unfold fill_p. rewrite bind_eq.
      change (part_000.new_list l σ) with (Some (tt, σ1)). cbv beta iota.
      by rewrite bind_eq, Hr2.
    + apply chain_p_to_list; [done|lia].
Qed.

Lemma constructed_list_holds_pushed_elements_witness :
  NoDup (100 :: [3; 1; 2]) ∧
  (∃ σ', fill_h 100 [3; 1; 2] σ0 = Some (tt, σ') ∧ chain_h σ' 100 [3; 1; 2] ∧
         to_list_h (S (length [3; 1; 2])) 100 σ' = Some ([3; 1; 2], σ')) ∧
  (∃ σ', fill_p 100 [3; 1; 2] σ0 = Some (tt, σ') ∧ chain_p σ' 100 [3; 1; 2] ∧
         to_list_p (S (length [3; 1; 2])) 100 σ' = Some ([3; 1; 2], σ')).
Proof.
  assert (NoDup (100 :: [3; 1; 2])) as Hnd by by_decision.
  split; [exact Hnd|]. exact (constructed_list_holds_pushed_elements σ0 100 [3; 1; 2] Hnd).
Defined.

(** ** Emptying a list *)

Lemma erase_all_run nil σ l xs fuel :
  chain_with nil σ l xs → length xs < fuel →
  wp (erase_all fuel l (head_or xs (Some l))) σ (λ _ σ',
    linked (links σ') l [] ∧
    firsts σ' !! l = Some (match xs with [] => nil l | _ :: _ => Some l end) ∧
    (∀ y, y ∉ xs ++ [l] → links σ' !! y = links σ !! y) ∧
    (∀ l', l' ≠ l → firsts σ' !! l' = firsts σ !! l')).
Proof.
  revert nil σ fuel. induction xs as [|x xs IH]; intros nil σ fuel Hc Hlt.
  - destruct fuel as [|fuel]; [simpl in Hlt; lia|]. simpl.
    unfold iter_ne. rewrite bool_decide_eq_true_2 by done. simpl.
    apply wp_ret. destruct Hc as [Hl Hf].
    exact (conj Hl (conj Hf (conj (λ _ _, eq_refl) (λ _ _, eq_refl)))).
  - destruct fuel as [|fuel]; [simpl in Hlt; lia|]. simpl in *.
    assert (x ≠ l) as Hxl.
    { destruct Hc as [[Hnd _] _]. apply NoDup_cons in Hnd as [Hx _]. set_solver. }
    unfold iter_ne. rewrite bool_decide_eq_false_2 by (unfold end_, head_or; simpl; congruence). simpl.
    apply wp_bind. eapply wp_mono; [apply (erase_leaves_chain_p nil σ l [] x xs Hc)|].
    intros r σ1 (-> & Hc1 & Hx1 & Ho1 & Hf1). simpl in *.
    eapply wp_mono; [apply (IH (λ l, Some l) σ1 fuel Hc1); lia|].
    intros [] σ2 (Hl2 & Hfl2 & Ho2 & Hf2). split; [done|]. split; [|split].
    + rewrite Hfl2. by destruct xs.
    + intros y Hy. rewrite Ho2, Ho1; [done| |]; revert Hy; set_solver.
    + intros l' Hl'. by rewrite Hf2, Hf1.
Qed.

(** X16. The loop [for (it = begin(); it != end(); ) it = erase(it);] over
    a well-formed chain, in either file, ends without undefined behaviour
    and leaves a list without members: [begin()] is [end()], the traversal
    yields nothing, and no object outside the chain is written.  In
    part_000 the result is a well-formed empty chain.  In intrusive_list.h,
    when there was a member, [first] is left at [&after_last] and [empty()]
    answers [false]. *)
Theorem erasing_every_member :
  (∀ σ l xs fuel, chain_h σ l xs → length xs < fuel →
     ∃ σ', (b ← intrusive_list_h.begin l; erase_all fuel l b) σ = Some (tt, σ') ∧
           linked (links σ') l [] ∧
           intrusive_list_h.begin l σ' = Some (end_ l, σ') ∧
           to_list_h 1 l σ' = Some ([], σ') ∧
           intrusive_list_h.empty l σ' = Some (bool_decide (xs = []), σ') ∧
           (∀ y, y ∉ xs ++ [l] → links σ' !! y = links σ !! y) ∧
           (∀ l', l' ≠ l → firsts σ' !! l' = firsts σ !! l')) ∧
  (∀ σ l xs fuel, chain_p σ l xs → length xs < fuel →
     ∃ σ', (b ← part_000.begin l; erase_all fuel l b) σ = Some (tt, σ') ∧
           chain_p σ' l [] ∧
           part_000.empty l σ' = Some (true, σ') ∧
           (∀ y, y ∉ xs ++ [l] → links σ' !! y = links σ !! y) ∧
           (∀ l', l' ≠ l → firsts σ' !! l' = firsts σ !! l')).
Proof.
  split.
  - intros σ l xs fuel Hc Hlt.
    destruct (erase_all_run (λ _, None) σ l xs fuel Hc Hlt)
      as ([] & σ' & Hr & Hl' & Hf' & Ho & Hfo).
    exists σ'. rewrite bind_eq, (chain_h_begin _ _ _ Hc).
    replace (head (xs ++ [l])) with (head_or xs (Some l)) by (by destruct xs).
    split; [done|]. split; [done|].
    destruct σ' as [h' f']. simpl in Hf'. split; [|split; [|split; [|done]]].
    + rewrite (begin_h_run _ _ _ _ Hf'). by destruct xs.
    + unfold to_list_h. rewrite bind_eq, (begin_h_run _ _ _ _ Hf').
      replace (match match xs with [] => None | _ :: _ => Some l end with
               | Some _ => match xs with [] => None | _ :: _ => Some l end
               | None => Some l end) with (Some l) by (by destruct xs).
      simpl. unfold iter_eq. by rewrite bool_decide_eq_true_2.
    + unfold intrusive_list_h.empty. rewrite bind_eq, (rd_first_run _ _ _ _ Hf').
      by destruct xs.
  - intros σ l xs fuel Hc Hlt.
    destruct (erase_all_run (λ l, Some l) σ l xs fuel Hc Hlt)
      as ([] & σ' & Hr & Hl' & Hf' & Ho & Hfo).
    assert (chain_p σ' l []) as Hc'.
    { split; [done|]. rewrite Hf'. by destruct xs. }
    exists σ'. rewrite bind_eq, (chain_p_begin _ _ _ Hc).
    replace (head (xs ++ [l])) with (head_or xs (Some l)) by (by destruct xs).
    split; [done|]. split; [done|]. split; [|done].
    by rewrite (chain_p_empty _ _ _ Hc').
Qed.

Lemma erasing_every_member_witness :
  let σh := after (fill_h 100 [1; 2; 3]) σ0 in
  let σp := after (fill_p 100 [1; 2; 3]) σ0 in
  (chain_h σh 100 [1; 2; 3] ∧ chain_p σp 100 [1; 2; 3] ∧ length [1; 2; 3] < 4) ∧
  (∃ σ', (b ← intrusive_list_h.begin 100; erase_all 4 100 b) σh = Some (tt, σ') ∧
         linked (links σ') 100 [] ∧
         intrusive_list_h.begin 100 σ' = Some (end_ 100, σ') ∧
         to_list_h 1 100 σ' = Some ([], σ') ∧
         intrusive_list_h.empty 100 σ' = Some (bool_decide ([1; 2; 3] = []), σ') ∧
         (∀ y, y ∉ [1; 2; 3] ++ [100] → links σ' !! y = links σh !! y) ∧
         (∀ l', l' ≠ 100 → firsts σ' !! l' = firsts σh !! l')) ∧
  (∃ σ', (b ← part_000.begin 100; erase_all 4 100 b) σp = Some (tt, σ') ∧
         chain_p σ' 100 [] ∧
         part_000.empty 100 σ' = Some (true, σ') ∧
         (∀ y, y ∉ [1; 2; 3] ++ [100] → links σ' !! y = links σp !! y) ∧
         (∀ l', l' ≠ 100 → firsts σ' !! l' = firsts σp !! l')).
Proof.
  intros σh σp.
  assert (chain_h σh 100 [1; 2; 3]) as Hh by by_decision.
  assert (chain_p σp 100 [1; 2; 3]) as Hp by by_decision.
  assert (length [1; 2; 3] < 4) as Hlt by (simpl; lia).
  split; [exact (conj Hh (conj Hp Hlt))|]. split.
  - exact (proj1 erasing_every_member σh 100 [1; 2; 3] 4 Hh Hlt).
  - exact (proj2 erasing_every_member σp 100 [1; 2; 3] 4 Hp Hlt).
Defined.

Lemma insert_same {A} (m : gmap nat A) k v : m !! k = Some v → <[k := v]> m = m.
Proof. apply insert_id. Qed.

Lemma clear_run nil σ l xs :
  chain_with nil σ l xs →
  intrusive_list_h.clear l σ =
    Some (tt, mk_state (<[l := mk_element None None]> (links σ)) (<[l := None]> (firsts σ))) ∧
  part_000.clear l σ =
    Some (tt, mk_state (<[l := mk_element None None]> (links σ)) (<[l := Some l]> (firsts σ))).
Proof.
  intros [Hl Hf]. destruct σ as [h f]. simpl in *.
  pose proof (linked_lookup_sentinel _ _ _ Hl) as Hs. split.
  - by rewrite (clear_h_run _ _ _ _ _ Hs Hf).
  - unfold part_000.clear. rewrite bind_eq, (wr_first_run _ _ _ _ _ Hf).
    by rewrite (wr_prev_run _ _ _ _ _ Hs).
Qed.

(** X17. [clear()] empties the list by resetting [first] and
    [after_last.prev] only: in either file it runs without undefined
    behaviour on a well-formed chain, leaves a well-formed empty chain, and
    writes no link of a former member, so these stay linked to one another
    and the former last member still names the list's sentinel as its
    [next]. *)
Theorem clear_leaves_members_linked σ l xs z :
  last xs = Some z →
  (chain_h σ l xs →
     ∃ σ', intrusive_list_h.clear l σ = Some (tt, σ') ∧ chain_h σ' l [] ∧
           (∀ y, y ≠ l → links σ' !! y = links σ !! y) ∧
           next <$> links σ' !! z = Some (Some l) ∧ seg (links σ') None xs (Some l)) ∧
  (chain_p σ l xs →
     ∃ σ', part_000.clear l σ = Some (tt, σ') ∧ chain_p σ' l [] ∧
           (∀ y, y ≠ l → links σ' !! y = links σ !! y) ∧
           next <$> links σ' !! z = Some (Some l) ∧ seg (links σ') None xs (Some l)).
Proof.
  intros Hz.
  assert (∀ nil σ, chain_with nil σ l xs →
            (l ∉ xs) ∧ seg (links σ) None xs (Some l) ∧
            next <$> links σ !! z = Some (Some l)) as Hfacts.
  { intros nil σ0 [[Hnd Hs] _]. apply seg_app in Hs as [Hs _]. simpl in Hs.
    split; [|split; [done|]].
    - apply NoDup_app in Hnd as (_ & Hd & _). intros Hin. eapply Hd; [done|left].
    - destruct (seg_last _ _ _ _ _ Hs Hz) as (c & Hc & Hn). rewrite Hc. simpl.
      by rewrite Hn. }
  split; intros Hc; destruct (Hfacts _ _ Hc) as (Hl & Hs & Hn).
  - eexists. split; [apply (proj1 (clear_run _ _ _ _ Hc))|]. simpl.
    assert (z ≠ l) as Hzl by (intros ->; by apply Hl, last_Some_elem_of).
    split; [|split; [|split]].
    + apply chain_h_nil; by rewrite lookup_insert_eq.
    + intros y Hy. by rewrite lookup_insert_ne.
    + by rewrite lookup_insert_ne.
    + by apply seg_frame.
  - eexists. split; [apply (proj2 (clear_run _ _ _ _ Hc))|]. simpl.
    assert (z ≠ l) as Hzl by (intros ->; by apply Hl, last_Some_elem_of).
    split; [|split; [|split]].
    + apply chain_p_nil; by rewrite lookup_insert_eq.
    + intros y Hy. by rewrite lookup_insert_ne.
    + by rewrite lookup_insert_ne.
    + by apply seg_frame.
Qed.

Lemma clear_leaves_members_linked_witness :
  let σh := after (fill_h 100 [1; 2; 3]) σ0 in
  let σp := after (fill_p 100 [1; 2; 3]) σ0 in
  (last [1; 2; 3] = Some 3 ∧ chain_h σh 100 [1; 2; 3] ∧ chain_p σp 100 [1; 2; 3]) ∧
  (∃ σ', intrusive_list_h.clear 100 σh = Some (tt, σ') ∧ chain_h σ' 100 [] ∧
         (∀ y, y ≠ 100 → links σ' !! y = links σh !! y) ∧
         next <$> links σ' !! 3 = Some (Some 100) ∧
         seg (links σ') None [1; 2; 3] (Some 100)) ∧
  (∃ σ', part_000.clear 100 σp = Some (tt, σ') ∧ chain_p σ' 100 [] ∧
         (∀ y, y ≠ 100 → links σ' !! y = links σp !! y) ∧
         next <$> links σ' !! 3 = Some (Some 100) ∧
         seg (links σ') None [1; 2; 3] (Some 100)).
Proof.
  intros σh σp.
  assert (chain_h σh 100 [1; 2; 3]) as Hh by by_decision.
  assert (chain_p σp 100 [1; 2; 3]) as Hp by by_decision.
  split; [exact (conj eq_refl (conj Hh Hp))|]. split.
  - exact (proj1 (clear_leaves_members_linked σh 100 [1; 2; 3] 3 eq_refl) Hh).
  - exact (proj2 (clear_leaves_members_linked σp 100 [1; 2; 3] 3 eq_refl) Hp).
Defined.

Lemma move_assign_self_h σ l xs :
  chain_h σ l xs →
  wp (intrusive_list_h.move_assign l l) σ (λ _ σ',
    chain_h σ' l [] ∧
    (∀ y, y ∉ [] ++ [l] → links σ' !! y = links σ !! y) ∧
    (∀ l', l' ≠ l → firsts σ' !! l' = firsts σ !! l')).
Proof.
  intros [Hl Hf]. destruct σ as [h f]. simpl in *.
  pose proof (linked_pieces _ _ _ Hl) as Hp. apply tracked_start in Hp as Ht.
  assert (∀ h', tracked h h' [(None, xs, Some l); (None, [l], None)] →
            h' !! l = Some (mk_element None None) ∧
            ∀ y, y ∉ [l] → h' !! y = h !! y) as Hfin.
  { intros h' Ht'. open_tracked Ht'. destruct Hs0 as [Hs0 _]. split; [done|].
    intros y Hy. destruct (decide (y ∈ xs)) as [Hin|Hin].
    - destruct Hp as [_ Hfa]. apply Forall_inv in Hfa. simpl in Hfa.
      by eapply seg_agree.
    - apply Ho. set_solver. }
  unfold intrusive_list_h.move_assign. unfold last_or in Ht.
  rd_first_go. wr_first_go. rd_prev_at 1. wr_prev_at 1. rd_prev_at 1.
  destruct (last xs) as [z|] eqn:Hz.
  - wr_next_at 0. wr_first_go. wr_prev_at 1.
    destruct (Hfin _ Ht) as [H1 H2]. split; [|split; [done|]]; simpl.
    + apply chain_h_nil; [done|]. by rewrite lookup_insert_eq.
    + intros l' ?. by rewrite !lookup_insert_ne.
  - apply wp_bind, wp_ret. wr_first_go. wr_prev_at 1.
    destruct (Hfin _ Ht) as [H1 H2]. split; [|split; [done|]]; simpl.
    + apply chain_h_nil; [done|]. by rewrite lookup_insert_eq.
    + intros l' ?. by rewrite !lookup_insert_ne.
Qed.

(** X18. Move-assignment of a list to itself, in either file, has exactly
    the effect of [clear()]: the list ends up empty and its former members
    are left linked as they were. *)
Theorem self_move_assignment_clears σ l xs :
  (chain_h σ l xs →
     intrusive_list_h.move_assign l l σ = intrusive_list_h.clear l σ) ∧
  (chain_p σ l xs →
     part_000.move_assign l l σ = part_000.clear l σ).
Proof.
  split; intros Hc.
  - eapply (same_outcome (λ _, None) (λ _, None) l []); [|  |by right].
    + by eapply move_assign_self_h.
    + eapply wp_eq; [apply (proj1 (clear_run _ _ _ _ Hc))|]. simpl.
      split; [|split].
      * apply chain_h_nil; by rewrite lookup_insert_eq.
      * intros y Hy. rewrite lookup_insert_ne; [done|]. set_solver.
      * intros l' ?. by rewrite lookup_insert_ne.
  - unfold part_000.move_assign. rewrite bind_eq.
    rewrite (proj2 (clear_run _ _ _ _ Hc)). cbv beta iota.
    unfold part_000.begin. rewrite bind_eq.
    rewrite (rd_first_run l (Some l)) by (by rewrite lookup_insert_eq). cbv beta iota.
    rewrite bind_eq.
    rewrite (rd_first_run l (Some l)) by (by rewrite lookup_insert_eq). cbv beta iota.
    unfold part_000.splice, splice_with, iter_eq.
    by rewrite bool_decide_eq_true_2.
Qed.

Lemma self_move_assignment_clears_witness :
  let σh := after (fill_h 100 [1; 2; 3]) σ0 in
  let σp := after (fill_p 100 [1; 2; 3]) σ0 in
  (chain_h σh 100 [1; 2; 3] ∧ chain_p σp 100 [1; 2; 3]) ∧
  intrusive_list_h.move_assign 100 100 σh = intrusive_list_h.clear 100 σh ∧
  part_000.move_assign 100 100 σp = part_000.clear 100 σp.
Proof.
  intros σh σp.
  assert (chain_h σh 100 [1; 2; 3]) as Hh by by_decision.
  assert (chain_p σp 100 [1; 2; 3]) as Hp by by_decision.
  split; [exact (conj Hh Hp)|]. split.
  - exact (proj1 (self_move_assignment_clears σh 100 [1; 2; 3]) Hh).
  - exact (proj2 (self_move_assignment_clears σp 100 [1; 2; 3]) Hp).
Defined.

(** ** Operations at their limits *)

(** X19. The pop operations on a well-formed empty list.  In
    intrusive_list.h both [pop_back()] and [pop_front()] fall through to
    [clear()] and leave the store exactly as it was.  In part_000
    [pop_front()] is [erase(begin())] with [begin() == end()] and leaves the
    store as it was, while [pop_back()] passes the null [after_last.prev] to
    [erase], which dereferences it. *)
Theorem pops_on_empty_list σ l :
  (chain_h σ l [] →
     intrusive_list_h.pop_back l σ = Some (tt, σ) ∧
     intrusive_list_h.pop_front l σ = Some (tt, σ)) ∧
  (chain_p σ l [] →
     part_000.pop_front l σ = Some (tt, σ) ∧
     part_000.pop_back l σ = None).
Proof.
  split; intros Hc.
  - pose proof (proj1 (clear_run _ _ _ _ Hc)) as Hclear.
    destruct Hc as [Hl Hf]. pose proof (linked_lookup_sentinel _ _ _ Hl) as Hs.
    destruct σ as [h f]. simpl in *.
    rewrite (insert_same h l _ Hs), (insert_same f l _ Hf) in Hclear.
    unfold intrusive_list_h.pop_back, intrusive_list_h.pop_front.
    rewrite !bind_eq, (rd_prev_run _ _ _ _ Hs), (rd_first_run _ _ _ _ Hf). simpl.
    by rewrite !bind_eq.
  - destruct Hc as [Hl Hf]. pose proof (linked_lookup_sentinel _ _ _ Hl) as Hs.
    destruct σ as [h f]. simpl in *.
    unfold part_000.pop_back, part_000.pop_front, part_000.begin.
    rewrite !bind_eq, (rd_prev_run _ _ _ _ Hs), (rd_first_run _ _ _ _ Hf). simpl.
    unfold erase, iter_eq, end_.
    rewrite bool_decide_eq_true_2, bool_decide_eq_false_2 by done. done.
Qed.

Lemma pops_on_empty_list_witness :
  let σh := after (intrusive_list_h.new_list 100) σ0 in
  let σp := after (part_000.new_list 100) σ0 in
  (chain_h σh 100 [] ∧ chain_p σp 100 []) ∧
  (intrusive_list_h.pop_back 100 σh = Some (tt, σh) ∧
   intrusive_list_h.pop_front 100 σh = Some (tt, σh)) ∧
  (part_000.pop_front 100 σp = Some (tt, σp) ∧
   part_000.pop_back 100 σp = None).
Proof.
  intros σh σp.
  assert (chain_h σh 100 []) as Hh by by_decision.
  assert (chain_p σp 100 []) as Hp by by_decision.
  split; [exact (conj Hh Hp)|]. split.
  - exact (proj1 (pops_on_empty_list σh 100) Hh).
  - exact (proj2 (pops_on_empty_list σp 100) Hp).
Defined.

Lemma two_pieces h x l p n :
  x ≠ l → h !! x = Some (mk_element p n) → h !! l = Some (mk_element None None) →
  tracked h h [(p, [x], n); (None, [l], None)].
Proof.
  intros Hxl Hx Hl. apply tracked_start. split.
  - simpl. apply NoDup_cons. split; [set_solver|apply NoDup_singleton].
  - by forall_pieces.
Qed.

(** X20. The pushes of intrusive_list.h onto a well-formed empty list do
    not write both references of the element: [push_back] leaves its [prev]
    and [push_front] leaves its [next] as they were.  The list is a
    well-formed chain of the one element afterwards exactly when that
    reference already was null, for [push_back], or [&after_last], for
    [push_front].  In part_000 both pushes write both references and always
    leave a well-formed chain. *)
Theorem pushes_onto_empty_list σ l x p n :
  x ≠ l → links σ !! x = Some (mk_element p n) →
  (chain_h σ l [] →
     (∃ σ', intrusive_list_h.push_back l x σ = Some (tt, σ') ∧
            links σ' !! x = Some (mk_element p (Some l)) ∧
            (chain_h σ' l [x] ↔ p = None)) ∧
     (∃ σ', intrusive_list_h.push_front l x σ = Some (tt, σ') ∧
            links σ' !! x = Some (mk_element None n) ∧
            (chain_h σ' l [x] ↔ n = Some l))) ∧
  (chain_p σ l [] →
     (∃ σ', part_000.push_back l x σ = Some (tt, σ') ∧ chain_p σ' l [x]) ∧
     (∃ σ', part_000.push_front l x σ = Some (tt, σ') ∧ chain_p σ' l [x])).
Proof.
  intros Hxl Hx. split; intros Hc.
  - destruct Hc as [Hl Hf]. pose proof (linked_lookup_sentinel _ _ _ Hl) as Hs.
    destruct σ as [h f]. simpl in *.
    pose proof (two_pieces h x l p n Hxl Hx Hs) as Ht.
    assert (NoDup [x; l]) as Hnd.
    { apply NoDup_cons. split; [set_solver|apply NoDup_singleton]. }
    split.
    + cut (wp (intrusive_list_h.push_back l x) (mk_state h f) (λ _ σ',
             links σ' !! x = Some (mk_element p (Some l)) ∧
             (chain_h σ' l [x] ↔ p = None))).
      { intros ([] & σ' & Hr & H1 & H2). eauto. }
      unfold intrusive_list_h.push_back.
      rd_prev_at 1. apply wp_bind, wp_ret. wr_prev_at 1. wr_next_at 0. rd_first_go.
      simpl. rd_prev_at 1. wr_first_go. open_tracked Ht.
      destruct Hs0 as [Hs0 _]. destruct Hs1 as [Hs1 _]. simpl.
      split; [done|]. split.
      * intros [[_ [Hx' _]] _]. simpl in Hx'. rewrite Hs0 in Hx'. by injection Hx'.
      * intros ->. split; [split; [done|]|]; simpl.
        -- by rewrite Hs0, Hs1.
        -- by rewrite lookup_insert_eq.
    + cut (wp (intrusive_list_h.push_front l x) (mk_state h f) (λ _ σ',
             links σ' !! x = Some (mk_element None n) ∧
             (chain_h σ' l [x] ↔ n = Some l))).
      { intros ([] & σ' & Hr & H1 & H2). eauto. }
      unfold intrusive_list_h.push_front.
      wr_prev_at 0. rd_first_go. apply wp_bind, wp_ret. wr_first_go. rd_prev_at 1.
      rd_first_go. wr_prev_at 1. open_tracked Ht.
      destruct Hs0 as [Hs0 _]. destruct Hs1 as [Hs1 _]. simpl.
      split; [done|]. split.
      * intros [[_ [Hx' _]] _]. simpl in Hx'. rewrite Hs0 in Hx'. by injection Hx'.
      * intros ->. split; [split; [done|]|]; simpl.
        -- by rewrite Hs0, Hs1.
        -- by rewrite lookup_insert_eq.
  - assert (x ∉ [] ++ [l]) as Hfresh by set_solver.
    assert (is_Some (links σ !! x)) as Hlive by eauto.
    split.
    + destruct (push_back_p σ l [] x Hc Hfresh Hlive) as ([] & σ' & Hr & Hc' & _). eauto.
    + destruct (push_front_p σ l [] x Hc Hfresh Hlive) as ([] & σ' & Hr & Hc' & _). eauto.
Qed.

Lemma pushes_onto_empty_list_witness :
  let σh := after (fill_h 200 [1; 2];; erase 200 (Some 2);;
                   intrusive_list_h.new_list 100) σ0 in
  let σp := after (fill_p 200 [1; 2];; erase 200 (Some 2);;
                   part_000.new_list 100) σ0 in
  (2 ≠ 100 ∧ links σh !! 2 = Some (mk_element (Some 1) (Some 200)) ∧
   links σp !! 2 = Some (mk_element (Some 1) (Some 200)) ∧
   chain_h σh 100 [] ∧ chain_p σp 100 []) ∧
  (∃ σ', intrusive_list_h.push_back 100 2 σh = Some (tt, σ') ∧
         links σ' !! 2 = Some (mk_element (Some 1) (Some 100)) ∧
         (chain_h σ' 100 [2] ↔ Some 1 = None)) ∧
  (∃ σ', part_000.push_back 100 2 σp = Some (tt, σ') ∧ chain_p σ' 100 [2]).
Proof.
  intros σh σp.
  assert (2 ≠ 100) as Hne by lia.
  assert (links σh !! 2 = Some (mk_element (Some 1) (Some 200))) as Hxh by by_decision.
  assert (links σp !! 2 = Some (mk_element (Some 1) (Some 200))) as Hxp by by_decision.
  assert (chain_h σh 100 []) as Hh by by_decision.
  assert (chain_p σp 100 []) as Hp by by_decision.
  split; [exact (conj Hne (conj Hxh (conj Hxp (conj Hh Hp))))|]. split.
  - exact (proj1 (proj1 (pushes_onto_empty_list σh 100 2 (Some 1) (Some 200) Hne Hxh) Hh)).
  - exact (proj1 (proj2 (pushes_onto_empty_list σp 100 2 (Some 1) (Some 200) Hne Hxp) Hp)).
Defined.

Lemma splice_to_own_end nil σ l a mid c from :
  chain_with nil σ l (a ++ mid ++ c) → head mid = Some from →
  wp (splice_with nil l (head_or c (Some l)) l (Some from) (head_or c (Some l))) σ
    (λ _ σ',
      chain_with nil σ' l (a ++ c) ∧
      seg (links σ') (last mid) mid (head_or c (Some l)) ∧
      (∀ y, y ∉ a ++ mid ++ c ++ [l] → links σ' !! y = links σ !! y) ∧
      (∀ l', l' ≠ l → firsts σ' !! l' = firsts σ !! l')).
Proof.
  intros [[Hnd Hs] Hf] Hfrom. destruct σ as [h f]. simpl in *.
  rewrite <-!(assoc_L (++)) in Hs, Hnd.
  apply seg_app in Hs as [Hs0 Hs]. apply seg_app in Hs as [Hs1 Hs2].
  destruct (last_is_Some _ _ Hfrom) as [lm Hlm].
  rewrite head_or_sentinel.
  pose proof (head_app_sentinel c l) as Hpos.
  set (pos := default l (head c)) in *.
  rewrite head_or_app, (head_or_Some mid from) in Hs0 by done.
  rewrite (head_or_Some (c ++ [l]) pos) in Hs1 by done.
  rewrite (last_or_Some mid lm) in Hs2 by done.
  assert (from ≠ pos) as Hfp.
  { apply head_Some_elem_of in Hfrom, Hpos. intros E. rewrite <-E in Hpos. clear E.
    revert Hnd Hfrom Hpos. rewrite !NoDup_app. set_solver. }
  assert (tracked h h [(None, a, Some from); (last_or None a, mid, Some pos);
                       (Some lm, c ++ [l], None)]) as Ht.
  { apply tracked_start. split.
    - simpl. rewrite ?app_nil_r. nodup_from Hnd.
    - by repeat constructor. }
  clear Hs0 Hs1 Hs2.
  assert (∀ h', tracked h h' [(None, a, Some pos); (Some lm, mid, Some pos);
              (last_or None a, c ++ [l], None)] →
     linked h' l (a ++ c) ∧ seg h' (last mid) mid (Some pos) ∧
     (∀ y, y ∉ a ++ mid ++ c ++ [l] → h' !! y = h !! y))
    as Hfin.
  { intros h' Ht'. open_tracked Ht'. split; [split|split].
    - revert Hnd. rewrite <-!(assoc_L (++)), !NoDup_app. set_solver.
    - rewrite <-!(assoc_L (++)), (seg_app _ _ a).
      rewrite (head_or_Some (c ++ [l]) pos) by done. done.
    - by rewrite Hlm.
    - intros y Hy. apply Ho. set_solver. }
  unfold splice_with, iter_eq, end_.
  rewrite (bool_decide_eq_false_2 (Some from = Some pos)) by congruence. cbv iota.
  unfold last_or in Ht, Hfin.
  destruct (last a) as [la|] eqn:Ha.
  - rd_prev_at 1. wr_next_at 0. rd_prev_at 2. wr_next_at 1.
    rd_prev_at 2. rd_prev_at 2. wr_prev_at 2. rd_prev_at 2. wr_next_at 1.
    rd_prev_at 1. wr_prev_at 2. wr_prev_at 1.
    destruct (Hfin _ Ht) as (Hl1 & Hm & Hfr).
    split; [split; [done|]|split; [done|split; [done|]]]; simpl.
    + rewrite Hf. by destruct a.
    + done.
  - apply last_None in Ha as ->.
    rd_prev_at 1.
    destruct (decide (pos = l)) as [Hpl|Hpl].
    + rewrite (bool_decide_eq_true_2 (Some pos = Some l)) by congruence.
      simpl negb. cbv iota.
      wr_first_go. rd_prev_at 2. wr_next_at 1.
      rd_prev_at 2. rd_prev_at 2. wr_prev_at 2. rd_prev_at 2. wr_next_at 1.
      rd_prev_at 1. wr_prev_at 2. wr_prev_at 1.
      eapply (tracked_nil _ _ _ 0 _ _ None (Some pos)) in Ht; [|reflexivity].
      destruct (Hfin _ Ht) as (Hl1 & Hm & Hfr).
      split; [split; [done|]|split; [done|split; [done|]]]; simpl.
      * rewrite lookup_insert_eq. destruct c as [|y c]; [done|].
        exfalso. subst pos. simpl in Hpl. subst y.
        revert Hnd. rewrite !NoDup_app. set_solver.
      * intros l' ?. by rewrite lookup_insert_ne.
    + rewrite (bool_decide_eq_false_2 (Some pos = Some l)) by congruence.
      simpl negb. cbv iota.
      wr_first_go. rd_prev_at 2. wr_next_at 1.
      rd_prev_at 2. rd_prev_at 2. wr_prev_at 2. rd_prev_at 2. wr_next_at 1.
      rd_prev_at 1. wr_prev_at 2. wr_prev_at 1.
      eapply (tracked_nil _ _ _ 0 _ _ None (Some pos)) in Ht; [|reflexivity].
      destruct (Hfin _ Ht) as (Hl1 & Hm & Hfr).
      split; [split; [done|]|split; [done|split; [done|]]]; simpl.
      * rewrite lookup_insert_eq. destruct c as [|y c]; [by subst pos|done].
      * intros l' ?. by rewrite lookup_insert_ne.
Qed.

(** X21. [splice] within one list with the position at which the range
    itself ends, [splice(last, *this, first, last)]: in either file the
    call runs without undefined behaviour and takes the range out of the
    list.  Afterwards the list is a well-formed chain of the members outside
    the range; the elements of the range stay linked to one another, the
    first one naming the last one as its [prev]. *)
Theorem splice_to_end_of_range_drops_it σ l a mid c from :
  head mid = Some from →
  (chain_h σ l (a ++ mid ++ c) →
     ∃ σ', intrusive_list_h.splice l (head_or c (Some l)) l (Some from)
             (head_or c (Some l)) σ = Some (tt, σ') ∧
           chain_h σ' l (a ++ c) ∧
           seg (links σ') (last mid) mid (head_or c (Some l))) ∧
  (chain_p σ l (a ++ mid ++ c) →
     ∃ σ', part_000.splice l (head_or c (Some l)) l (Some from)
             (head_or c (Some l)) σ = Some (tt, σ') ∧
           chain_p σ' l (a ++ c) ∧
           seg (links σ') (last mid) mid (head_or c (Some l))).
Proof.
  intros Hfrom. split; intros Hc.
  - destruct (splice_to_own_end (λ _, None) σ l a mid c from Hc Hfrom)
      as ([] & σ' & Hr & Hc' & Hm & _). eauto.
  - destruct (splice_to_own_end (λ l, Some l) σ l a mid c from Hc Hfrom)
      as ([] & σ' & Hr & Hc' & Hm & _). eauto.
Qed.

Lemma splice_to_end_of_range_drops_it_witness :
  let σh := after (fill_h 100 [1; 2; 3; 4; 5]) σ0 in
  let σp := after (fill_p 100 [1; 2; 3]) σ0 in
  (head [2; 3] = Some 2 ∧ head [1; 2; 3] = Some 1 ∧
   chain_h σh 100 ([1] ++ [2; 3] ++ [4; 5]) ∧ chain_p σp 100 ([] ++ [1; 2; 3] ++ [])) ∧
  (∃ σ', intrusive_list_h.splice 100 (head_or [4; 5] (Some 100)) 100 (Some 2)
           (head_or [4; 5] (Some 100)) σh = Some (tt, σ') ∧
         chain_h σ' 100 ([1] ++ [4; 5]) ∧
         seg (links σ') (last [2; 3]) [2; 3] (head_or [4; 5] (Some 100))) ∧
  (∃ σ', part_000.splice 100 (head_or [] (Some 100)) 100 (Some 1)
           (head_or [] (Some 100)) σp = Some (tt, σ') ∧
         chain_p σ' 100 ([] ++ []) ∧
         seg (links σ') (last [1; 2; 3]) [1; 2; 3] (head_or [] (Some 100))).
Proof.
  intros σh σp.
  assert (chain_h σh 100 ([1] ++ [2; 3] ++ [4; 5])) as Hh by by_decision.
  assert (chain_p σp 100 ([] ++ [1; 2; 3] ++ [])) as Hp by by_decision.
  split; [exact (conj eq_refl (conj eq_refl (conj Hh Hp)))|]. split.
  - exact (proj1 (splice_to_end_of_range_drops_it σh 100 [1] [2; 3] [4; 5] 2 eq_refl) Hh).
  - exact (proj2 (splice_to_end_of_range_drops_it σp 100 [] [1; 2; 3] [] 1 eq_refl) Hp).
Defined.

(** ** Objects are neither created nor released *)

Lemma same_objects_refl σ : same_objects σ σ.
Proof. by split. Qed.

Lemma same_objects_trans σ1 σ2 σ3 :
  same_objects σ1 σ2 → same_objects σ2 σ3 → same_objects σ1 σ3.
Proof. intros [H1 H2] [H3 H4]. split; congruence. Qed.

Lemma ko_ret {A} (a : A) : keeps_objects (mret a).
Proof. intros σ a' σ' [= _ <-]. apply same_objects_refl. Qed.

Lemma ko_ub {A} : keeps_objects (@ub A).
Proof. by intros σ a σ'. Qed.

Lemma ko_bind {A B} (m : M A) (k : A → M B) :
  keeps_objects m → (∀ a, keeps_objects (k a)) → keeps_objects (m ≫= k).
Proof.
  intros Hm Hk σ b σ''. rewrite bind_eq.
  destruct (m σ) as [[a σ']|] eqn:E; [|done]. intros Hka.
  eapply same_objects_trans; [by eapply Hm|by eapply Hk].
Qed.

Lemma ko_rd_prev q : keeps_objects (rd_prev q).
Proof.
  intros σ a σ'. unfold rd_prev. destruct q as [x|]; [|done].
  destruct (links σ !! x); [|done]. intros [= _ <-]. apply same_objects_refl.
Qed.

Lemma ko_rd_next q : keeps_objects (rd_next q).
Proof.
  intros σ a σ'. unfold rd_next. destruct q as [x|]; [|done].
  destruct (links σ !! x); [|done]. intros [= _ <-]. apply same_objects_refl.
Qed.

Lemma ko_rd_first l : keeps_objects (rd_first l).
Proof.
  intros σ a σ'. unfold rd_first.
  destruct (firsts σ !! l); [|done]. intros [= _ <-]. apply same_objects_refl.
Qed.

Lemma ko_wr_prev q v : keeps_objects (wr_prev q v).
Proof.
  intros σ a σ'. unfold wr_prev. destruct q as [x|]; [|done].
  destruct (links σ !! x) eqn:E; [|done]. intros [= _ <-]. split; [|done]. simpl.
  apply dom_insert_lookup_L. by rewrite E.
Qed.

Lemma ko_wr_next q v : keeps_objects (wr_next q v).
Proof.
  intros σ a σ'. unfold wr_next. destruct q as [x|]; [|done].
  destruct (links σ !! x) eqn:E; [|done]. intros [= _ <-]. split; [|done]. simpl.
  apply dom_insert_lookup_L. by rewrite E.
Qed.

Lemma ko_wr_first l v : keeps_objects (wr_first l v).
Proof.
  intros σ a σ'. unfold wr_first.
  destruct (firsts σ !! l) eqn:E; [|done]. intros [= _ <-]. split; [done|]. simpl.
  apply dom_insert_lookup_L. by rewrite E.
Qed.

Ltac keeps_objects_step :=
  lazymatch goal with
  | |- keeps_objects (mbind _ _) => apply ko_bind; [|intros ?]
  | |- keeps_objects (mret _) => apply ko_ret
  | |- keeps_objects ub => apply ko_ub
  | |- keeps_objects (rd_prev _) => apply ko_rd_prev
  | |- keeps_objects (rd_next _) => apply ko_rd_next
  | |- keeps_objects (rd_first _) => apply ko_rd_first
  | |- keeps_objects (wr_prev _ _) => apply ko_wr_prev
  | |- keeps_objects (wr_next _ _) => apply ko_wr_next
  | |- keeps_objects (wr_first _ _) => apply ko_wr_first
  | |- keeps_objects (match ?x with _ => _ end) => destruct x
  end.

Ltac keeps_objects_go := cbv zeta beta; repeat (keeps_objects_step; cbv zeta beta).

Lemma ko_insert l pos x : keeps_objects (insert l pos x).
Proof. unfold insert. keeps_objects_go. Qed.

Lemma ko_erase l pos : keeps_objects (erase l pos).
Proof. unfold erase. keeps_objects_go. Qed.

Lemma ko_splice_with nil l it0 d it1 it2 : keeps_objects (splice_with nil l it0 d it1 it2).
Proof. unfold splice_with. keeps_objects_go. Qed.

(** X22. No operation of either file but the constructors and the
    destructor creates or releases an object: whatever store it is started
    in, well formed or not, if it returns then the store holds the same
    links and the same lists as before.  This covers [unlink], [insert],
    [erase], [splice], the pushes and pops, [clear] and move-assignment. *)
Theorem operations_keep_objects :
  (∀ l pos x, keeps_objects (insert l pos x)) ∧
  (∀ l pos, keeps_objects (erase l pos)) ∧
  (∀ x, keeps_objects (intrusive_list_h.unlink x) ∧ keeps_objects (part_000.unlink x)) ∧
  (∀ l it0 d it1 it2,
     keeps_objects (intrusive_list_h.splice l it0 d it1 it2) ∧
     keeps_objects (part_000.splice l it0 d it1 it2)) ∧
  (∀ l x,
     keeps_objects (intrusive_list_h.push_back l x) ∧
     keeps_objects (intrusive_list_h.push_front l x) ∧
     keeps_objects (part_000.push_back l x) ∧
     keeps_objects (part_000.push_front l x)) ∧
  (∀ l,
     keeps_objects (intrusive_list_h.pop_back l) ∧
     keeps_objects (intrusive_list_h.pop_front l) ∧
     keeps_objects (intrusive_list_h.clear l) ∧
     keeps_objects (part_000.pop_back l) ∧
     keeps_objects (part_000.pop_front l) ∧
     keeps_objects (part_000.clear l)) ∧
  (∀ l other,
     keeps_objects (intrusive_list_h.move_assign l other) ∧
     keeps_objects (part_000.move_assign l other)).
Proof.
  split; [apply ko_insert|]. split; [apply ko_erase|].
  split; [intros x; split;
          [unfold intrusive_list_h.unlink|unfold part_000.unlink]; keeps_objects_go|].
  split; [intros; split; apply ko_splice_with|].
  split.
  { intros l x. split; [unfold intrusive_list_h.push_back; keeps_objects_go|].
    split; [unfold intrusive_list_h.push_front; keeps_objects_go|].
    split; [unfold part_000.push_back|unfold part_000.push_front, part_000.begin];
      keeps_objects_go; apply ko_insert. }
  split.
  { intros l. split; [unfold intrusive_list_h.pop_back, intrusive_list_h.clear;
                      keeps_objects_go|].
    split; [unfold intrusive_list_h.pop_front, intrusive_list_h.clear; keeps_objects_go|].
    split; [unfold intrusive_list_h.clear; keeps_objects_go|].
    split; [unfold part_000.pop_back; keeps_objects_go; apply ko_erase|].
    split; [unfold part_000.pop_front, part_000.begin; keeps_objects_go; apply ko_erase|].
    unfold part_000.clear; keeps_objects_go. }
  intros l other. split.
  - unfold intrusive_list_h.move_assign. keeps_objects_go.
  - unfold part_000.move_assign, part_000.clear, part_000.begin. keeps_objects_go.
    apply ko_splice_with.
Qed.

Lemma operations_keep_objects_witness :
  let σ := after (fill_h 100 [1; 2; 3]) σ0 in
  let σ' := after (erase 100 (Some 2)) σ in
  erase 100 (Some 2) σ = Some (Some 3, σ') ∧ same_objects σ σ'.
Proof.
  intros σ σ'.
  assert (erase 100 (Some 2) σ = Some (Some 3, σ')) as Hrun by (by vm_compute).
  split; [exact Hrun|].
  exact (proj1 (proj2 operations_keep_objects) 100 (Some 2) σ (Some 3) σ' Hrun).
Defined.

(** ** An element that takes itself out *)

Lemma unlink_h_not_first σ l xs1 x xs2 :
  chain_h σ l (xs1 ++ x :: xs2) → xs1 ≠ [] →
  wp (intrusive_list_h.unlink x) σ (λ _ σ',
    chain_h σ' l (xs1 ++ xs2) ∧
    (∀ y, y ∉ (xs1 ++ xs2) ++ [l] → links σ' !! y = links σ !! y) ∧
    (∀ l', l' ≠ l → firsts σ' !! l' = firsts σ !! l')).
Proof.
  intros [[Hnd Hs] Hf] Hne. destruct σ as [h f]. simpl in *.
  rewrite <-(assoc_L (++)) in Hnd, Hs. simpl in Hnd, Hs.
  apply seg_app in Hs as [Hs1 Hs2]. simpl in Hs1, Hs2. destruct Hs2 as [Hx Hs2].
  pose proof (head_app_sentinel xs2 l) as Hn.
  set (n := default l (head xs2)) in *.
  destruct (last xs1) as [b|] eqn:Hb; [|by apply last_None in Hb].
  rewrite (last_or_Some _ b) in Hx by done.
  unfold head_or in Hx. rewrite Hn in Hx. unfold head_or in Hs1. simpl in Hs1.
  assert (tracked h h [(None, xs1, Some x); (Some b, [x], Some n);
                       (Some x, xs2 ++ [l], None)]) as Ht.
  { apply tracked_start. split.
    - simpl. by rewrite app_nil_r.
    - forall_pieces; [done|by rewrite Hx|done]. }
  unfold intrusive_list_h.unlink.
  rd_prev_at 1. rd_next_at 1. wr_next_at 0. rd_next_at 1. rd_prev_at 1. wr_prev_at 2.
  open_tracked Ht. destruct Hs0 as [Hs0 _].
  split; [split; [split|]|split]; simpl.
  - apply NoDup_app in Hnd as (? & ? & [? ?]%NoDup_cons).
    rewrite <-(assoc_L (++)). apply NoDup_app. set_solver.
  - rewrite <-(assoc_L (++)), seg_app. rewrite (last_or_Some _ b) by done.
    unfold head_or. by rewrite Hn.
  - rewrite Hf. by destruct xs1.
  - intros y Hy. destruct (decide (y = x)) as [->|Hyx]; [by rewrite Hs0, Hx|].
    apply Ho. rewrite app_nil_r. revert Hy. set_solver.
  - done.
Qed.

(** X23. In intrusive_list.h, [unlink()] called on a member that has a
    previous member has exactly the effect of [erase] at that member's
    position: started in the same store they end in the same store, a
    well-formed chain of the other members in which the element keeps its
    two references.  Destroying such a member leaves that chain and
    releases the element. *)
Theorem unlink_of_later_member_is_erase σ l xs1 x xs2 :
  chain_h σ l (xs1 ++ x :: xs2) → xs1 ≠ [] →
  intrusive_list_h.unlink x σ = (erase l (Some x);; mret tt) σ ∧
  (∃ σ', intrusive_list_h.unlink x σ = Some (tt, σ') ∧
         chain_h σ' l (xs1 ++ xs2) ∧ links σ' !! x = links σ !! x) ∧
  (∃ σ', intrusive_list_h.destroy x σ = Some (tt, σ') ∧
         chain_h σ' l (xs1 ++ xs2) ∧ links σ' !! x = None).
Proof.
  intros Hc Hne.
  assert (x ∉ (xs1 ++ xs2) ++ [l]) as Hx.
  { destruct Hc as [[Hnd _] _]. rewrite <-(assoc_L (++)) in Hnd.
    apply NoDup_app in Hnd as (_ & Hd & Hnd'). apply NoDup_cons in Hnd' as [Hx _].
    rewrite <-(assoc_L (++)).
    intros [Hin|Hin]%elem_of_app; [|done]. eapply Hd; [done|left]. }
  split; [|split].
  - eapply (same_outcome (λ _, None) (λ _, None) l (xs1 ++ xs2)); [| |by right].
    + by apply unlink_h_not_first.
    + apply wp_bind. eapply wp_mono; [apply erase_h; [done|by destruct xs1]|].
      intros r σ' (_ & H1 & H2 & H3 & H4). apply wp_ret.
      split; [done|]. split; [|done].
      intros y Hy. apply H3. by rewrite <-(assoc_L (++)) in Hy.
  - destruct (unlink_h_not_first σ l xs1 x xs2 Hc Hne) as ([] & σ' & Hr & Hc' & Ho & _).
    exists σ'. split; [done|]. split; [done|]. by apply Ho.
  - destruct (destroy_h_not_first σ l xs1 x xs2 Hc Hne) as ([] & σ' & Hr & Hc' & Hx').
    eauto.
Qed.

Lemma unlink_of_later_member_is_erase_witness :
  let σ := after (fill_h 100 [1; 2; 3]) σ0 in
  (chain_h σ 100 ([1] ++ 2 :: [3]) ∧ [1] ≠ []) ∧
  intrusive_list_h.unlink 2 σ = (erase 100 (Some 2);; mret tt) σ ∧
  (∃ σ', intrusive_list_h.unlink 2 σ = Some (tt, σ') ∧
         chain_h σ' 100 ([1] ++ [3]) ∧ links σ' !! 2 = links σ !! 2) ∧
  (∃ σ', intrusive_list_h.destroy 2 σ = Some (tt, σ') ∧
         chain_h σ' 100 ([1] ++ [3]) ∧ links σ' !! 2 = None).
Proof.
  intros σ.
  assert (chain_h σ 100 ([1] ++ 2 :: [3])) as Hc by by_decision.
  assert ([1] ≠ ([] : list nat)) as Hne by discriminate.
  split; [exact (conj Hc Hne)|].
  exact (unlink_of_later_member_is_erase σ 100 [1] 2 [3] Hc Hne).
Defined.

(** ** The files against the abstract list *)

(** X24. Both files realize the abstract list on every program of
    [push_back], [push_front], [pop_back], [pop_front], [empty], [front],
    [back] and traversal that the abstract list accepts: elements pushed are
    detached objects of the pool, pops and [front]/[back] find a member,
    [push_front] finds a member already there and [pop_front] leaves one,
    and a traversal meets fewer than 16 members.  Started in a store that
    holds the abstract state as a well-formed chain, each file runs the
    program without undefined behaviour, returns the abstract list's
    results, and ends in a store that holds the abstract final state. *)
Theorem files_realize_abstract_list σ l st prog rs st' :
  abs_run st prog = Some (rs, st') →
  (holds chain_h σ l st →
     ∃ σ', run (exec_h l) prog σ = Some (rs, σ') ∧ holds chain_h σ' l st') ∧
  (holds chain_p σ l st →
     ∃ σ', run (exec_p l) prog σ = Some (rs, σ') ∧ holds chain_p σ' l st').
Proof.
  intros Hrun. split; intros Hh.
  - by eapply header_refines.
  - by eapply part_000_refines.
Qed.

Lemma files_realize_abstract_list_witness :
  let σh := after (intrusive_list_h.new_list 100;; make_elements [1; 2; 3]) σ0 in
  let σp := after (part_000.new_list 100;; make_elements [1; 2; 3]) σ0 in
  let prog := [PushBack 1; PushBack 2; PopFront; Iterate; PushFront 3; Front; Back;
               PopBack; Empty; Iterate] in
  let rs := [Done; Done; Done; Seq [2]; Done; Elem 3; Elem 2; Done; Flag false;
             Seq [3]] in
  (abs_run ([], [1; 2; 3]) prog = Some (rs, ([3], [])) ∧
   holds chain_h σh 100 ([], [1; 2; 3]) ∧ holds chain_p σp 100 ([], [1; 2; 3])) ∧
  (∃ σ', run (exec_h 100) prog σh = Some (rs, σ') ∧ holds chain_h σ' 100 ([3], [])) ∧
  (∃ σ', run (exec_p 100) prog σp = Some (rs, σ') ∧ holds chain_p σ' 100 ([3], [])).
Proof.
  intros σh σp prog rs.
  assert (abs_run ([], [1; 2; 3]) prog = Some (rs, ([3], []))) as Hrun by (by vm_compute).
  assert (holds chain_h σh 100 ([], [1; 2; 3])) as Hh.
  { split; [by_decision|]. simpl.
    intros x Hx. repeat (apply elem_of_cons in Hx as [->|Hx]);
      [split; by_decision..|]. by apply elem_of_nil in Hx. }
  assert (holds chain_p σp 100 ([], [1; 2; 3])) as Hp.
  { split; [by_decision|]. simpl.
    intros x Hx. repeat (apply elem_of_cons in Hx as [->|Hx]);
      [split; by_decision..|]. by apply elem_of_nil in Hx. }
  split; [exact (conj Hrun (conj Hh Hp))|]. split.
  - exact (proj1 (files_realize_abstract_list σh 100 _ prog rs _ Hrun) Hh).
  - exact (proj2 (files_realize_abstract_list σp 100 _ prog rs _ Hrun) Hp).
Defined.

(** ** Moving a list away and back *)

Lemma chain_list_object nil σ l xs : chain_with nil σ l xs → list_object σ l.
Proof.
  intros [Hl Hf]. split.
  - by rewrite (linked_lookup_sentinel _ _ _ Hl).
  - by rewrite Hf.
Qed.

Section move_back.
Variable nil : loc → ptr.
Variable move_assign : loc → loc → M unit.
Hypothesis H_move : keeps_move_assign (chain_with nil) move_assign.

Lemma move_there_and_back σ l other xs :
  l ≠ other → chain_with nil σ l [] → chain_with nil σ other xs →
  (move_assign l other;; move_assign other l) σ = Some (tt, σ).
Proof.
  intros Hlo Hl Ho.
  assert (l ∉ xs ++ [other]) as Hfresh.
  { pose proof (chains_disjoint _ _ _ _ _ (proj1 Hl) (proj1 Ho) Hlo) as Hnd.
    simpl in Hnd. by apply NoDup_cons in Hnd as [? _]. }
  destruct (H_move σ l other xs Ho Hfresh (chain_list_object _ _ _ _ Hl))
    as (σ1 & Hr1 & Hl1 & Ho1 & Hfr1 & Hff1).
  assert (other ∉ xs ++ [l]) as Hfresh'.
  { pose proof (chains_disjoint _ _ _ _ _ (proj1 Ho1) (proj1 Hl1) (not_eq_sym Hlo)) as Hnd.
    simpl in Hnd. by apply NoDup_cons in Hnd as [? _]. }
  destruct (H_move σ1 other l xs Hl1 Hfresh' (chain_list_object _ _ _ _ Ho1))
    as (σ2 & Hr2 & Ho2 & Hl2 & Hfr2 & Hff2).
  rewrite bind_eq, Hr1, Hr2. do 2 f_equal.
  eapply (two_chains_restored nil σ σ2 l other [] xs); [done..| |].
  - intros y Hy1 Hy2. rewrite Hfr2, Hfr1; [done| |]; revert Hy1 Hy2; set_solver.
  - intros l' H1 H2. rewrite Hff2, Hff1; [done| |]; set_solver.
Qed.
End move_back.

(** X25. In either file, move-assigning a list into a well-formed empty
    list and then move-assigning it back runs without undefined behaviour
    and leaves the whole store exactly as it was. *)
Theorem move_there_and_back_restores_store σ l other xs :
  l ≠ other →
  (chain_h σ l [] → chain_h σ other xs →
     (intrusive_list_h.move_assign l other;; intrusive_list_h.move_assign other l) σ =
       Some (tt, σ)) ∧
  (chain_p σ l [] → chain_p σ other xs →
     (part_000.move_assign l other;; part_000.move_assign other l) σ = Some (tt, σ)).
Proof.
  intros Hlo. split; intros Hl Ho.
  - exact (move_there_and_back (λ _, None) _ header_keeps_move_assign σ l other xs Hlo Hl Ho).
  - exact (move_there_and_back (λ l, Some l) _ part_000_keeps_move_assign σ l other xs
             Hlo Hl Ho).
Qed.

Lemma move_there_and_back_restores_store_witness :
  let σh := after (fill_h 100 [1; 2; 3];; intrusive_list_h.new_list 200) σ0 in
  let σp := after (fill_p 100 [1; 2; 3];; part_000.new_list 200) σ0 in
  (200 ≠ 100 ∧ chain_h σh 200 [] ∧ chain_h σh 100 [1; 2; 3] ∧
   chain_p σp 200 [] ∧ chain_p σp 100 [1; 2; 3]) ∧
  (intrusive_list_h.move_assign 200 100;; intrusive_list_h.move_assign 100 200) σh =
    Some (tt, σh) ∧
  (part_000.move_assign 200 100;; part_000.move_assign 100 200) σp = Some (tt, σp).
Proof.
  intros σh σp.
  assert (200 ≠ 100) as Hne by lia.
  assert (chain_h σh 200 []) as Hh1 by by_decision.
  assert (chain_h σh 100 [1; 2; 3]) as Hh2 by by_decision.
  assert (chain_p σp 200 []) as Hp1 by by_decision.
  assert (chain_p σp 100 [1; 2; 3]) as Hp2 by by_decision.
  split; [exact (conj Hne (conj Hh1 (conj Hh2 (conj Hp1 Hp2))))|]. split.
  - exact (proj1 (move_there_and_back_restores_store σh 200 100 [1; 2; 3] Hne) Hh1 Hh2).
  - exact (proj2 (move_there_and_back_restores_store σp 200 100 [1; 2; 3] Hne) Hp1 Hp2).
Defined.

(** ** Destroying a list before its members *)

Lemma seg_no_reference h p xs e l x c :
  seg h p xs e → l ∉ xs → p ≠ Some l → e ≠ Some l →
  x ∈ xs → h !! x = Some c → prev c ≠ Some l ∧ next c ≠ Some l.
Proof.
  revert p. induction xs as [|x0 xs IH]; intros p Hs Hl Hp He Hx Hc.
  - by apply elem_of_nil in Hx.
  - simpl in Hs. destruct Hs as [Hx0 Hs].
    apply not_elem_of_cons in Hl as [Hl0 Hl].
    apply elem_of_cons in Hx as [->|Hx].
    + rewrite Hx0 in Hc. injection Hc as <-. simpl. split; [done|].
      destruct xs as [|x1 xs]; [done|]. unfold head_or. simpl.
      intros [= ->]. apply Hl. left.
    + eapply (IH (Some x0)); try done. by intros [= ->].
Qed.

Lemma destroy_list_run nil σ l xs (unlink : loc → M unit) :
  chain_with nil σ l xs →
  (∀ h f, tracked (links σ) h [(None, xs, Some l); (last_or None xs, [l], None)] →
     wp (unlink l) (mk_state h f) (λ _ σ',
       firsts σ' = f ∧ ∃ p, tracked (links σ) (links σ') [(None, xs, None); (p, [l], None)])) →
  wp (unlink l;; release l;; release_first l) σ (λ _ σ',
    links σ' !! l = None ∧ firsts σ' !! l = None ∧
    seg (links σ') None xs None ∧
    (∀ y, y ∉ xs ++ [l] → links σ' !! y = links σ !! y) ∧
    (∀ l', l' ≠ l → firsts σ' !! l' = firsts σ !! l')).
Proof.
  intros [Hl Hf] Hunlink. destruct σ as [h f]. simpl in *.
  pose proof (linked_pieces _ _ _ Hl) as Hp. apply tracked_start in Hp.
  apply wp_bind. eapply wp_mono; [apply (Hunlink h f Hp)|].
  intros [] [h' f'] (Hff & p & Ht). simpl in *. subst f'. open_tracked Ht.
  destruct Hs0 as [Hs0 _].
  apply wp_bind. eapply wp_eq; [unfold release; simpl; by rewrite Hs0|].
  eapply wp_eq; [unfold release_first; simpl; by rewrite Hf|]. simpl.
  assert (l ∉ xs) as Hlx.
  { apply NoDup_app in Hnd as (_ & Hd & _).
    intros Hin. eapply Hd; [done|left]. }
  split; [apply lookup_delete_eq|]. split; [apply lookup_delete_eq|].
  split; [by apply seg_delete|]. split.
  - intros y Hy. rewrite lookup_delete_ne by set_solver. by apply Ho.
  - intros l' Hl'. by rewrite lookup_delete_ne.
Qed.

(** X26. Destroying a list whose members are still alive, in either file:
    the empty destructor body is followed by the destructor of the
    [after_last] member, whose [unlink()] writes null into the last member's
    [next].  On a well-formed chain this runs without undefined behaviour;
    afterwards the list's storage is gone, the former members are a run that
    ends in null at both ends, and none of them holds a reference to the
    destroyed list; no other object is written. *)
Theorem destroying_a_list_detaches_it σ l xs :
  (chain_h σ l xs →
     ∃ σ', destroy_list_h l σ = Some (tt, σ') ∧
           links σ' !! l = None ∧ firsts σ' !! l = None ∧
           seg (links σ') None xs None ∧
           (∀ x c, x ∈ xs → links σ' !! x = Some c →
                   prev c ≠ Some l ∧ next c ≠ Some l) ∧
           (∀ y, y ∉ xs ++ [l] → links σ' !! y = links σ !! y) ∧
           (∀ l', l' ≠ l → firsts σ' !! l' = firsts σ !! l')) ∧
  (chain_p σ l xs →
     ∃ σ', destroy_list_p l σ = Some (tt, σ') ∧
           links σ' !! l = None ∧ firsts σ' !! l = None ∧
           seg (links σ') None xs None ∧
           (∀ x c, x ∈ xs → links σ' !! x = Some c →
                   prev c ≠ Some l ∧ next c ≠ Some l) ∧
           (∀ y, y ∉ xs ++ [l] → links σ' !! y = links σ !! y) ∧
           (∀ l', l' ≠ l → firsts σ' !! l' = firsts σ !! l')).
Proof.
  assert (∀ nil, chain_with nil σ l xs → l ∉ xs) as Hlx.
  { intros nil [[Hnd _] _]. apply NoDup_app in Hnd as (_ & Hd & _).
    intros Hin. eapply Hd; [done|left]. }
  split; intros Hc.
  - destruct (destroy_list_run (λ _, None) σ l xs intrusive_list_h.unlink Hc)
      as ([] & σ' & Hr & H1 & H2 & H3 & H4 & H5).
    { intros h f Ht. unfold intrusive_list_h.unlink. unfold last_or in *.
      rd_prev_at 1. destruct (last xs) as [z|] eqn:Hz.
      - rd_next_at 1. wr_next_at 0. rd_next_at 1. apply wp_ret. simpl. eauto.
      - apply last_None in Hz as ->. apply wp_bind, wp_ret. rd_next_at 1. apply wp_ret.
        simpl. split; [done|]. exists None.
        by eapply (tracked_nil _ _ _ 0 _ _ None None) in Ht. }
    exists σ'. split; [|split; [done|split; [done|split; [done|split; [|done]]]]].
    + unfold destroy_list_h, intrusive_list_h.destroy.
      rewrite <-Hr. unfold mbind, M_bind.
      by destruct (intrusive_list_h.unlink l σ) as [[[] ?]|].
    + intros x c Hx Hcx. by eapply (seg_no_reference _ _ _ _ l x c H3); eauto.
  - destruct (destroy_list_run (λ l, Some l) σ l xs part_000.unlink Hc)
      as ([] & σ' & Hr & H1 & H2 & H3 & H4 & H5).
    { intros h f Ht. unfold part_000.unlink. unfold last_or in *.
      rd_prev_at 1. destruct (last xs) as [z|] eqn:Hz.
      - rd_next_at 1. wr_next_at 0. wr_next_at 1. rd_next_at 1. apply wp_ret.
        simpl. eauto.
      - apply last_None in Hz as ->. apply wp_bind, wp_ret. rd_next_at 1. apply wp_ret.
        simpl. split; [done|]. exists None.
        by eapply (tracked_nil _ _ _ 0 _ _ None None) in Ht. }
    exists σ'. split; [|split; [done|split; [done|split; [done|split; [|done]]]]].
    + unfold destroy_list_p, part_000.destroy.
      rewrite <-Hr. unfold mbind, M_bind.
      by destruct (part_000.unlink l σ) as [[[] ?]|].
    + intros x c Hx Hcx. by eapply (seg_no_reference _ _ _ _ l x c H3); eauto.
Qed.

Lemma destroying_a_list_detaches_it_witness :
  let σh := after (fill_h 100 [1; 2; 3]) σ0 in
  let σp := after (fill_p 100 [1; 2; 3]) σ0 in
  (chain_h σh 100 [1; 2; 3] ∧ chain_p σp 100 [1; 2; 3]) ∧
  (∃ σ', destroy_list_h 100 σh = Some (tt, σ') ∧
         links σ' !! 100 = None ∧ firsts σ' !! 100 = None ∧
         seg (links σ') None [1; 2; 3] None ∧
         (∀ x c, x ∈ [1; 2; 3] → links σ' !! x = Some c →
                 prev c ≠ Some 100 ∧ next c ≠ Some 100) ∧
         (∀ y, y ∉ [1; 2; 3] ++ [100] → links σ' !! y = links σh !! y) ∧
         (∀ l', l' ≠ 100 → firsts σ' !! l' = firsts σh !! l')) ∧
  (∃ σ', destroy_list_p 100 σp = Some (tt, σ') ∧
         links σ' !! 100 = None ∧ firsts σ' !! 100 = None ∧
         seg (links σ') None [1; 2; 3] None ∧
         (∀ x c, x ∈ [1; 2; 3] → links σ' !! x = Some c →
                 prev c ≠ Some 100 ∧ next c ≠ Some 100) ∧
         (∀ y, y ∉ [1; 2; 3] ++ [100] → links σ' !! y = links σp !! y) ∧
         (∀ l', l' ≠ 100 → firsts σ' !! l' = firsts σp !! l')).
Proof.
  intros σh σp.
  assert (chain_h σh 100 [1; 2; 3]) as Hh by by_decision.
  assert (chain_p σp 100 [1; 2; 3]) as Hp by by_decision.
  split; [exact (conj Hh Hp)|]. split.
  - exact (proj1 (destroying_a_list_detaches_it σh 100 [1; 2; 3]) Hh).
  - exact (proj2 (destroying_a_list_detaches_it σp 100 [1; 2; 3]) Hp).
Defined.
